(** * ShiCo: tracking the vocabulary of a concept through time

    A shallow embedding of the Python package [shico]:
    - [shico/format.py]                  ([getRangeMiddle]),
    - [shico/extras/termlistcleaner.py]  ([cleanTermList]),
    - [shico/vocabularymonitor.py]       ([VocabularyMonitor.trackClouds] and
      the functions it calls),
    followed by the properties of these functions.

    Conventions of the embedding.
    - Python [str] is [string]; every character is one code point (below
      256), so [len] is [String.length] and the order of [str] is the
      lexicographic order of the codes ([String_as_OT.compare]).
    - Python [float] is the binary64 type [float] of the kernel, with its
      own arithmetic and comparisons.
    - Python [int] is [Z]; sizes and counts are [nat].
    - A call that can raise returns a [result]; [Raise e] is the exception
      leaving the call. *)

From Stdlib Require Import ZArith List String Ascii Bool Lia.
From Stdlib Require Import Floats Uint63 Sorted OrdersEx RelationClasses.
From Stdlib Require Import Permutation.
Import ListNotations.

Set Warnings "-inexact-float".

Open Scope string_scope.
Open Scope list_scope.

(** ** Exceptions *)

Inductive exn : Type :=
| KeyError (msg : string)
| IndexError
| ValueError
| ZeroDivisionError
| OverflowError
| Exception (msg : string).

Inductive result (A : Type) : Type :=
| Ok (a : A)
| Raise (e : exn).

Arguments Ok {A} a.
Arguments Raise {A} e.

Definition bind {A B : Type} (c : result A) (k : A -> result B) : result B :=
  match c with
  | Ok a => k a
  | Raise e => Raise e
  end.

Notation "x <- c1 ;; c2" := (bind c1 (fun x => c2))
  (at level 61, c1 at next level, right associativity).

(** ** Python builtins *)

Module Py.

(** [s.split(sep)] for a separator of one character. *)
Fixpoint split (sep : ascii) (s : string) : list string :=
  match s with
  | EmptyString => [EmptyString]
  | String c rest =>
      if Ascii.eqb c sep then EmptyString :: split sep rest
      else match split sep rest with
           | [] => [String c EmptyString]
           | p :: ps => String c p :: ps
           end
  end.

(** [l[i]] for [0 <= i]. *)
Definition index {A : Type} (l : list A) (i : nat) : result A :=
  match nth_error l i with
  | Some a => Ok a
  | None => Raise IndexError
  end.

(** White space that [int] strips: tab, line feed, vertical tab, form feed,
    carriage return and the blank, and beyond ASCII the next line character
    (133) and the no-break space (160).  The separators 28..31, white space
    to [str.isspace], are none to [int]. *)
Definition isspace (c : ascii) : bool :=
  let n := nat_of_ascii c in
  ((9 <=? n)%nat && (n <=? 13)%nat) || (n =? 32)%nat
  || (n =? 133)%nat || (n =? 160)%nat.

Fixpoint lstrip (s : string) : string :=
  match s with
  | String c rest => if isspace c then lstrip rest else s
  | EmptyString => EmptyString
  end.

Fixpoint rstrip (s : string) : string :=
  match s with
  | EmptyString => EmptyString
  | String c rest =>
      match rstrip rest with
      | EmptyString => if isspace c then EmptyString else String c EmptyString
      | r => String c r
      end
  end.

Definition strip (s : string) : string := rstrip (lstrip s).

Definition digit (c : ascii) : option Z :=
  let n := nat_of_ascii c in
  if (48 <=? n)%nat && (n <=? 57)%nat then Some (Z.of_nat (n - 48)) else None.

(** The digits of a literal, most significant first, onto [acc]. *)
Fixpoint digits (s : string) (acc : Z) : result Z :=
  match s with
  | EmptyString => Ok acc
  | String c rest =>
      match digit c with
      | Some d => digits rest (10 * acc + d)%Z
      | None => Raise ValueError
      end
  end.

(** The longest literal [int] reads, in digits
    ([sys.get_int_max_str_digits()], as it is by default). *)
Definition max_str_digits : nat := 4300.

Definition unsigned (s : string) : result Z :=
  match s with
  | EmptyString => Raise ValueError
  | _ =>
      if (max_str_digits <? String.length s)%nat then Raise ValueError
      else digits s 0%Z
  end.

(** [int(s)] in base ten, for a string without the digit separator ['_']
    (the parts returned by [split "_"] have none): optional white space
    around an optional sign and at least one digit. *)
Definition int (s : string) : result Z :=
  match strip s with
  | String "+" rest => unsigned rest
  | String "-" rest => n <- unsigned rest ;; Ok (- n)%Z
  | t => unsigned t
  end.

(** The integer nearest to [n / d], for [0 < d], a tie going to the even
    one. *)
Definition round_div (n d : Z) : Z :=
  let q := (n / d)%Z in
  let r := (n mod d)%Z in
  match (2 * r ?= d)%Z with
  | Lt => q
  | Gt => (q + 1)%Z
  | Eq => if Z.even q then q else (q + 1)%Z
  end.

(** [n / 2] for an int [n]: the float nearest to the half of [n], a tie
    going to the even significand, and [OverflowError] when that float
    would be 2^1024 or more.  The float is a multiple of 1/2 and is given
    by the number of halves it is made of: [n] itself when [n] fits the 53
    bits of a significand, else [n] rounded to its 53 leading bits. *)
Definition truediv_2 (n : Z) : result Z :=
  let a := Z.abs n in
  let shift := (Z.log2 a + 1 - 53)%Z in
  if (shift <=? 0)%Z then Ok n
  else
    let a' := (round_div a (2 ^ shift) * 2 ^ shift)%Z in
    if (2 ^ 1025 <=? a')%Z then Raise OverflowError
    else Ok (Z.sgn n * a')%Z.

(** [round(x)] for the float [x] of [halves] halves: the nearest integer, a
    tie going to the even one. *)
Definition round (halves : Z) : Z := round_div halves 2.

(** [float(n)] for a size [n]. *)
Definition float_of_nat (n : nat) : float :=
  PrimFloat.of_uint63 (Uint63.of_Z (Z.of_nat n)).

(** [x / n] for a float [x] and an int [n]. *)
Definition truediv (x : float) (n : nat) : result float :=
  if Nat.eqb n 0 then Raise ZeroDivisionError
  else Ok (x / float_of_nat n)%float.

End Py.

(** ** shico/format.py *)

Module Format.

(** [int(key.split('_')[i])] *)
Definition year_at (key : string) (i : nat) : result Z :=
  p <- Py.index (Py.split "_" key) i ;; Py.int p.

(** [getRangeMiddle(first, last=None)] *)
Definition getRangeMiddle (first : string) (last : option string) : result Z :=
  let last := match last with None => first | Some l => l end in
  y0 <- year_at first 0 ;;
  yn <- year_at last 1 ;;
  x <- Py.truediv_2 (yn + y0) ;;
  Ok (Py.round x).

End Format.

(** ** shico/extras/termlistcleaner.py *)

Module TermListCleaner.

(** [editdistance.eval(a, b)] of the [editdistance] package the module
    imports: the Levenshtein distance, the least number of insertions,
    deletions and substitutions of one character that turn [a] into [b]. *)
Fixpoint editdistance (a : string) : string -> nat :=
  match a with
  | EmptyString => fun b => String.length b
  | String x a' =>
      fix inner (b : string) : nat :=
        match b with
        | EmptyString => S (String.length a')
        | String y b' =>
            if Ascii.eqb x y then editdistance a' b'
            else S (Nat.min (editdistance a' b)
                            (Nat.min (inner b') (editdistance a' b')))
        end
  end.

Section Cleaner.

(** The weights are carried along and never inspected. *)
Context {W : Type}.

(** The loop [for known, _ in cleanTerms] of [_isCloseToList]. *)
Fixpoint _isCloseToList_for (word : string) (cleanTerms : list (string * W))
    (minEditDiff : float) : result bool :=
  match cleanTerms with
  | [] => Ok false
  | (known, _) :: rest =>
      diff <- Py.truediv (Py.float_of_nat (editdistance word known))
                (Nat.min (String.length word) (String.length known)) ;;
      if (diff <? minEditDiff)%float then Ok true
      else _isCloseToList_for word rest minEditDiff
  end.

Definition _isCloseToList (word : string) (cleanTerms : list (string * W))
    (minEditDiff : float) : result bool :=
  if Nat.eqb (List.length cleanTerms) 0 then Ok false
  else _isCloseToList_for word cleanTerms minEditDiff.

Definition minEditDiff : float := 0.20%float.

(** The loop [for word, weight in termList] of [cleanTermList], from the
    terms accepted so far. *)
Fixpoint cleanTermList_for (termList cleanTerms : list (string * W))
  : result (list (string * W)) :=
  match termList with
  | [] => Ok cleanTerms
  | (word, weight) :: rest =>
      close <- _isCloseToList word cleanTerms minEditDiff ;;
      if negb close then cleanTermList_for rest (cleanTerms ++ [(word, weight)])
      else cleanTermList_for rest cleanTerms
  end.

Definition cleanTermList (termList : list (string * W))
  : result (list (string * W)) :=
  cleanTermList_for termList [].

End Cleaner.

End TermListCleaner.

(** ** Containers *)

(** The order of [str]. *)
Notation "'str_lt'" := String_as_OT.lt.

Definition str_ltb (a b : string) : bool :=
  match String_as_OT.compare a b with Lt => true | _ => false end.

Definition str_leb (a b : string) : bool :=
  match String_as_OT.compare a b with Gt => false | _ => true end.

(** [k in l] and [l.index(k)] on a list of [str]. *)
Definition contains (k : string) (l : list string) : bool :=
  existsb (String.eqb k) l.

Fixpoint list_index (k : string) (l : list string) : nat :=
  match l with
  | [] => 0
  | x :: rest => if String.eqb x k then 0 else S (list_index k rest)
  end.

Section Dict.

Context {V : Type}.

(** A [dict] (and a [defaultdict]) keyed by [str]: the items in the order
    their keys were first inserted. *)
Definition dict : Type := list (string * V).

Fixpoint dict_get (d : dict) (k : string) : option V :=
  match d with
  | [] => None
  | (k', v) :: rest => if String.eqb k' k then Some v else dict_get rest k
  end.

(** [d[k]] on a [defaultdict] whose factory returns [dflt]. *)
Definition dict_get_default (d : dict) (k : string) (dflt : V) : V :=
  match dict_get d k with Some v => v | None => dflt end.

(** [d[k] = v]: a key already there keeps its place. *)
Fixpoint dict_set (d : dict) (k : string) (v : V) : dict :=
  match d with
  | [] => [(k, v)]
  | (k', v') :: rest =>
      if String.eqb k' k then (k, v) :: rest else (k', v') :: dict_set rest k v
  end.

(** A [SortedDict] keyed by [str]: the items in ascending order of key. *)
Definition SortedDict : Type := list (string * V).

Definition keys (d : list (string * V)) : list string := map fst d.

Fixpoint sd_get (d : SortedDict) (k : string) : option V :=
  match d with
  | [] => None
  | (k', v) :: rest => if String.eqb k' k then Some v else sd_get rest k
  end.

(** [d[k] = v] on a [SortedDict]. *)
Fixpoint sd_set (d : SortedDict) (k : string) (v : V) : SortedDict :=
  match d with
  | [] => [(k, v)]
  | (k', v') :: rest =>
      match String_as_OT.compare k k' with
      | Lt => (k, v) :: d
      | Eq => (k, v) :: rest
      | Gt => (k', v') :: sd_set rest k v
      end
  end.

End Dict.

Arguments dict V : clear implicits.
Arguments SortedDict V : clear implicits.

(** ** shico/vocabularymonitor.py *)

Module Vocabularymonitor.

(** A list of [(word, weight)] or of [(word, similarity)] tuples. *)
Definition pairs : Type := list (string * float).

(** The model of one period (a gensim [KeyedVectors], or the
    [CachedW2VModelEvaluator] around it): tracking only calls
    [most_similar(term, topn)], which raises [KeyError] on a word the model
    does not know. *)
Record W2VModel : Type := { most_similar : string -> nat -> result pairs }.

Record VocabularyMonitor : Type := { _models : SortedDict W2VModel }.

(** [seedTerms] is a single string or a list of strings. *)
Inductive seedTermsArg : Type :=
| OneTerm (s : string)
| TermList (l : list string).

Definition cleaner : Type := pairs -> result pairs.

Definition query : Type := (string * pairs)%type.

(** [getAvailableYears] *)
Definition getAvailableYears (self : VocabularyMonitor) : list string :=
  keys (_models self).

(** [_getRelatedTermsThread]: the body of one worker thread, as a function
    of the shared list [queries].  An exception other than [KeyError] ends
    the thread: nothing is appended, and the exception stays in the thread. *)
Definition _getRelatedTermsThread (model : W2VModel) (term : string)
    (maxRelatedTerms : nat) (queries : list query)
    (cleaningFunction : option cleaner) : list query :=
  match (newTerms <- most_similar model term maxRelatedTerms ;;
         match cleaningFunction with
         | Some f => f newTerms
         | None => Ok newTerms
         end) with
  | Ok newTerms => queries ++ [(term, newTerms)]
  | Raise (KeyError _) => queries ++ [(term, [])]
  | Raise _ => queries
  end.

(** [queries.sort()]: tuples are ordered by their first component, the
    term.  Two entries of one term come from the same query and are equal,
    so this order, kept stable, is the sorted list. *)
Fixpoint insert_query (q : query) (l : list query) : list query :=
  match l with
  | [] => [q]
  | q' :: rest =>
      if str_ltb (fst q') (fst q) then q' :: insert_query q rest else q :: l
  end.

Definition sort_queries (l : list query) : list query :=
  fold_right insert_query [] l.

(** [_getRelatedTerms]: the threads are started in the order of the seeds
    and joined before the sort; each appends at most once, and the sort
    makes the order of the appends immaterial. *)
Definition _getRelatedTerms (model : W2VModel) (seedTerms : list string)
    (maxRelatedTerms : nat) (cleaningFunction : option cleaner) : list query :=
  let queries :=
    fold_left (fun queries term =>
                 _getRelatedTermsThread model term maxRelatedTerms queries
                   cleaningFunction)
      seedTerms [] in
  sort_queries queries.

(** [_pruned] *)
Definition _pruned (pairs0 : pairs) (words : list string) : pairs :=
  filter (fun p => contains (fst p) words) pairs0.

(** [Counter(terms).most_common(N)]: the items by descending weight, items
    of equal weight in the order of the dict, cut to [N].  This is the
    order of weights that are numbers; a NaN among them compares false to
    every weight and its place is then the one the comparisons made here
    give it. *)
Fixpoint insert_desc (x : string * float) (l : pairs) : pairs :=
  match l with
  | [] => [x]
  | y :: rest =>
      if (snd x <? snd y)%float then y :: insert_desc x rest else x :: l
  end.

Definition most_common (terms : dict float) (N : nat) : pairs :=
  firstn N (fold_right insert_desc [] terms).

(** [_getCommonTerms] *)
Definition _getCommonTerms (terms : dict float) (N : nat) : pairs :=
  most_common terms N.

(** The two dictionaries [_trackCore] fills: [dRelatedTerms] and [links]. *)
Definition accum : Type := (dict float * dict pairs)%type.

(** One neighbour that passed the threshold: the body of the inner loop
    after its test. *)
Definition contribute (reward : float -> float) (term : string) (st : accum)
    (n : string * float) : accum :=
  let '(dRelatedTerms, links) := st in
  let '(newTerm, tSim) := n in
  (dict_set dRelatedTerms newTerm
     (dict_get_default dRelatedTerms newTerm 0%float + reward tSim)%float,
   dict_set links term (dict_get_default links term [] ++ [(newTerm, tSim)])).

(** The loop [for newTerm, tSim in newTerms], with its [break]. *)
Fixpoint newTerms_for (minSim : float) (reward : float -> float)
    (term : string) (newTerms : pairs) (st : accum) : accum :=
  match newTerms with
  | [] => st
  | (newTerm, tSim) :: rest =>
      if (tSim <? minSim)%float then st
      else newTerms_for minSim reward term rest
             (contribute reward term st (newTerm, tSim))
  end.

(** The body of the loop [for term, newTerms in relatedTermQueries]. *)
Definition query_step (minSim wordBoost : float) (reward : float -> float)
    (st : accum) (q : query) : accum :=
  let '(term, newTerms) := q in
  let '(dRelatedTerms, links) := st in
  let dRelatedTerms := dict_set dRelatedTerms term wordBoost in
  let links :=
    dict_set links term (dict_get_default links term [] ++ [(term, 0%float)]) in
  newTerms_for minSim reward term newTerms (dRelatedTerms, links).

(** [dRelatedTerms] and [links] once every query has been processed. *)
Definition accumulate (minSim wordBoost : float) (reward : float -> float)
    (relatedTermQueries : list query) : accum :=
  fold_left (query_step minSim wordBoost reward) relatedTermQueries ([], []).

(** [_trackCore] *)
Definition _trackCore (model : W2VModel) (seedTerms : list string)
    (maxTerms maxRelatedTerms : nat) (minSim wordBoost : float)
    (reward : float -> float) (cleaningFunction : option cleaner)
  : pairs * dict pairs :=
  let relatedTermQueries :=
    _getRelatedTerms model seedTerms maxRelatedTerms cleaningFunction in
  let '(dRelatedTerms, links) :=
    accumulate minSim wordBoost reward relatedTermQueries in
  let topTerms := _getCommonTerms dRelatedTerms maxTerms in
  let selectedTerms := map fst topTerms in
  let links :=
    map (fun sp : string * pairs =>
           (fst sp, _pruned (snd sp) selectedTerms)) links in
  (topTerms, links).

(** The defaults of [_trackCore]: [wordBoost=1.0], [reward=lambda x: 1.0]. *)
Definition default_wordBoost : float := 1%float.
Definition default_reward : float -> float := fun _ => 1%float.

(** [_trackInlink] *)
Definition _trackInlink (model : W2VModel) (seedTerms : list string)
    (maxTerms maxRelatedTerms : nat) (minSim wordBoost : float)
    (sumSimilarity : bool) (cleaningFunction : option cleaner)
  : pairs * dict pairs * list string :=
  let '(terms, links) :=
    if sumSimilarity then
      _trackCore model seedTerms maxTerms maxRelatedTerms minSim wordBoost
        (fun tSim => 1 - tSim)%float cleaningFunction
    else
      _trackCore model seedTerms maxTerms maxRelatedTerms minSim
        default_wordBoost default_reward cleaningFunction in
  let newSeedSet := map fst terms in
  (terms, links, newSeedSet).

(** The selection of the keys in [trackClouds]: the start key, then the end
    key, each looked up in the keys that are left. *)
Definition selectKeys (sortedKeys : list string)
    (startKey endKey : option string) : result (list string) :=
  sortedKeys <-
    match startKey with
    | Some startKey =>
        if negb (contains startKey sortedKeys) then
          Raise (KeyError ("Key " ++ startKey ++ " not a valid model index"))
        else Ok (skipn (list_index startKey sortedKeys) sortedKeys)
    | None => Ok sortedKeys
    end ;;
  match endKey with
  | Some endKey =>
      if negb (contains endKey sortedKeys) then
        Raise (KeyError ("Key " ++ endKey ++ " not a valid model index"))
      else Ok (firstn (list_index endKey sortedKeys) sortedKeys)
  | None => Ok sortedKeys
  end.

(** [sortedKeys[::-1]] when the search goes backwards. *)
Definition directed (forwards : bool) (sortedKeys : list string) : list string :=
  if negb forwards then rev sortedKeys else sortedKeys.

(** What the loop over the models carries from one key to the next. *)
Record loopState : Type := {
  aSeedSet : list string;
  yTerms : SortedDict pairs;
  yLinks : SortedDict (dict pairs)
}.

(** [self._models[sKey]] *)
Definition model_at (self : VocabularyMonitor) (sKey : string)
  : result W2VModel :=
  match sd_get (_models self) sKey with
  | Some m => Ok m
  | None => Raise (KeyError sKey)
  end.

Section TrackClouds.

Variable self : VocabularyMonitor.
Variables maxTerms maxRelatedTerms : nat.
Variables minSim wordBoost : float.
Variable sumSimilarity : bool.
Variable algorithm : string.
Variable cleaningFunction : option cleaner.

(** The body of [for sKey in sortedKeys]. *)
Definition models_body (st : loopState) (sKey : string) : result loopState :=
  r <- (if String.eqb algorithm "adaptive" then
          model <- model_at self sKey ;;
          Ok (_trackInlink model (aSeedSet st) maxTerms maxRelatedTerms minSim
                wordBoost sumSimilarity cleaningFunction)
        else if String.eqb algorithm "non-adaptive" then
          model <- model_at self sKey ;;
          let '(terms, links) :=
            _trackCore model (aSeedSet st) maxTerms maxRelatedTerms minSim
              default_wordBoost default_reward cleaningFunction in
          Ok (terms, links, aSeedSet st)
        else Raise (Exception ("Algorithm not supported: " ++ algorithm))) ;;
  let '(terms, links, newSeedSet) := r in
  Ok {| aSeedSet := newSeedSet;
        yTerms := sd_set (yTerms st) sKey terms;
        yLinks := sd_set (yLinks st) sKey links |}.

Fixpoint models_for (sortedKeys : list string) (st : loopState)
  : result loopState :=
  match sortedKeys with
  | [] => Ok st
  | sKey :: rest => st' <- models_body st sKey ;; models_for rest st'
  end.

End TrackClouds.

(** [VocabularyMonitor.trackClouds] *)
Definition trackClouds (self : VocabularyMonitor) (seedTerms : seedTermsArg)
    (maxTerms maxRelatedTerms : nat) (startKey endKey : option string)
    (minSim wordBoost : float) (forwards sumSimilarity : bool)
    (algorithm : string) (cleaningFunction : option cleaner)
  : result (SortedDict pairs * SortedDict (dict pairs)) :=
  let seedTerms :=
    match seedTerms with OneTerm s => [s] | TermList l => l end in
  let sortedKeys := keys (_models self) in
  sortedKeys <- selectKeys sortedKeys startKey endKey ;;
  let sortedKeys := directed forwards sortedKeys in
  st <- models_for self maxTerms maxRelatedTerms minSim wordBoost
          sumSimilarity algorithm cleaningFunction sortedKeys
          {| aSeedSet := seedTerms; yTerms := []; yLinks := [] |} ;;
  Ok (yTerms st, yLinks st).

End Vocabularymonitor.

(** ** shico/format.py: the network of a year *)

Module FormatNetwork.

Import Vocabularymonitor.

(** [d[k]] on a plain [dict]. *)
Definition getitem {V : Type} (d : dict V) (k : string) : result V :=
  match dict_get d k with
  | Some v => Ok v
  | None => Raise (KeyError k)
  end.

(** [k in d] *)
Definition dict_mem {V : Type} (d : dict V) (k : string) : bool :=
  match dict_get d k with Some _ => true | None => false end.

(** [{k: f(v) for k, v in items}] *)
Definition dict_of {U V : Type} (f : U -> V) (items : list (string * U))
  : dict V :=
  fold_left (fun d kv => dict_set d (fst kv) (f (snd kv))) items [].

(** [_tuplesAsDict] *)
Definition _tuplesAsDict {V : Type} (pairList : list (string * V)) : dict V :=
  dict_of (fun weight => weight) pairList.

(** [yearTuplesAsDict]; [results.items()] is the list of the items. *)
Definition yearTuplesAsDict {V : Type} (results : dict (list (string * V)))
  : dict (dict V) :=
  dict_of _tuplesAsDict results.

(** [Counter(words)]: the words in the order of their first occurrence,
    each with the number of its occurrences. *)
Definition Counter (words : list string) : dict nat :=
  fold_left (fun c w => dict_set c w (S (dict_get_default c w 0))) words [].

(** A node and a link of the graph the front end draws. *)
Record node : Type := { name : string; count : nat; type : string }.

Record link : Type := { source : nat; target : nat; value : float }.

Record network : Type := { nodes : list node; links : list link }.

(** [_buildNode]; [counts] is a [Counter], where a missing word counts 0. *)
Definition _buildNode (word : string) (counts : dict nat)
    (seedSet finalWords : list string) : node :=
  let nodeType :=
    if contains word seedSet then "seed"
    else if contains word finalWords then "word"
    else "drop" in
  {| name := word; count := dict_get_default counts word 0;
     type := nodeType |}.

(** [_buildLink]; [1 / (distance + 1)] raises when [distance + 1] is zero. *)
Definition _buildLink (seed word : string) (distance : float)
    (nodeIdx : dict nat) : result link :=
  seedIdx <- getitem nodeIdx seed ;;
  wordIdx <- getitem nodeIdx word ;;
  v <- (if (distance + 1 =? 0)%float then Raise ZeroDivisionError
        else Ok (1 / (distance + 1))%float) ;;
  Ok {| source := seedIdx; target := wordIdx; value := v |}.

(** A computation that prints: the lines printed, then its outcome. *)
Definition printing (A : Type) : Type := (list string * result A)%type.

(** The loop [for word, distance in results] of [_buildLinks]. *)
Fixpoint _buildLinks_results (seed : string) (results : pairs)
    (nodeIdx : dict nat) (linkList : list link) (out : list string)
  : printing (list link) :=
  match results with
  | [] => (out, Ok linkList)
  | (word, distance) :: rest =>
      if dict_mem nodeIdx seed && dict_mem nodeIdx word then
        match _buildLink seed word distance nodeIdx with
        | Ok l => _buildLinks_results seed rest nodeIdx (linkList ++ [l]) out
        | Raise e => (out, Raise e)
        end
      else _buildLinks_results seed rest nodeIdx linkList
             (out ++ ["Seed or word not in index!"])
  end.

(** The loop [for seed, results in links.items()]. *)
Fixpoint _buildLinks_seeds (links0 : dict pairs) (nodeIdx : dict nat)
    (linkList : list link) (out : list string) : printing (list link) :=
  match links0 with
  | [] => (out, Ok linkList)
  | (seed, results) :: rest =>
      match _buildLinks_results seed results nodeIdx linkList out with
      | (out', Ok linkList') => _buildLinks_seeds rest nodeIdx linkList' out'
      | (out', Raise e) => (out', Raise e)
      end
  end.

(** The loop [for links in list(yLinks.values())]. *)
Fixpoint _buildLinks_years (values : list (dict pairs)) (nodeIdx : dict nat)
    (linkList : list link) (out : list string) : printing (list link) :=
  match values with
  | [] => (out, Ok linkList)
  | links0 :: rest =>
      match _buildLinks_seeds links0 nodeIdx linkList out with
      | (out', Ok linkList') => _buildLinks_years rest nodeIdx linkList' out'
      | (out', Raise e) => (out', Raise e)
      end
  end.

(** [_buildLinks] *)
Definition _buildLinks (yLinks : dict (dict pairs)) (nodeIdx : dict nat)
  : printing (list link) :=
  _buildLinks_years (map snd yLinks) nodeIdx [] [].

Section SetOrder.

(** The order in which a [set] built from the given elements is iterated.
    Python does not fix it; it lists every element once. *)
Variable set_iter : list string -> list string.

(** The loop [for idx, w in enumerate(uniqueWords)] of [_buildNodes]. *)
Fixpoint _buildNodes_for (idx : nat) (uniqueWords : list string)
    (wordCounts : dict nat) (seedSet finalWords : list string)
    (nodes0 : list node) (nodeIdx : dict nat) : list node * dict nat :=
  match uniqueWords with
  | [] => (nodes0, nodeIdx)
  | w :: rest =>
      _buildNodes_for (S idx) rest wordCounts seedSet finalWords
        (nodes0 ++ [_buildNode w wordCounts seedSet finalWords])
        (dict_set nodeIdx w idx)
  end.

(** [_buildNodes] *)
Definition _buildNodes (wordCounts : dict nat)
    (seedSet finalWords : list string) : list node * dict nat :=
  let uniqueWords := set_iter (keys wordCounts ++ seedSet) in
  _buildNodes_for 0 uniqueWords wordCounts seedSet finalWords [] [].

(** [_metaToNetwork] *)
Definition _metaToNetwork (results : dict pairs) (seeds : dict (list string))
    (finalVocab : pairs) (yLinks : dict (dict pairs)) : printing network :=
  let wordCounts := Counter (flat_map (fun res => map fst res)
                               (map snd results)) in
  let seedSet := flat_map (fun seed => seed) (map snd seeds) in
  let finalWords := map fst finalVocab in
  let '(nodes0, nodeIdx) := _buildNodes wordCounts seedSet finalWords in
  match _buildLinks yLinks nodeIdx with
  | (out, Ok links0) => (out, Ok {| nodes := nodes0; links := links0 |})
  | (out, Raise e) => (out, Raise e)
  end.

(** [{y: d[y] for y in years}] *)
Fixpoint select_years {V : Type} (d : dict V) (years : list string)
    (acc : dict V) : result (dict V) :=
  match years with
  | [] => Ok acc
  | y :: rest => v <- getitem d y ;; select_years d rest (dict_set acc y v)
  end.

(** The loop [for year_mu, years in aggPeriods.items()] of
    [yearlyNetwork]. *)
Fixpoint yearlyNetwork_for (items : list (string * list string))
    (aggResults : dict pairs) (results : dict pairs)
    (links0 : dict (dict pairs)) (seeds : dict (list string))
    (networks : dict network) (out : list string)
  : printing (dict network) :=
  match items with
  | [] => (out, Ok networks)
  | (year_mu, years) :: rest =>
      match (yResults <- select_years results years [] ;;
             yLinks <- select_years links0 years [] ;;
             ySeeds <- select_years seeds years [] ;;
             finalVocab <- getitem aggResults year_mu ;;
             Ok (yResults, ySeeds, finalVocab, yLinks)) with
      | Raise e => (out, Raise e)
      | Ok (yResults, ySeeds, finalVocab, yLinks) =>
          match _metaToNetwork yResults ySeeds finalVocab yLinks with
          | (out', Ok net) =>
              yearlyNetwork_for rest aggResults results links0 seeds
                (dict_set networks year_mu net) (out ++ out')
          | (out', Raise e) => (out ++ out', Raise e)
          end
      end
  end.

(** [yearlyNetwork]; the years and the aggregated years are keys as
    [trackClouds] returns them, strings. *)
Definition yearlyNetwork (aggPeriods : dict (list string))
    (aggResults : dict pairs) (results : dict pairs)
    (links0 : dict (dict pairs)) : printing (dict network) :=
  let seeds := dict_of (fun seedResp : dict pairs => keys seedResp) links0 in
  yearlyNetwork_for aggPeriods aggResults results links0 seeds [] [].

End SetOrder.




End FormatNetwork.

(** ** os.path, as [_loadAllModels] uses it (POSIX paths) *)

Module PosixPath.

(** [s.rfind(c)] from position [i] on: the last position of [c], [last]
    when there is none. *)
Fixpoint rfind_from (c : ascii) (s : string) (i last : Z) : Z :=
  match s with
  | EmptyString => last
  | String a rest =>
      rfind_from c rest (i + 1) (if Ascii.eqb a c then i else last)
  end.

(** [s.rfind(c)], -1 when [c] does not occur. *)
Definition rfind (c : ascii) (s : string) : Z := rfind_from c s 0 (-1).

(** [p[i:]] and [p[:i]] for [0 <= i]. *)
Definition slice_from (p : string) (i : nat) : string :=
  substring i (String.length p - i) p.

Definition slice_to (p : string) (i : nat) : string := substring 0 i p.

(** [basename]: what follows the last separator. *)
Definition basename (p : string) : string :=
  let i := (rfind "/" p + 1)%Z in
  slice_from p (Z.to_nat i).

(** The loop [while filenameIndex < dotIndex] of [splitext], which skips
    the leading dots of the name: whether it meets another character. *)
Fixpoint splitext_while (p : string) (filenameIndex steps : nat) : bool :=
  match steps with
  | O => false
  | S steps' =>
      match String.get filenameIndex p with
      | Some c =>
          if Ascii.eqb c "." then splitext_while p (S filenameIndex) steps'
          else true
      | None => true
      end
  end.

(** [splitext]: the path is cut at its last dot when that dot comes after
    the last separator and after a character of the name that is no dot. *)
Definition splitext (p : string) : string * string :=
  let sepIndex := rfind "/" p in
  let dotIndex := rfind "." p in
  if (sepIndex <? dotIndex)%Z
     && splitext_while p (Z.to_nat (sepIndex + 1))
          (Z.to_nat (dotIndex - (sepIndex + 1)))
  then (slice_to p (Z.to_nat dotIndex), slice_from p (Z.to_nat dotIndex))
  else (p, EmptyString).

End PosixPath.

(** ** shico/vocabularymonitor.py: loading the models *)

Module Loader.

Import Vocabularymonitor.

(** How the construction of a monitor ends: with the value, with the
    failed assertion, or with what a loader raised. *)
Inductive loaded (A : Type) : Type :=
| Loaded (a : A)
| AssertionError (msg : string)
| Raised (e : exn).

Arguments Loaded {A} a.
Arguments AssertionError {A} msg.
Arguments Raised {A} e.

(** [os.path.splitext(os.path.basename(sModelFile))[0]] *)
Definition sModelName_of (sModelFile : string) : string :=
  fst (PosixPath.splitext (PosixPath.basename sModelFile)).

Section Load.

(** [glob.glob], the two loaders of [KeyedVectors] and the constructor of
    the caching evaluator, seen as a model. *)
Variable glob : string -> list string.
Variable load_word2vec_format : string -> bool -> result W2VModel.
Variable load : string -> option string -> result W2VModel.
Variable CachedW2VModelEvaluator : W2VModel -> result W2VModel.

(** The loop [for sModelFile in glob.glob(globPattern)] of
    [_loadAllModels]: the lines printed and the models loaded. *)
Fixpoint _loadAllModels_for (files : list string)
    (binary useCache useMmap w2vFormat : bool)
    (models : SortedDict W2VModel) (out : list string)
  : list string * loaded (SortedDict W2VModel) :=
  match files with
  | [] => (out, Loaded models)
  | sModelFile :: rest =>
      let sModelName := sModelName_of sModelFile in
      if w2vFormat && useMmap then
        (out, AssertionError "Mmap cannot be used with w2v format")
      else
        let loader :=
          if w2vFormat then fun name => load_word2vec_format name binary
          else
            let mmap := if useMmap then Some "r" else None in
            fun name => load name mmap in
        let out1 :=
          out ++ [("[" ++ sModelName ++ "]: " ++ sModelFile)%string] in
        match loader sModelFile with
        | Raise e => (out1, Raised e)
        | Ok m =>
            let models1 := sd_set models sModelName m in
            if useCache then
              let out2 :=
                out1 ++ [("...caching model  " ++ sModelName)%string] in
              match sd_get models1 sModelName with
              | None => (out2, Raised (KeyError sModelName))
              | Some m1 =>
                  match CachedW2VModelEvaluator m1 with
                  | Raise e => (out2, Raised e)
                  | Ok cached =>
                      _loadAllModels_for rest binary useCache useMmap
                        w2vFormat (sd_set models1 sModelName cached) out2
                  end
              end
            else
              _loadAllModels_for rest binary useCache useMmap w2vFormat
                models1 out1
        end
  end.

(** [_loadAllModels], on the models of [self]. *)
Definition _loadAllModels (models : SortedDict W2VModel)
    (globPattern : string) (binary useCache useMmap w2vFormat : bool)
  : list string * loaded (SortedDict W2VModel) :=
  _loadAllModels_for (glob globPattern) binary useCache useMmap w2vFormat
    models [].

(** [VocabularyMonitor.__init__]; the models are loaded with [binary=True]
    whatever [binary] is. *)
Definition __init__ (globPattern : string)
    (binary useCache useMmap w2vFormat : bool)
  : list string * loaded VocabularyMonitor :=
  match _loadAllModels [] globPattern true useCache useMmap w2vFormat with
  | (out, Loaded models) => (out, Loaded {| _models := models |})
  | (out, AssertionError msg) => (out, AssertionError msg)
  | (out, Raised e) => (out, Raised e)
  end.

End Load.

End Loader.

(** ** shico/vocabularymonitor.py: the caching evaluator *)

Module LruCache.

Import Vocabularymonitor.

(** An evaluator: the model it wraps, and the identity of the object, by
    which the cache tells the evaluators apart. *)
Record CachedW2VModelEvaluator : Type :=
  { ident : nat; _model : W2VModel }.

(** What [lru_cache] keys a call of [most_similar] by: the evaluator, the
    term and [topn]. *)
Definition key : Type := (nat * string * nat)%type.

Definition key_eqb (a b : key) : bool :=
  Nat.eqb (fst (fst a)) (fst (fst b))
  && String.eqb (snd (fst a)) (snd (fst b))
  && Nat.eqb (snd a) (snd b).

(** The cache of [most_similar], one for all the evaluators: the answers
    kept, the most recently used first. *)
Definition cache : Type := list (key * pairs).

Definition maxsize : nat := 1000.

Fixpoint lookup (c : cache) (k : key) : option pairs :=
  match c with
  | [] => None
  | (k', v) :: rest => if key_eqb k' k then Some v else lookup rest k
  end.

Fixpoint remove (c : cache) (k : key) : cache :=
  match c with
  | [] => []
  | (k', v) :: rest =>
      if key_eqb k' k then remove rest k else (k', v) :: remove rest k
  end.

(** [CachedW2VModelEvaluator.most_similar] under [lru_cache(maxsize=1000)]:
    an answer kept is returned and becomes the most recent; another is asked
    of the model and kept, the least recently used one making room for it in
    a full cache; an exception is kept nowhere. *)
Definition most_similar_cached (self : CachedW2VModelEvaluator)
    (term : string) (topn : nat) (c : cache) : cache * result pairs :=
  let k := (ident self, term, topn) in
  match lookup c k with
  | Some v => ((k, v) :: remove c k, Ok v)
  | None =>
      match most_similar (_model self) term topn with
      | Ok v => (firstn maxsize ((k, v) :: c), Ok v)
      | Raise e => (c, Raise e)
      end
  end.

(** A sequence of calls, each on the cache the calls before it left. *)
Fixpoint calls (cs : list (CachedW2VModelEvaluator * string * nat))
    (c : cache) : cache * list (result pairs) :=
  match cs with
  | [] => (c, [])
  | (self, term, topn) :: rest =>
      let (c1, r) := most_similar_cached self term topn c in
      let (c2, rs) := calls rest c1 in
      (c2, r :: rs)
  end.

End LruCache.

(** ** Vocabulary of the statements *)

Section CleanerVocabulary.

Import TermListCleaner.

Context {W : Type}.

(** The edit distance of two words over the length of the shorter one. *)
Definition normalizedDistance (a b : string) : float :=
  (Py.float_of_nat (editdistance a b)
   / Py.float_of_nat (Nat.min (String.length a) (String.length b)))%float.

(** [word] is at least [minEditDiff] away from every accepted term.  The
    ratio of two sizes is a number, so at least is the same as not below. *)
Definition far_enough (word : string) (accepted : list (string * W)) : Prop :=
  Forall (fun kw => (normalizedDistance word (fst kw) <? minEditDiff)%float
                    = false) accepted.

Definition words_nonempty (l : list (string * W)) : Prop :=
  Forall (fun p => fst p <> "") l.

End CleanerVocabulary.

Section MonitorVocabulary.

Import Vocabularymonitor.

(** The two algorithms of [trackClouds]. *)
Definition supported (algorithm : string) : Prop :=
  algorithm = "adaptive" \/ algorithm = "non-adaptive".

(** [k] lies in the half-open interval from [startKey] to [endKey]; a bound
    that is omitted does not restrict. *)
Definition in_range (startKey endKey : option string) (k : string) : bool :=
  match startKey with Some s => str_leb s k | None => true end
  && match endKey with Some e => str_ltb k e | None => true end.

(** A supplied start key is not among the keys, or a supplied end key is not
    among them or lies before the supplied start key. *)
Definition invalid_range (ks : list string) (startKey endKey : option string)
  : bool :=
  match startKey with Some s => negb (contains s ks) | None => false end
  || match endKey with
     | Some e =>
         negb (contains e ks)
         || match startKey with Some s => str_ltb e s | None => false end
     | None => false
     end.

(** The keys in the order in which [trackClouds] processes them. *)
Definition processingOrder (self : VocabularyMonitor)
    (startKey endKey : option string) (forwards : bool)
  : result (list string) :=
  sortedKeys <- selectKeys (getAvailableYears self) startKey endKey ;;
  Ok (directed forwards sortedKeys).

(** The order of [sort] on the queries: by term. *)
Definition query_le (a b : query) : Prop := str_ltb (fst b) (fst a) = false.

(** The longest prefix of a neighbour list in which no similarity is below
    [minSim]. *)
Fixpoint survivors (minSim : float) (newTerms : pairs) : pairs :=
  match newTerms with
  | [] => []
  | n :: rest =>
      if (snd n <? minSim)%float then [] else n :: survivors minSim rest
  end.

(** The weight of a seed [s] as the specification words it: [wordBoost]
    plus the reward of every occurrence of [s] among the surviving
    neighbours of another seed. *)
Definition specified_weight (minSim wordBoost : float)
    (reward : float -> float) (queries : list query) (s : string) : float :=
  fold_left
    (fun acc q =>
       if String.eqb (fst q) s then acc
       else fold_left
              (fun acc n =>
                 if String.eqb (fst n) s then (acc + reward (snd n))%float
                 else acc)
              (survivors minSim (snd q)) acc)
    queries wordBoost.

(** What [trackClouds] computes for one period from the seeds it holds:
    the terms, the links and the seeds for the next period. *)
Definition expansion (maxTerms maxRelatedTerms : nat)
    (minSim wordBoost : float) (sumSimilarity : bool) (algorithm : string)
    (cleaningFunction : option cleaner) (model : W2VModel)
    (seeds : list string) : pairs * dict pairs * list string :=
  if String.eqb algorithm "adaptive" then
    _trackInlink model seeds maxTerms maxRelatedTerms minSim wordBoost
      sumSimilarity cleaningFunction
  else
    let '(terms, links) :=
      _trackCore model seeds maxTerms maxRelatedTerms minSim
        default_wordBoost default_reward cleaningFunction in
    (terms, links, seeds).

End MonitorVocabulary.

(** ** Examples *)

Module Examples.

Import Vocabularymonitor.

(** A model that knows ["a"], whose neighbour is ["b"], and ["b"], whose
    neighbour is ["c"]. *)
Definition model_ab : W2VModel :=
  {| most_similar := fun term _ =>
       if String.eqb term "a" then Ok [("b", 0.9%float)]
       else if String.eqb term "b" then Ok [("c", 0.8%float)]
       else Raise (KeyError term) |}.

(** The same with ["a"] and ["b"] exchanged. *)
Definition model_ba : W2VModel :=
  {| most_similar := fun term _ =>
       if String.eqb term "b" then Ok [("a", 0.9%float)]
       else if String.eqb term "a" then Ok [("c", 0.8%float)]
       else Raise (KeyError term) |}.

(** A monitor of two periods. *)
Definition monitor : VocabularyMonitor :=
  {| _models := [("1950_1959", model_ab); ("1951_1960", model_ba)] |}.

End Examples.

(** ** Vocabulary of the further properties *)

(** [l1] is [l2] with some of its elements left out. *)
Inductive subseq {A : Type} : list A -> list A -> Prop :=
| subseq_nil : subseq [] []
| subseq_skip (x : A) (l1 l2 : list A) : subseq l1 l2 -> subseq l1 (x :: l2)
| subseq_keep (x : A) (l1 l2 : list A) :
    subseq l1 l2 -> subseq (x :: l1) (x :: l2).

(** Every word is at least [minEditDiff] away from each word before it. *)
Inductive spellings_apart {W : Type} : list (string * W) -> Prop :=
| apart_nil : spellings_apart []
| apart_snoc (l : list (string * W)) (c : string * W) :
    spellings_apart l -> far_enough (fst c) l -> spellings_apart (l ++ [c]).

(** An iteration order of sets: every element of the set, once. *)
Definition set_order_ok (set_iter : list string -> list string) : Prop :=
  forall l, NoDup (set_iter l) /\ forall x, In x (set_iter l) <-> In x l.

(** The links of the years as triples: seed, word and distance, in the
    order in which [_buildLinks] meets them. *)
Definition link_triples (yLinks : dict (dict Vocabularymonitor.pairs))
  : list (string * string * float) :=
  flat_map
    (fun links0 : dict Vocabularymonitor.pairs =>
       flat_map (fun sp : string * Vocabularymonitor.pairs =>
                   map (fun p : string * float => (fst sp, fst p, snd p))
                     (snd sp))
         links0)
    (map snd yLinks).

(** The three loops of [_buildLinks] as one loop over the triples. *)
Fixpoint links_of_triples (triples : list (string * string * float))
    (nodeIdx : dict nat) (linkList : list FormatNetwork.link)
    (out : list string) : FormatNetwork.printing (list FormatNetwork.link) :=
  match triples with
  | [] => (out, Ok linkList)
  | (seed, word, distance) :: rest =>
      if FormatNetwork.dict_mem nodeIdx seed
         && FormatNetwork.dict_mem nodeIdx word then
        match FormatNetwork._buildLink seed word distance nodeIdx with
        | Ok l => links_of_triples rest nodeIdx (linkList ++ [l]) out
        | Raise e => (out, Raise e)
        end
      else links_of_triples rest nodeIdx linkList
             (out ++ ["Seed or word not in index!"])
  end.

(** A year of the aggregated periods that the results or the links lack,
    or an aggregated year that the aggregated results lack. *)
Definition missing_key (aggPeriods : dict (list string))
    (aggResults results : dict Vocabularymonitor.pairs)
    (links0 : dict (dict Vocabularymonitor.pairs)) (k : string) : Prop :=
  (exists year_mu years,
      In (year_mu, years) aggPeriods /\ In k years /\
      (dict_get results k = None \/ dict_get links0 k = None))
  \/ (In k (keys aggPeriods) /\ dict_get aggResults k = None).

(** The links of every year lead to words of the results of that year. *)
Definition links_within (results : dict Vocabularymonitor.pairs)
    (links0 : dict (dict Vocabularymonitor.pairs)) : Prop :=
  NoDup (keys links0) /\
  forall year lk seed ps w d,
    dict_get links0 year = Some lk -> In (seed, ps) lk -> In (w, d) ps ->
    exists terms, dict_get results year = Some terms /\ In w (map fst terms).

(** Whether a character occurs in a string. *)
Fixpoint occurs (c : ascii) (s : string) : bool :=
  match s with
  | EmptyString => false
  | String a rest => Ascii.eqb a c || occurs c rest
  end.

(** A name that is not made of dots only. *)
Fixpoint some_letter (s : string) : bool :=
  match s with
  | EmptyString => false
  | String a rest => negb (Ascii.eqb a ".") || some_letter rest
  end.

(** The cache holds only answers of the models of the given evaluators. *)
Definition cache_ok (evaluators : list LruCache.CachedW2VModelEvaluator)
    (c : LruCache.cache) : Prop :=
  forall k v, In (k, v) c ->
    exists self, In self evaluators /\
      LruCache.ident self = fst (fst k) /\
      Vocabularymonitor.most_similar (LruCache._model self)
        (snd (fst k)) (snd k) = Ok v.

(** Evaluators are told apart by their identity. *)
Definition distinct_objects
    (evaluators : list LruCache.CachedW2VModelEvaluator) : Prop :=
  forall a b, In a evaluators -> In b evaluators ->
    LruCache.ident a = LruCache.ident b -> a = b.

(** The lines [_loadAllModels] prints for a file it loads. *)
Definition loading_lines (useCache : bool) (sModelFile : string)
  : list string :=
  let sModelName := Loader.sModelName_of sModelFile in
  ("[" ++ sModelName ++ "]: " ++ sModelFile)%string
  :: (if useCache then [("...caching model  " ++ sModelName)%string]
      else []).

(** What the loader [_loadAllModels] chooses gives for a file. *)
Definition loaded_from
    (load_word2vec_format : string -> bool -> result Vocabularymonitor.W2VModel)
    (load : string -> option string -> result Vocabularymonitor.W2VModel)
    (binary useMmap w2vFormat : bool) (sModelFile : string)
  : result Vocabularymonitor.W2VModel :=
  if w2vFormat then load_word2vec_format sModelFile binary
  else load sModelFile (if useMmap then Some "r" else None).

(** The model a monitor keeps: the evaluator of it when the cache is used. *)
Definition kept_as
    (CachedW2VModelEvaluator :
       Vocabularymonitor.W2VModel -> result Vocabularymonitor.W2VModel)
    (useCache : bool) (m : Vocabularymonitor.W2VModel)
  : result Vocabularymonitor.W2VModel :=
  if useCache then CachedW2VModelEvaluator m else Ok m.


Section FurtherVocabulary.

Import Vocabularymonitor.

(** Both dictionaries of [_trackCore] keep their keys distinct. *)
Definition accum_NoDup (st : accum) : Prop :=
  NoDup (keys (fst st)) /\ NoDup (keys (snd st)).

(** An item is not directly followed by a heavier one. *)
Definition not_heavier (a b : string * float) : Prop :=
  (snd a <? snd b)%float = false.

(** Every link is the link of a seed to itself or to one of the surviving
    neighbours of one of its queries. *)
Definition links_from (minSim : float) (queries : list query)
    (links : dict pairs) : Prop :=
  forall s ps, dict_get links s = Some ps ->
  forall p, In p ps ->
    p = (s, 0%float)
    \/ exists newTerms, In (s, newTerms) queries
                        /\ In p (survivors minSim newTerms).

End FurtherVocabulary.

(** * Properties *)

(** ** The middle of a year range *)

Section RangeMiddle.

Import Format.

Local Open Scope Z_scope.

(** [round_div n 2] is a nearest integer to [n / 2]. *)
Lemma round_div_2_near (n : Z) : -1 <= 2 * Py.round_div n 2 - n <= 1.
Proof.
  unfold Py.round_div.
  pose proof (Z.div_mod n 2 ltac:(lia)) as E.
  pose proof (Z.mod_pos_bound n 2 ltac:(lia)) as B.
  destruct (Z.compare_spec (2 * (n mod 2)) 2); [|lia|lia].
  destruct (Z.even (n / 2)); lia.
Qed.

(** On a tie [round_div n 2] is the even neighbour. *)
Lemma round_div_2_tie (n : Z) :
  Z.odd n = true -> Z.even (Py.round_div n 2) = true.
Proof.
  intros Hodd. unfold Py.round_div.
  pose proof (Z.div_mod n 2 ltac:(lia)) as E.
  pose proof (Z.mod_pos_bound n 2 ltac:(lia)) as B.
  assert (Hr : n mod 2 = 1).
  { rewrite Zmod_odd, Hodd. reflexivity. }
  rewrite Hr. change (2 * 1 ?= 2) with Eq. cbv iota.
  destruct (Z.even (n / 2)) eqn:Hq; [exact Hq|].
  rewrite Z.even_add, Hq. reflexivity.
Qed.

(** An exact half is kept. *)
Lemma round_div_2_even (n : Z) :
  Z.even n = true -> 2 * Py.round_div n 2 = n.
Proof.
  intros Hev. unfold Py.round_div.
  pose proof (Z.div_mod n 2 ltac:(lia)) as E.
  assert (Hr : n mod 2 = 0).
  { rewrite Zmod_even, Hev. reflexivity. }
  rewrite Hr in E |- *. change (2 * 0 ?= 2) with Lt. cbv iota. lia.
Qed.

(** A sum that fits a significand is halved exactly. *)
Lemma truediv_2_small (n : Z) : Z.abs n < 2 ^ 53 -> Py.truediv_2 n = Ok n.
Proof.
  intros H. unfold Py.truediv_2. cbv zeta.
  assert (Hs : Z.log2 (Z.abs n) + 1 - 53 <= 0).
  { destruct (Z.eq_dec (Z.abs n) 0) as [E|NE].
    - rewrite E. cbn. lia.
    - assert (Z.log2 (Z.abs n) < 53); [|lia].
      apply Z.log2_lt_pow2; lia. }
  apply Z.leb_le in Hs. rewrite Hs. reflexivity.
Qed.

(** C2, as the code has it.  The middle of ['1950_1959'] is 1954: the
    average 1954.5 is a tie, and [round] sends a tie to the even integer.
    The middle of ['1950_1959'] and ['1953_1962'] is 1956.  In general, for
    one key ([last] is [None], and the key is both the first and the last)
    or two: when the text of the first key before its first ['_'] reads as
    the year [y0] and the text of the last key after its first ['_'] reads
    as the year [yn], and their sum fits the significand of a float, the
    result is an integer nearest to [(y0 + yn) / 2], the even one on a tie
    and the average itself when it is an integer. *)
Theorem getRangeMiddle_rounds_half_to_even :
  getRangeMiddle "1950_1959" None = Ok 1954 /\
  getRangeMiddle "1950_1959" (Some "1953_1962") = Ok 1956 /\
  forall (first : string) (last : option string) (y0 yn : Z),
    year_at first 0 = Ok y0 ->
    year_at (match last with None => first | Some l => l end) 1 = Ok yn ->
    Z.abs (yn + y0) < 2 ^ 53 ->
    exists m : Z,
      getRangeMiddle first last = Ok m /\
      -1 <= 2 * m - (yn + y0) <= 1 /\
      (Z.odd (yn + y0) = true -> Z.even m = true) /\
      (Z.even (yn + y0) = true -> 2 * m = yn + y0).
Proof.
  split; [reflexivity|]. split; [reflexivity|].
  intros first last y0 yn H0 Hn Hfit.
  exists (Py.round_div (yn + y0) 2).
  unfold getRangeMiddle. cbv zeta. rewrite H0, Hn. cbn [bind].
  rewrite (truediv_2_small _ Hfit). cbn [bind]. unfold Py.round.
  split; [reflexivity|].
  split; [apply round_div_2_near|].
  split; [apply round_div_2_tie|apply round_div_2_even].
Qed.

Lemma getRangeMiddle_rounds_half_to_even_witness :
  (exists m : Z,
     getRangeMiddle "1951_1960" (Some "1954_1964") = Ok m /\
     -1 <= 2 * m - (1964 + 1951) <= 1 /\
     (Z.odd (1964 + 1951) = true -> Z.even m = true) /\
     (Z.even (1964 + 1951) = true -> 2 * m = 1964 + 1951)) /\
  (exists m : Z,
     getRangeMiddle "1800_1810" None = Ok m /\
     -1 <= 2 * m - (1810 + 1800) <= 1 /\
     (Z.odd (1810 + 1800) = true -> Z.even m = true) /\
     (Z.even (1810 + 1800) = true -> 2 * m = 1810 + 1800)).
Proof.
  split.
  - apply (proj2 (proj2 getRangeMiddle_rounds_half_to_even)
             "1951_1960" (Some "1954_1964") 1951 1964).
    + reflexivity.
    + reflexivity.
    + vm_compute. reflexivity.
  - apply (proj2 (proj2 getRangeMiddle_rounds_half_to_even)
             "1800_1810" None 1800 1810).
    + reflexivity.
    + reflexivity.
    + vm_compute. reflexivity.
Defined.

(** C2, as the claim states it, fails twice.  The middle of ['1950_1959']
    is not 1955.  And the years averaged are the start of the first key and
    the end of the last, not the earliest start and the latest end: of
    ['1950_1970'] and ['1955_1960'] the earliest start is 1950 and the
    latest end 1970, whose average is 1960, and the middle returned is
    1955. *)
Lemma getRangeMiddle_not_as_stated :
  getRangeMiddle "1950_1959" None <> Ok 1955 /\
  year_at "1950_1970" 0 = Ok 1950 /\ year_at "1950_1970" 1 = Ok 1970 /\
  year_at "1955_1960" 0 = Ok 1955 /\ year_at "1955_1960" 1 = Ok 1960 /\
  getRangeMiddle "1950_1970" (Some "1955_1960") = Ok 1955 /\
  1955 <> (Z.min 1950 1955 + Z.max 1970 1960) / 2.
Proof.
  split; [vm_compute; discriminate|].
  repeat (split; [vm_compute; reflexivity|]).
  vm_compute. discriminate.
Qed.

End RangeMiddle.

(** ** The filter of near duplicates *)

Section CleanerFacts.

Import TermListCleaner.

Context {W : Type}.

Lemma length_nonempty (s : string) : s <> "" -> String.length s <> 0.
Proof. destruct s; [congruence|discriminate]. Qed.

Lemma truediv_nonempty (x : float) (a b : string) :
  a <> "" -> b <> "" ->
  Py.truediv x (Nat.min (String.length a) (String.length b)) =
  Ok (x / Py.float_of_nat (Nat.min (String.length a) (String.length b)))%float.
Proof.
  intros Ha Hb. unfold Py.truediv.
  apply length_nonempty in Ha. apply length_nonempty in Hb.
  destruct (Nat.eqb_spec (Nat.min (String.length a) (String.length b)) 0)
    as [E|_]; [lia|reflexivity].
Qed.

Lemma _isCloseToList_for_spec (word : string) (acc : list (string * W)) :
  word <> "" -> words_nonempty acc ->
  exists b : bool,
    _isCloseToList_for word acc minEditDiff = Ok b /\
    (b = false <-> far_enough word acc).
Proof.
  intros Hw Hacc. induction Hacc as [|[known w] acc Hk _ IH].
  - exists false. split; [reflexivity|]. split; [constructor|reflexivity].
  - cbn [_isCloseToList_for fst] in *.
    rewrite (truediv_nonempty _ word known Hw Hk). cbn [bind].
    fold (normalizedDistance word known).
    destruct (normalizedDistance word known <? minEditDiff)%float eqn:E.
    + exists true. split; [reflexivity|]. split; [discriminate|].
      intros Hfar. inversion Hfar as [|? ? Hhd _]; subst.
      cbn [fst] in Hhd. congruence.
    + destruct IH as [b [Hb Hiff]]. exists b. split; [exact Hb|].
      rewrite Hiff. split.
      * intros Hfar. constructor; assumption.
      * intros Hfar. inversion Hfar; assumption.
Qed.

Lemma _isCloseToList_spec (word : string) (acc : list (string * W)) :
  word <> "" -> words_nonempty acc ->
  exists b : bool,
    _isCloseToList word acc minEditDiff = Ok b /\
    (b = false <-> far_enough word acc).
Proof.
  intros Hw Hacc. unfold _isCloseToList.
  destruct acc as [|p acc].
  - exists false. split; [reflexivity|]. split; [constructor|reflexivity].
  - cbn [List.length Nat.eqb]. apply _isCloseToList_for_spec; assumption.
Qed.

(** The loop over a concatenation is the loop over its second part, from
    what the first part accepted. *)
Lemma cleanTermList_for_app (l1 l2 acc : list (string * W)) :
  cleanTermList_for (l1 ++ l2) acc =
  (a <- cleanTermList_for l1 acc ;; cleanTermList_for l2 a).
Proof.
  revert acc. induction l1 as [|[word weight] l1 IH]; intros acc.
  - reflexivity.
  - cbn [app cleanTermList_for].
    destruct (_isCloseToList word acc minEditDiff) as [b|e]; cbn [bind].
    + destruct (negb b); apply IH.
    + reflexivity.
Qed.

(** Accepted terms are never removed. *)
Lemma cleanTermList_for_extends (l acc r : list (string * W)) :
  cleanTermList_for l acc = Ok r ->
  exists more, r = acc ++ more /\ forall p, In p more -> In p l.
Proof.
  revert acc. induction l as [|[word weight] l IH]; intros acc H.
  - cbn in H. injection H as <-. exists []. rewrite app_nil_r.
    split; [reflexivity|]. intros p [].
  - cbn [cleanTermList_for] in H.
    destruct (_isCloseToList word acc minEditDiff) as [b|e]; cbn [bind] in H;
      [|discriminate].
    destruct (negb b).
    + apply IH in H. destruct H as [more [-> Hin]].
      exists ((word, weight) :: more). rewrite <- app_assoc.
      split; [reflexivity|].
      intros p [<-|Hp]; [left; reflexivity|right; apply Hin, Hp].
    + apply IH in H. destruct H as [more [-> Hin]].
      exists more. split; [reflexivity|].
      intros p Hp. right. apply Hin, Hp.
Qed.

(** The only exception of the filter is the division by zero. *)
Lemma _isCloseToList_raises (word : string) (acc : list (string * W)) (e : exn) :
  _isCloseToList word acc minEditDiff = Raise e -> e = ZeroDivisionError.
Proof.
  unfold _isCloseToList. destruct (Nat.eqb (List.length acc) 0); [discriminate|].
  induction acc as [|[known w] acc IH]; cbn [_isCloseToList_for].
  - discriminate.
  - unfold Py.truediv.
    destruct (Nat.eqb (Nat.min (String.length word) (String.length known)) 0);
      cbn [bind].
    + intros H. injection H as <-. reflexivity.
    + destruct (_ <? _)%float; [discriminate|exact IH].
Qed.

Lemma cleanTermList_for_raises (l acc : list (string * W)) (e : exn) :
  cleanTermList_for l acc = Raise e -> e = ZeroDivisionError.
Proof.
  revert acc. induction l as [|[word weight] l IH]; intros acc H.
  - discriminate.
  - cbn [cleanTermList_for] in H.
    destruct (_isCloseToList word acc minEditDiff) as [b|e'] eqn:E;
      cbn [bind] in H.
    + destruct (negb b); apply IH in H; exact H.
    + injection H as <-. apply _isCloseToList_raises in E. exact E.
Qed.

(** On words that are not empty the filter returns. *)
Lemma cleanTermList_for_total (l acc : list (string * W)) :
  words_nonempty l -> words_nonempty acc ->
  exists r, cleanTermList_for l acc = Ok r /\ words_nonempty r.
Proof.
  intros Hl. revert acc. induction Hl as [|[word weight] l Hw _ IH];
    intros acc Hacc.
  - exists acc. split; [reflexivity|assumption].
  - cbn [cleanTermList_for]. cbn [fst] in Hw.
    destruct (_isCloseToList_spec word acc Hw Hacc) as [b [-> _]].
    cbn [bind]. destruct (negb b).
    + apply IH. apply Forall_app. split; [assumption|].
      constructor; [exact Hw|constructor].
    + apply IH. assumption.
Qed.

(** An empty word met after a term was accepted stops the filter. *)
Lemma cleanTermList_for_empty_word (w : W) (post acc : list (string * W)) :
  acc <> [] ->
  cleanTermList_for (("", w) :: post) acc = Raise ZeroDivisionError.
Proof.
  intros Hacc. destruct acc as [|[known w'] acc]; [congruence|].
  reflexivity.
Qed.

End CleanerFacts.

(** C10.  The filter returns on every list of words that are not empty.
    When the empty word comes after at least one other pair, so that a term
    has been accepted before it, the division by the length of the shorter
    word is a division by zero and the call raises instead of returning.
    The same happens when the empty word comes first and another pair
    follows: the empty word is accepted, and the next word is divided by
    its length. *)
Theorem cleanTermList_partial (W : Type) :
  (forall termList : list (string * W),
      words_nonempty termList ->
      exists r, TermListCleaner.cleanTermList termList = Ok r) /\
  (forall (pre post : list (string * W)) (w : W),
      pre <> [] ->
      TermListCleaner.cleanTermList (pre ++ ("", w) :: post)
      = Raise ZeroDivisionError) /\
  (forall (w : W) (next : string * W) (post : list (string * W)),
      TermListCleaner.cleanTermList (("", w) :: next :: post)
      = Raise ZeroDivisionError).
Proof.
  split; [|split].
  3:{ intros w [word weight] post.
      unfold TermListCleaner.cleanTermList.
      cbn [TermListCleaner.cleanTermList_for TermListCleaner._isCloseToList
             List.length Nat.eqb bind negb app
             TermListCleaner._isCloseToList_for String.length].
      rewrite Nat.min_0_r. reflexivity. }
  - intros termList H.
    destruct (cleanTermList_for_total termList [] H (Forall_nil _))
      as [r [Hr _]].
    exists r. exact Hr.
  - intros pre post w Hpre. unfold TermListCleaner.cleanTermList.
    rewrite cleanTermList_for_app.
    destruct (TermListCleaner.cleanTermList_for pre []) as [a|e] eqn:E;
      cbn [bind].
    + apply cleanTermList_for_empty_word.
      destruct pre as [|[word weight] pre]; [congruence|].
      cbn in E. apply cleanTermList_for_extends in E.
      destruct E as [more [-> _]]. discriminate.
    + apply cleanTermList_for_raises in E. subst e. reflexivity.
Qed.

Lemma cleanTermList_partial_witness :
  (exists r, TermListCleaner.cleanTermList [("oorlog", 8%Z); ("vrede", 2%Z)]
             = Ok r) /\
  TermListCleaner.cleanTermList ([("oorlog", 8%Z)] ++ ("", 2%Z) :: [])
  = Raise ZeroDivisionError.
Proof.
  split.
  - apply (proj1 (cleanTermList_partial Z)).
    repeat constructor; discriminate.
  - apply (proj1 (proj2 (cleanTermList_partial Z)) [("oorlog", 8%Z)] [] 2%Z).
    discriminate.
Defined.

(** C8.  The filter goes through its input in the given order.  With
    [accepted] the terms kept from the pairs before a candidate, the
    candidate is kept, right after them, when its normalized edit distance
    to each of them is at least 0.20, and is dropped otherwise; what follows
    in the result comes from the pairs after the candidate.  On
    [('oorlog',8),('corlog',2)] the filter drops ['corlog'], on
    [('oorlog',8),('geboorteplek',4)] it keeps both.  (The words are not
    empty, so that every ratio is defined.) *)
Theorem cleanTermList_keeps_far_terms :
  (forall (W : Type) (pre post : list (string * W)) (word : string)
          (weight : W),
      words_nonempty (pre ++ (word, weight) :: post) ->
      exists accepted,
        TermListCleaner.cleanTermList pre = Ok accepted /\
        (forall p, In p accepted -> In p pre) /\
        (far_enough word accepted ->
         exists later,
           TermListCleaner.cleanTermList (pre ++ (word, weight) :: post)
           = Ok (accepted ++ (word, weight) :: later) /\
           forall p, In p later -> In p post) /\
        (~ far_enough word accepted ->
         exists later,
           TermListCleaner.cleanTermList (pre ++ (word, weight) :: post)
           = Ok (accepted ++ later) /\
           forall p, In p later -> In p post)) /\
  TermListCleaner.cleanTermList [("oorlog", 8%Z); ("corlog", 2%Z)]
  = Ok [("oorlog", 8%Z)] /\
  TermListCleaner.cleanTermList [("oorlog", 8%Z); ("geboorteplek", 4%Z)]
  = Ok [("oorlog", 8%Z); ("geboorteplek", 4%Z)].
Proof.
  split; [|split; vm_compute; reflexivity].
  intros W pre post word weight Hne.
  apply Forall_app in Hne. destruct Hne as [Hpre Hrest].
  inversion Hrest as [|? ? Hword Hpost]; subst. cbn [fst] in Hword.
  destruct (cleanTermList_for_total pre [] Hpre (Forall_nil _))
    as [accepted [Hacc Hane]].
  exists accepted. split; [exact Hacc|].
  split.
  { apply cleanTermList_for_extends in Hacc.
    destruct Hacc as [more [-> Hin]]. exact Hin. }
  unfold TermListCleaner.cleanTermList in *.
  rewrite cleanTermList_for_app, Hacc. cbn [bind].
  cbn [TermListCleaner.cleanTermList_for].
  destruct (_isCloseToList_spec word accepted Hword Hane) as [b [-> Hiff]].
  cbn [bind].
  split; intros Hfar.
  - apply Hiff in Hfar. subst b. cbn [negb].
    assert (Hne' : words_nonempty (accepted ++ [(word, weight)])).
    { apply Forall_app. split; [assumption|].
      constructor; [exact Hword|constructor]. }
    destruct (cleanTermList_for_total post _ Hpost Hne') as [r [Hr _]].
    rewrite Hr. apply cleanTermList_for_extends in Hr.
    destruct Hr as [later [-> Hin]]. exists later.
    rewrite <- app_assoc. split; [reflexivity|exact Hin].
  - destruct b; [|exfalso; apply Hfar, Hiff; reflexivity].
    cbn [negb].
    destruct (cleanTermList_for_total post _ Hpost Hane) as [r [Hr _]].
    rewrite Hr. apply cleanTermList_for_extends in Hr.
    destruct Hr as [later [-> Hin]]. exists later.
    split; [reflexivity|exact Hin].
Qed.

Lemma cleanTermList_keeps_far_terms_witness :
  exists accepted,
    TermListCleaner.cleanTermList [("oorlog", 8%Z)] = Ok accepted /\
    (forall p, In p accepted -> In p [("oorlog", 8%Z)]) /\
    (far_enough "ooriog" accepted ->
     exists later,
       TermListCleaner.cleanTermList
         ([("oorlog", 8%Z)] ++ ("ooriog", 3%Z) :: [("vrede", 1%Z)])
       = Ok (accepted ++ ("ooriog", 3%Z) :: later) /\
       forall p, In p later -> In p [("vrede", 1%Z)]) /\
    (~ far_enough "ooriog" accepted ->
     exists later,
       TermListCleaner.cleanTermList
         ([("oorlog", 8%Z)] ++ ("ooriog", 3%Z) :: [("vrede", 1%Z)])
       = Ok (accepted ++ later) /\
       forall p, In p later -> In p [("vrede", 1%Z)]).
Proof.
  apply (proj1 cleanTermList_keeps_far_terms Z
           [("oorlog", 8%Z)] [("vrede", 1%Z)] "ooriog" 3%Z).
  repeat constructor; discriminate.
Defined.

(** ** The order of the keys *)

Lemma str_lt_irrefl (x : string) : ~ str_lt x x.
Proof. apply (@StrictOrder_Irreflexive _ _ String_as_OT.lt_strorder). Qed.

Lemma str_lt_trans (x y z : string) : str_lt x y -> str_lt y z -> str_lt x z.
Proof. apply (@StrictOrder_Transitive _ _ String_as_OT.lt_strorder). Qed.

Lemma str_compare_Gt (x y : string) :
  String_as_OT.compare x y = Gt -> str_lt y x.
Proof.
  intros H. destruct (String_as_OT.compare_spec x y); congruence.
Qed.

Lemma str_compare_Eq (x y : string) :
  String_as_OT.compare x y = Eq -> x = y.
Proof.
  intros H. destruct (String_as_OT.compare_spec x y); congruence.
Qed.

Lemma str_lt_compare_Gt (x y : string) :
  str_lt y x -> String_as_OT.compare x y = Gt.
Proof.
  intros H. destruct (String_as_OT.compare_spec x y) as [E|L|G].
  - red in E. subst. destruct (str_lt_irrefl _ H).
  - destruct (str_lt_irrefl _ (str_lt_trans _ _ _ H L)).
  - reflexivity.
Qed.

Lemma str_compare_refl (x : string) : String_as_OT.compare x x = Eq.
Proof.
  destruct (String_as_OT.compare_spec x x) as [E|L|G];
    [reflexivity|destruct (str_lt_irrefl _ L)|destruct (str_lt_irrefl _ G)].
Qed.

Lemma str_leb_ltb (x y : string) : str_leb x y = negb (str_ltb y x).
Proof.
  unfold str_leb, str_ltb.
  destruct (String_as_OT.compare_spec x y) as [E|L|G].
  - red in E. subst. rewrite str_compare_refl. reflexivity.
  - rewrite (str_lt_compare_Gt _ _ L). reflexivity.
  - unfold String_as_OT.lt in G. rewrite G. reflexivity.
Qed.

Lemma str_ltb_lt (x y : string) : str_ltb x y = true <-> str_lt x y.
Proof.
  unfold str_ltb, String_as_OT.lt.
  destruct (String_as_OT.compare x y); split; congruence.
Qed.

Lemma contains_In (k : string) (l : list string) :
  contains k l = true <-> In k l.
Proof.
  unfold contains. rewrite existsb_exists. split.
  - intros [x [Hin Heq]]. apply String.eqb_eq in Heq. subst. exact Hin.
  - intros Hin. exists k. split; [exact Hin|apply String.eqb_refl].
Qed.

Lemma contains_filter (f : string -> bool) (e : string) (l : list string) :
  contains e (filter f l) = contains e l && f e.
Proof.
  destruct (contains e (filter f l)) eqn:E1.
  - apply contains_In, filter_In in E1. destruct E1 as [Hin Hf].
    apply contains_In in Hin. rewrite Hin, Hf. reflexivity.
  - destruct (contains e l) eqn:E2; [|reflexivity].
    destruct (f e) eqn:E3; [|reflexivity].
    apply contains_In in E2.
    assert (H : contains e (filter f l) = true).
    { apply contains_In, filter_In. split; assumption. }
    congruence.
Qed.

Lemma filter_all (f : string -> bool) (l : list string) :
  Forall (fun x => f x = true) l -> filter f l = l.
Proof.
  induction 1 as [|x l Hx _ IH]; [reflexivity|].
  cbn. rewrite Hx, IH. reflexivity.
Qed.

Lemma filter_none (f : string -> bool) (l : list string) :
  Forall (fun x => f x = false) l -> filter f l = [].
Proof.
  induction 1 as [|x l Hx _ IH]; [reflexivity|].
  cbn. rewrite Hx, IH. reflexivity.
Qed.

Lemma filter_twice (f g : string -> bool) (l : list string) :
  filter g (filter f l) = filter (fun x => f x && g x) l.
Proof.
  induction l as [|x l IH]; [reflexivity|].
  cbn. destruct (f x); cbn; [destruct (g x)|]; rewrite IH; reflexivity.
Qed.

Lemma filter_sorted (f : string -> bool) (l : list string) :
  StronglySorted str_lt l -> StronglySorted str_lt (filter f l).
Proof.
  induction 1 as [|x l Hs IH Hx]; [constructor|].
  cbn. destruct (f x); [|exact IH].
  constructor; [exact IH|].
  rewrite Forall_forall in *. intros y Hy. apply filter_In in Hy.
  apply Hx, Hy.
Qed.

Lemma sorted_NoDup (l : list string) : StronglySorted str_lt l -> NoDup l.
Proof.
  induction 1 as [|x l Hs IH Hx]; constructor; [|exact IH].
  intros Hin. rewrite Forall_forall in Hx.
  exact (str_lt_irrefl _ (Hx _ Hin)).
Qed.

(** Two ascending lists with the same elements are equal. *)
Lemma sorted_same_elements (l1 l2 : list string) :
  StronglySorted str_lt l1 -> StronglySorted str_lt l2 ->
  (forall x, In x l1 <-> In x l2) -> l1 = l2.
Proof.
  intros H1. revert l2. induction H1 as [|a l1 Hs1 IH Ha]; intros l2 H2 Hsame.
  - destruct l2 as [|b l2]; [reflexivity|].
    destruct (proj2 (Hsame b) (or_introl eq_refl)).
  - destruct H2 as [|b l2 Hs2 Hb].
    { destruct (proj1 (Hsame a) (or_introl eq_refl)). }
    rewrite Forall_forall in Ha, Hb.
    assert (Hab : a = b).
    { destruct (proj1 (Hsame a) (or_introl eq_refl)) as [E|Hin];
        [congruence|].
      destruct (proj2 (Hsame b) (or_introl eq_refl)) as [E|Hin'];
        [congruence|].
      destruct (str_lt_irrefl a).
      apply str_lt_trans with b; [apply Ha, Hin'|apply Hb, Hin]. }
    subst b. f_equal. apply IH; [exact Hs2|].
    intros x. split; intros Hx.
    + destruct (proj1 (Hsame x) (or_intror Hx)) as [E|Hin]; [|exact Hin].
      subst x. destruct (str_lt_irrefl _ (Ha _ Hx)).
    + destruct (proj2 (Hsame x) (or_intror Hx)) as [E|Hin]; [|exact Hin].
      subst x. destruct (str_lt_irrefl _ (Hb _ Hx)).
Qed.

(** In an ascending list, the slice from a key is the keys not before it,
    and the slice up to a key is the keys before it. *)
Lemma skipn_index_filter (s : string) (l : list string) :
  StronglySorted str_lt l -> In s l ->
  skipn (list_index s l) l = filter (str_leb s) l.
Proof.
  induction 1 as [|x l Hs IH Hx]; intros Hin; [destruct Hin|].
  cbn [list_index]. destruct (String.eqb_spec x s) as [E|NE].
  - subst x. cbn [skipn]. symmetry. apply filter_all.
    constructor.
    + unfold str_leb. rewrite str_compare_refl. reflexivity.
    + eapply Forall_impl; [|exact Hx]. cbn. intros y Hy.
      rewrite str_leb_ltb. apply negb_true_iff.
      destruct (str_ltb y s) eqn:E; [|reflexivity].
      apply str_ltb_lt in E.
      destruct (str_lt_irrefl _ (str_lt_trans _ _ _ Hy E)).
  - destruct Hin as [E|Hin]; [congruence|].
    cbn [skipn filter]. rewrite Forall_forall in Hx.
    rewrite str_leb_ltb, (proj2 (str_ltb_lt x s) (Hx _ Hin)). cbn [negb].
    apply IH, Hin.
Qed.

Lemma firstn_index_filter (e : string) (l : list string) :
  StronglySorted str_lt l -> In e l ->
  firstn (list_index e l) l = filter (fun k => str_ltb k e) l.
Proof.
  induction 1 as [|x l Hs IH Hx]; intros Hin; [destruct Hin|].
  cbn [list_index]. destruct (String.eqb_spec x e) as [E|NE].
  - subst x. cbn [firstn]. symmetry. apply filter_none.
    constructor.
    + destruct (str_ltb e e) eqn:E; [|reflexivity].
      apply str_ltb_lt in E. destruct (str_lt_irrefl _ E).
    + eapply Forall_impl; [|exact Hx]. cbn. intros y Hy.
      destruct (str_ltb y e) eqn:E; [|reflexivity].
      apply str_ltb_lt in E.
      destruct (str_lt_irrefl _ (str_lt_trans _ _ _ Hy E)).
  - destruct Hin as [E|Hin]; [congruence|].
    cbn [firstn filter]. rewrite Forall_forall in Hx.
    rewrite (proj2 (str_ltb_lt x e) (Hx _ Hin)).
    f_equal. apply IH, Hin.
Qed.

(** ** Sorted dictionaries *)

Section SortedDictFacts.

Context {V : Type}.

Lemma keys_sd_set (d : SortedDict V) (k : string) (v : V) (x : string) :
  In x (keys (sd_set d k v)) <-> x = k \/ In x (keys d).
Proof.
  induction d as [|[k' v'] d IH]; cbn [sd_set].
  - cbn. intuition.
  - destruct (String_as_OT.compare k k') eqn:E.
    + apply str_compare_Eq in E. subst k'. cbn. intuition.
    + cbn. intuition.
    + cbn [keys map fst In] in *. rewrite IH. intuition.
Qed.

(** [sd_set] keeps the keys ascending. *)
Lemma sd_set_sorted (d : SortedDict V) (k : string) (v : V) :
  StronglySorted str_lt (keys d) -> StronglySorted str_lt (keys (sd_set d k v)).
Proof.
  induction d as [|[k' v'] d IH]; cbn [sd_set]; intros Hs.
  - cbn. constructor; constructor.
  - cbn [keys map fst] in Hs. inversion Hs as [|? ? Hs' Hall]; subst.
    destruct (String_as_OT.compare k k') eqn:E.
    + apply str_compare_Eq in E. subst k'. exact Hs.
    + cbn [keys map fst]. constructor; [exact Hs|].
      constructor; [exact E|].
      eapply Forall_impl; [|exact Hall]. cbn. intros y Hy.
      exact (str_lt_trans _ _ _ E Hy).
    + cbn [keys map fst]. constructor; [apply IH, Hs'|].
      apply Forall_forall. intros y Hy.
      apply (keys_sd_set d k v y) in Hy. destruct Hy as [->|Hy].
      * apply str_compare_Gt, E.
      * rewrite Forall_forall in Hall. apply Hall, Hy.
Qed.

Lemma sd_get_set_same (d : SortedDict V) (k : string) (v : V) :
  sd_get (sd_set d k v) k = Some v.
Proof.
  induction d as [|[k' v'] d IH]; cbn [sd_set].
  - cbn. rewrite String.eqb_refl. reflexivity.
  - destruct (String_as_OT.compare k k') eqn:E.
    + cbn. rewrite String.eqb_refl. reflexivity.
    + cbn [sd_get]. rewrite String.eqb_refl. reflexivity.
    + cbn [sd_get]. destruct (String.eqb_spec k' k) as [->|NE]; [|exact IH].
      rewrite str_compare_refl in E. discriminate.
Qed.

Lemma sd_get_set_other (d : SortedDict V) (k k' : string) (v : V) :
  k <> k' -> sd_get (sd_set d k' v) k = sd_get d k.
Proof.
  intros NE. induction d as [|[k0 v0] d IH]; cbn [sd_set].
  - cbn. destruct (String.eqb_spec k' k); [congruence|reflexivity].
  - destruct (String_as_OT.compare k' k0) eqn:E.
    + apply str_compare_Eq in E. subst k0. cbn [sd_get].
      destruct (String.eqb_spec k' k); [congruence|reflexivity].
    + cbn [sd_get]. destruct (String.eqb_spec k' k); [congruence|reflexivity].
    + cbn [sd_get]. rewrite IH. reflexivity.
Qed.

Lemma sd_get_In (d : SortedDict V) (k : string) :
  In k (keys d) -> exists v, sd_get d k = Some v.
Proof.
  induction d as [|[k' v'] d IH]; cbn [keys map fst In sd_get].
  - intros [].
  - intros [E|Hin].
    + subst k'. rewrite String.eqb_refl. exists v'. reflexivity.
    + destruct (String.eqb k' k); [exists v'; reflexivity|apply IH, Hin].
Qed.

End SortedDictFacts.

(** ** The selection of the periods *)

Section SelectKeysFacts.

Import Vocabularymonitor.

(** On ascending keys [selectKeys] raises [KeyError] on an invalid range
    and otherwise returns the keys of the half-open interval. *)
Lemma selectKeys_spec (ks : list string) (startKey endKey : option string) :
  StronglySorted str_lt ks ->
  if invalid_range ks startKey endKey
  then exists msg, selectKeys ks startKey endKey = Raise (KeyError msg)
  else selectKeys ks startKey endKey = Ok (filter (in_range startKey endKey) ks).
Proof.
  intros Hs. unfold selectKeys, invalid_range, in_range.
  destruct startKey as [s|].
  - destruct (contains s ks) eqn:Cs; cbn [negb orb bind];
      [|eexists; reflexivity].
    rewrite (skipn_index_filter s ks Hs (proj1 (contains_In s ks) Cs)).
    destruct endKey as [e|]; cbn [bind].
    + rewrite contains_filter, str_leb_ltb.
      destruct (contains e ks) eqn:Ce; cbn [negb orb andb];
        [|eexists; reflexivity].
      destruct (str_ltb e s) eqn:Les; cbn [negb]; [eexists; reflexivity|].
      rewrite firstn_index_filter.
      * rewrite filter_twice. reflexivity.
      * apply filter_sorted, Hs.
      * apply filter_In. split; [apply contains_In, Ce|].
        rewrite str_leb_ltb, Les. reflexivity.
    + f_equal. apply filter_ext. intros k. rewrite andb_true_r. reflexivity.
  - cbn [orb bind]. destruct endKey as [e|].
    + destruct (contains e ks) eqn:Ce; cbn [negb orb];
        [|eexists; reflexivity].
      rewrite (firstn_index_filter e ks Hs (proj1 (contains_In e ks) Ce)).
      reflexivity.
    + f_equal. symmetry. apply filter_all.
      apply Forall_forall. reflexivity.
Qed.

Lemma selectKeys_sorted (ks range : list string)
    (startKey endKey : option string) :
  StronglySorted str_lt ks ->
  selectKeys ks startKey endKey = Ok range ->
  StronglySorted str_lt range /\ incl range ks.
Proof.
  intros Hs H. pose proof (selectKeys_spec ks startKey endKey Hs) as Sp.
  destruct (invalid_range ks startKey endKey).
  - destruct Sp as [msg Sp]. congruence.
  - rewrite Sp in H. injection H as <-.
    split; [apply filter_sorted, Hs|]. apply incl_filter.
Qed.

End SelectKeysFacts.

(** ** The loop over the periods *)

Section LoopFacts.

Import Vocabularymonitor.

Variable self : VocabularyMonitor.
Variables maxTerms maxRelatedTerms : nat.
Variables minSim wordBoost : float.
Variable sumSimilarity : bool.
Variable algorithm : string.
Variable cleaningFunction : option cleaner.

Let body := models_body self maxTerms maxRelatedTerms minSim wordBoost
              sumSimilarity algorithm cleaningFunction.
Let loop := models_for self maxTerms maxRelatedTerms minSim wordBoost
              sumSimilarity algorithm cleaningFunction.
Let expand := expansion maxTerms maxRelatedTerms minSim wordBoost
                sumSimilarity algorithm cleaningFunction.

(** With a supported algorithm and a loaded key, the body stores the
    expansion of the current seeds under the key. *)
Lemma models_body_supported (st : loopState) (sKey : string) (m : W2VModel) :
  supported algorithm ->
  sd_get (_models self) sKey = Some m ->
  body st sKey =
  Ok {| aSeedSet := snd (expand m (aSeedSet st));
        yTerms := sd_set (yTerms st) sKey (fst (fst (expand m (aSeedSet st))));
        yLinks := sd_set (yLinks st) sKey (snd (fst (expand m (aSeedSet st))))
     |}.
Proof.
  intros Hsup Hm. subst body expand.
  unfold models_body, expansion, model_at. rewrite Hm.
  destruct Hsup as [-> | ->]; cbn [String.eqb Ascii.eqb Bool.eqb bind].
  - destruct (_trackInlink _ _ _ _ _ _ _ _) as [[terms links] seeds].
    reflexivity.
  - destruct (_trackCore _ _ _ _ _ _ _ _) as [terms links].
    reflexivity.
Qed.

(** With another algorithm the body raises, whatever the key. *)
Lemma models_body_unsupported (st : loopState) (sKey : string) :
  ~ supported algorithm ->
  body st sKey = Raise (Exception ("Algorithm not supported: " ++ algorithm)).
Proof.
  intros Hsup. subst body. unfold models_body.
  destruct (String.eqb_spec algorithm "adaptive") as [E|_].
  { destruct Hsup. left. exact E. }
  destruct (String.eqb_spec algorithm "non-adaptive") as [E|_].
  { destruct Hsup. right. exact E. }
  reflexivity.
Qed.

Lemma models_for_app (l1 l2 : list string) (st : loopState) :
  loop (l1 ++ l2) st = (st' <- loop l1 st ;; loop l2 st').
Proof.
  subst loop. revert st. induction l1 as [|k l1 IH]; intros st.
  - reflexivity.
  - cbn [app models_for].
    destruct (models_body _ _ _ _ _ _ _ _ st k) as [st'|e]; cbn [bind].
    + apply IH.
    + reflexivity.
Qed.

(** With a supported algorithm the loop over loaded keys returns; the
    results then hold the keys processed, next to those held before, in
    ascending order. *)
Lemma models_for_keys (ks : list string) (st : loopState) :
  supported algorithm ->
  incl ks (keys (_models self)) ->
  exists st',
    loop ks st = Ok st' /\
    (forall x, In x (keys (yTerms st')) <-> In x ks \/ In x (keys (yTerms st))) /\
    (forall x, In x (keys (yLinks st')) <-> In x ks \/ In x (keys (yLinks st))) /\
    (StronglySorted str_lt (keys (yTerms st)) ->
     StronglySorted str_lt (keys (yTerms st'))) /\
    (StronglySorted str_lt (keys (yLinks st)) ->
     StronglySorted str_lt (keys (yLinks st'))).
Proof.
  intros Hsup. subst loop. revert st.
  induction ks as [|k ks IH]; intros st Hincl.
  - exists st. cbn. intuition.
  - destruct (sd_get_In (_models self) k (Hincl k (or_introl eq_refl)))
      as [m Hm].
    cbn [models_for]. fold body.
    rewrite (models_body_supported st k m Hsup Hm). cbn [bind].
    match goal with |- context [models_for _ _ _ _ _ _ _ _ ks ?s] =>
      destruct (IH s) as [st' [Hrun [HT [HL [HsT HsL]]]]] end.
    { intros x Hx. apply Hincl. right. exact Hx. }
    exists st'. split; [exact Hrun|]. cbn [yTerms yLinks] in *.
    split; [|split; [|split]].
    + intros x. rewrite HT, keys_sd_set. cbn [In]. intuition.
    + intros x. rewrite HL, keys_sd_set. cbn [In]. intuition.
    + intros Hs. apply HsT, sd_set_sorted, Hs.
    + intros Hs. apply HsL, sd_set_sorted, Hs.
Qed.

(** A key that is not processed keeps its entries. *)
Lemma models_for_other (ks : list string) (st st' : loopState) (k : string) :
  loop ks st = Ok st' -> ~ In k ks ->
  sd_get (yTerms st') k = sd_get (yTerms st) k /\
  sd_get (yLinks st') k = sd_get (yLinks st) k.
Proof.
  subst loop. revert st. induction ks as [|k0 ks IH]; intros st H Hnin.
  - cbn in H. injection H as <-. split; reflexivity.
  - cbn [models_for] in H.
    destruct (models_body _ _ _ _ _ _ _ _ st k0) as [st1|e] eqn:Hb;
      cbn [bind] in H; [|discriminate].
    destruct (IH st1 H) as [HT HL].
    { intros Hin. apply Hnin. right. exact Hin. }
    rewrite HT, HL.
    assert (NE : k <> k0) by (intros ->; apply Hnin; left; reflexivity).
    unfold models_body in Hb.
    match type of Hb with (bind ?c _ = _) => destruct c as [[[t l] s]|e] end;
      cbn [bind] in Hb; [|discriminate].
    injection Hb as <-. cbn [yTerms yLinks].
    split; apply sd_get_set_other, NE.
Qed.

End LoopFacts.

(** ** The tracking of a concept *)

Section TrackingFacts.

Import Vocabularymonitor.

Variable self : VocabularyMonitor.
Variable seedTerms : seedTermsArg.
Variables maxTerms maxRelatedTerms : nat.
Variables startKey endKey : option string.
Variables minSim wordBoost : float.
Variables forwards sumSimilarity : bool.
Variable algorithm : string.
Variable cleaningFunction : option cleaner.

Let loop := models_for self maxTerms maxRelatedTerms minSim wordBoost
              sumSimilarity algorithm cleaningFunction.
Let expand := expansion maxTerms maxRelatedTerms minSim wordBoost
                sumSimilarity algorithm cleaningFunction.
Let seeds0 := match seedTerms with OneTerm s => [s] | TermList l => l end.
Let st0 := {| aSeedSet := seeds0; yTerms := []; yLinks := [] |}.
Let run := trackClouds self seedTerms maxTerms maxRelatedTerms startKey endKey
             minSim wordBoost forwards sumSimilarity algorithm
             cleaningFunction.

Hypothesis models_sorted : StronglySorted str_lt (getAvailableYears self).

Lemma directed_In (l : list string) (x : string) :
  In x (directed forwards l) <-> In x l.
Proof.
  unfold directed. destruct (negb forwards); [|reflexivity].
  symmetry. apply in_rev.
Qed.

Lemma processingOrder_inv (order : list string) :
  processingOrder self startKey endKey forwards = Ok order ->
  exists range,
    selectKeys (getAvailableYears self) startKey endKey = Ok range /\
    order = directed forwards range /\
    StronglySorted str_lt range /\
    NoDup order /\ incl order (keys (_models self)).
Proof.
  unfold processingOrder. intros H.
  destruct (selectKeys (getAvailableYears self) startKey endKey)
    as [range|e] eqn:Hsel; cbn [bind] in H; [|discriminate].
  injection H as <-. exists range.
  destruct (selectKeys_sorted _ _ _ _ models_sorted Hsel) as [Hs Hincl].
  split; [reflexivity|]. split; [reflexivity|]. split; [exact Hs|].
  split.
  - unfold directed. destruct (negb forwards).
    + apply NoDup_rev, sorted_NoDup, Hs.
    + apply sorted_NoDup, Hs.
  - intros x Hx. apply Hincl. exact (proj1 (directed_In _ _) Hx).
Qed.

(** The call is the loop over the processing order, from the first seeds
    and empty results. *)
Lemma trackClouds_unfold (order : list string) :
  processingOrder self startKey endKey forwards = Ok order ->
  run = (st <- loop order st0 ;; Ok (yTerms st, yLinks st)).
Proof.
  unfold processingOrder. intros H. subst run loop st0 seeds0.
  unfold trackClouds. unfold getAvailableYears in H.
  destruct (selectKeys (keys (_models self)) startKey endKey)
    as [range|e]; cbn [bind] in H |- *; [|discriminate].
  injection H as <-. reflexivity.
Qed.

(** With a supported algorithm and a valid range the call returns, and
    both results are keyed by the selected range in ascending order. *)
Lemma trackClouds_returns (range : list string) :
  supported algorithm ->
  selectKeys (getAvailableYears self) startKey endKey = Ok range ->
  exists yT yL, run = Ok (yT, yL) /\ keys yT = range /\ keys yL = range.
Proof.
  intros Hsup Hsel.
  assert (Hpo : processingOrder self startKey endKey forwards
                = Ok (directed forwards range)).
  { unfold processingOrder. rewrite Hsel. reflexivity. }
  destruct (processingOrder_inv _ Hpo) as [range' [Hsel' [_ [Hs [_ Hincl]]]]].
  assert (range' = range) by congruence. subst range'.
  rewrite (trackClouds_unfold _ Hpo).
  destruct (models_for_keys self maxTerms maxRelatedTerms minSim wordBoost
              sumSimilarity algorithm cleaningFunction
              (directed forwards range) st0 Hsup Hincl)
    as [st' [Hrun [HT [HL [HsT HsL]]]]].
  fold loop in Hrun. rewrite Hrun. cbn [bind].
  exists (yTerms st'), (yLinks st'). split; [reflexivity|].
  split; apply sorted_same_elements; try exact Hs.
  - apply HsT. constructor.
  - intros x. rewrite HT, directed_In. cbn. intuition.
  - apply HsL. constructor.
  - intros x. rewrite HL, directed_In. cbn. intuition.
Qed.

(** What the results hold for the key processed after the keys [pre]. *)
Lemma trackClouds_at (order pre post : list string) (k : string) :
  supported algorithm ->
  processingOrder self startKey endKey forwards = Ok order ->
  order = pre ++ k :: post ->
  exists sa m yT yL,
    loop pre st0 = Ok sa /\
    sd_get (_models self) k = Some m /\
    run = Ok (yT, yL) /\
    sd_get yT k = Some (fst (fst (expand m (aSeedSet sa)))) /\
    sd_get yL k = Some (snd (fst (expand m (aSeedSet sa)))) /\
    exists sb, loop (pre ++ [k]) st0 = Ok sb /\
               aSeedSet sb = snd (expand m (aSeedSet sa)).
Proof.
  intros Hsup Hpo Hord.
  destruct (processingOrder_inv _ Hpo) as [range [_ [_ [_ [Hnd Hincl]]]]].
  rewrite (trackClouds_unfold _ Hpo). subst order.
  assert (Hpre : incl pre (keys (_models self))).
  { intros x Hx. apply Hincl, in_or_app. left. exact Hx. }
  assert (Hpost : incl post (keys (_models self))).
  { intros x Hx. apply Hincl, in_or_app. right. right. exact Hx. }
  destruct (models_for_keys self maxTerms maxRelatedTerms minSim wordBoost
              sumSimilarity algorithm cleaningFunction pre st0 Hsup Hpre)
    as [sa [Hsa _]].
  fold loop in Hsa.
  destruct (sd_get_In (_models self) k) as [m Hm].
  { apply Hincl, in_or_app. right. left. reflexivity. }
  pose proof (models_body_supported self maxTerms maxRelatedTerms minSim
                wordBoost sumSimilarity algorithm cleaningFunction sa k m
                Hsup Hm) as Hb.
  fold expand in Hb.
  match type of Hb with _ = Ok ?s => set (sb := s) in * end.
  destruct (models_for_keys self maxTerms maxRelatedTerms minSim wordBoost
              sumSimilarity algorithm cleaningFunction post sb Hsup Hpost)
    as [st' [Hst' _]].
  fold loop in Hst'.
  assert (Hk : ~ In k post).
  { apply NoDup_remove_2 in Hnd. intros Hin. apply Hnd, in_or_app.
    right. exact Hin. }
  destruct (models_for_other self maxTerms maxRelatedTerms minSim wordBoost
              sumSimilarity algorithm cleaningFunction post sb st' k Hst' Hk)
    as [HT HL].
  exists sa, m, (yTerms st'), (yLinks st').
  split; [exact Hsa|]. split; [exact Hm|].
  assert (Hrun : loop (pre ++ k :: post) st0 = Ok st').
  { subst loop. rewrite models_for_app, Hsa. cbn [bind models_for].
    rewrite Hb. cbn [bind]. exact Hst'. }
  rewrite Hrun. cbn [bind]. split; [reflexivity|].
  rewrite HT, HL. subst sb. cbn [yTerms yLinks].
  rewrite !sd_get_set_same. split; [reflexivity|]. split; [reflexivity|].
  eexists. split.
  - subst loop. rewrite models_for_app, Hsa. cbn [bind models_for].
    rewrite Hb. cbn [bind]. reflexivity.
  - reflexivity.
Qed.

End TrackingFacts.

Section Unsupported.

Import Vocabularymonitor.

(** With an algorithm that is not supported the call raises as soon as a
    first period is processed, and returns two empty results when the range
    selects no period: the test of the algorithm is in the body of the loop. *)
Lemma trackClouds_unsupported (self : VocabularyMonitor)
    (seedTerms : seedTermsArg) (maxTerms maxRelatedTerms : nat)
    (startKey endKey : option string) (minSim wordBoost : float)
    (forwards sumSimilarity : bool) (algorithm : string)
    (cleaningFunction : option cleaner) (order : list string) :
  ~ supported algorithm ->
  processingOrder self startKey endKey forwards = Ok order ->
  trackClouds self seedTerms maxTerms maxRelatedTerms startKey endKey minSim
    wordBoost forwards sumSimilarity algorithm cleaningFunction
  = match order with
    | [] => Ok ([], [])
    | _ :: _ => Raise (Exception ("Algorithm not supported: " ++ algorithm))
    end.
Proof.
  intros Hsup Hpo.
  rewrite (trackClouds_unfold self seedTerms maxTerms maxRelatedTerms
             startKey endKey minSim wordBoost forwards sumSimilarity
             algorithm cleaningFunction order Hpo).
  destruct order as [|k order]; [reflexivity|].
  cbn [models_for].
  rewrite (models_body_unsupported self maxTerms maxRelatedTerms minSim
             wordBoost sumSimilarity algorithm cleaningFunction _ k Hsup).
  reflexivity.
Qed.

Lemma supported_dec (algorithm : string) :
  {supported algorithm} + {~ supported algorithm}.
Proof.
  unfold supported.
  destruct (String.string_dec algorithm "adaptive") as [E|NE];
    [left; left; exact E|].
  destruct (String.string_dec algorithm "non-adaptive") as [E'|NE'];
    [left; right; exact E'|].
  right. intros [H|H]; contradiction.
Qed.

Lemma directed_nil (forwards : bool) (l : list string) :
  directed forwards l = [] -> l = [].
Proof.
  unfold directed. destruct (negb forwards); [|trivial].
  intros H. apply (f_equal (@rev string)) in H.
  rewrite rev_involutive in H. exact H.
Qed.

End Unsupported.

Section TrackCloudsClaims.

Import Vocabularymonitor.

Variable self : VocabularyMonitor.
Variable seedTerms : seedTermsArg.
Variables maxTerms maxRelatedTerms : nat.
Variables startKey endKey : option string.
Variables minSim wordBoost : float.
Variables forwards sumSimilarity : bool.
Variable algorithm : string.
Variable cleaningFunction : option cleaner.

(** C1, as the code has it.  The two results are sorted dictionaries.
    Whenever the call returns, both are keyed by the selected keys in
    ascending order, whatever the direction, while the periods are processed
    in that order or, backwards, in the reversed one.  With a supported
    algorithm and a valid range the call does return. *)
Theorem trackClouds_keyed_ascending :
  StronglySorted str_lt (getAvailableYears self) ->
  let run := trackClouds self seedTerms maxTerms maxRelatedTerms startKey
               endKey minSim wordBoost forwards sumSimilarity algorithm
               cleaningFunction in
  (forall yT yL,
      run = Ok (yT, yL) ->
      exists range,
        selectKeys (getAvailableYears self) startKey endKey = Ok range /\
        processingOrder self startKey endKey forwards
        = Ok (if forwards then range else rev range) /\
        StronglySorted str_lt range /\
        keys yT = range /\ keys yL = range) /\
  (supported algorithm ->
   forall range,
     selectKeys (getAvailableYears self) startKey endKey = Ok range ->
     exists yT yL, run = Ok (yT, yL)).
Proof.
  intros Hs run. split.
  - intros yT yL Hrun.
    destruct (selectKeys (getAvailableYears self) startKey endKey)
      as [range|e] eqn:Hsel.
    2:{ subst run. unfold trackClouds in Hrun.
        unfold getAvailableYears in Hsel. rewrite Hsel in Hrun.
        discriminate. }
    assert (Hpo : processingOrder self startKey endKey forwards
                  = Ok (directed forwards range)).
    { unfold processingOrder. rewrite Hsel. reflexivity. }
    exists range. split; [reflexivity|].
    split; [rewrite Hpo; unfold directed; destruct forwards; reflexivity|].
    split; [apply (selectKeys_sorted _ _ _ _ Hs Hsel)|].
    destruct (supported_dec algorithm) as [Hsup|Hsup].
    + destruct (trackClouds_returns self seedTerms maxTerms maxRelatedTerms
                  startKey endKey minSim wordBoost forwards sumSimilarity
                  algorithm cleaningFunction Hs range Hsup Hsel)
        as [yT' [yL' [Hrun' [HT HL]]]].
      fold run in Hrun'. rewrite Hrun in Hrun'. injection Hrun' as <- <-.
      split; assumption.
    + pose proof (trackClouds_unsupported self seedTerms maxTerms
                    maxRelatedTerms startKey endKey minSim wordBoost forwards
                    sumSimilarity algorithm cleaningFunction _ Hsup Hpo)
        as Hun.
      fold run in Hun. rewrite Hrun in Hun.
      destruct (directed forwards range) eqn:Hd; [|discriminate].
      apply directed_nil in Hd. subst range.
      injection Hun as -> ->. split; reflexivity.
  - intros Hsup range Hsel.
    destruct (trackClouds_returns self seedTerms maxTerms maxRelatedTerms
                startKey endKey minSim wordBoost forwards sumSimilarity
                algorithm cleaningFunction Hs range Hsup Hsel)
      as [yT [yL [Hrun _]]].
    exists yT, yL. exact Hrun.
Qed.

(** C5, as the code has it.  On ascending keys the call raises [KeyError]
    exactly when a supplied start key is not loaded, or a supplied end key
    is not loaded or lies before the supplied start key.  Otherwise, with a
    supported algorithm, it returns, and the periods processed, which key
    both results, are the loaded keys of the half-open interval from the
    start key to the end key.  In particular no error is raised for two
    loaded keys of which the start key is not after the end key. *)
Theorem trackClouds_range :
  StronglySorted str_lt (getAvailableYears self) ->
  let run := trackClouds self seedTerms maxTerms maxRelatedTerms startKey
               endKey minSim wordBoost forwards sumSimilarity algorithm
               cleaningFunction in
  let range := filter (in_range startKey endKey) (getAvailableYears self) in
  (invalid_range (getAvailableYears self) startKey endKey = true ->
   exists msg, run = Raise (KeyError msg)) /\
  (invalid_range (getAvailableYears self) startKey endKey = false ->
   forall msg, run <> Raise (KeyError msg)) /\
  (supported algorithm ->
   invalid_range (getAvailableYears self) startKey endKey = false ->
   exists yT yL,
     run = Ok (yT, yL) /\ keys yT = range /\ keys yL = range /\
     processingOrder self startKey endKey forwards
     = Ok (directed forwards range)) /\
  (supported algorithm ->
   forall s e,
     startKey = Some s -> endKey = Some e ->
     In s (getAvailableYears self) -> In e (getAvailableYears self) ->
     str_leb s e = true ->
     exists yT yL, run = Ok (yT, yL)).
Proof.
  intros Hs run range.
  pose proof (selectKeys_spec (getAvailableYears self) startKey endKey Hs)
    as Sp.
  assert (Hpo :
    invalid_range (getAvailableYears self) startKey endKey = false ->
    processingOrder self startKey endKey forwards
    = Ok (directed forwards range)).
  { intros Hv. rewrite Hv in Sp. unfold processingOrder. rewrite Sp.
    reflexivity. }
  assert (Hvalid :
    supported algorithm ->
    invalid_range (getAvailableYears self) startKey endKey = false ->
    exists yT yL,
      run = Ok (yT, yL) /\ keys yT = range /\ keys yL = range /\
      processingOrder self startKey endKey forwards
      = Ok (directed forwards range)).
  { intros Hsup Hv. specialize (Hpo Hv). rewrite Hv in Sp.
    destruct (trackClouds_returns self seedTerms maxTerms maxRelatedTerms
                startKey endKey minSim wordBoost forwards sumSimilarity
                algorithm cleaningFunction Hs _ Hsup Sp)
      as [yT [yL [Hrun [HT HL]]]].
    exists yT, yL. split; [exact Hrun|]. split; [exact HT|].
    split; [exact HL|exact Hpo]. }
  split; [|split; [|split; [exact Hvalid|]]].
  - intros Hv. rewrite Hv in Sp. destruct Sp as [msg Sp].
    exists msg. subst run. unfold trackClouds.
    unfold getAvailableYears in Sp. rewrite Sp. reflexivity.
  - intros Hv msg Hrun.
    destruct (supported_dec algorithm) as [Hsup|Hsup].
    + destruct (Hvalid Hsup Hv) as [yT [yL [Hrun' _]]]. congruence.
    + pose proof (trackClouds_unsupported self seedTerms maxTerms
                    maxRelatedTerms startKey endKey minSim wordBoost forwards
                    sumSimilarity algorithm cleaningFunction _ Hsup (Hpo Hv))
        as Hun.
      fold run in Hun. rewrite Hrun in Hun.
      destruct (directed forwards range); discriminate.
  - intros Hsup s e -> -> Hins Hine Hle.
    destruct (Hvalid Hsup) as [yT [yL [Hrun _]]].
    + unfold invalid_range.
      rewrite (proj2 (contains_In _ _) Hins), (proj2 (contains_In _ _) Hine).
      rewrite str_leb_ltb in Hle. apply negb_true_iff in Hle.
      rewrite Hle. reflexivity.
    + exists yT, yL. exact Hrun.
Qed.

(** The seeds of the next period in the adaptive algorithm are the words
    of the terms of this one. *)
Lemma _trackInlink_seeds (model : W2VModel) (seeds : list string) :
  snd (_trackInlink model seeds maxTerms maxRelatedTerms minSim wordBoost
         sumSimilarity cleaningFunction)
  = map fst (fst (fst (_trackInlink model seeds maxTerms maxRelatedTerms
                         minSim wordBoost sumSimilarity cleaningFunction))).
Proof.
  unfold _trackInlink.
  destruct sumSimilarity;
    destruct (_trackCore _ _ _ _ _ _ _ _) as [terms links]; reflexivity.
Qed.

End TrackCloudsClaims.

Section SeedSets.

Import Vocabularymonitor.

Variable self : VocabularyMonitor.
Variable seedTerms : seedTermsArg.
Variables maxTerms maxRelatedTerms : nat.
Variables startKey endKey : option string.
Variables minSim wordBoost : float.
Variables forwards sumSimilarity : bool.
Variable cleaningFunction : option cleaner.

(** The non-adaptive algorithm never changes the seeds. *)
Lemma models_for_nonadaptive_seeds (ks : list string) (st st' : loopState) :
  models_for self maxTerms maxRelatedTerms minSim wordBoost sumSimilarity
    "non-adaptive" cleaningFunction ks st = Ok st' ->
  aSeedSet st' = aSeedSet st.
Proof.
  revert st. induction ks as [|k ks IH]; intros st H.
  - cbn in H. injection H as <-. reflexivity.
  - cbn [models_for] in H.
    destruct (models_body _ _ _ _ _ _ _ _ st k) as [st1|e] eqn:Hb;
      cbn [bind] in H; [|discriminate].
    rewrite (IH st1 H).
    unfold models_body in Hb.
    cbn [String.eqb Ascii.eqb Bool.eqb] in Hb.
    destruct (model_at self k) as [m|e]; cbn [bind] in Hb; [|discriminate].
    destruct (_trackCore _ _ _ _ _ _ _ _) as [terms links].
    cbn [bind] in Hb. injection Hb as <-. reflexivity.
Qed.

(** C6.  Adaptive: the first period processed is expanded from the seed
    terms of the call, and each further period from the words, without
    their weights, of the terms returned for the period processed just
    before it.  Non-adaptive: every period processed is expanded from the
    seed terms of the call. *)
Theorem trackClouds_seed_sets (order : list string) :
  StronglySorted str_lt (getAvailableYears self) ->
  processingOrder self startKey endKey forwards = Ok order ->
  let seeds0 := match seedTerms with OneTerm s => [s] | TermList l => l end in
  let inlink m seeds :=
    _trackInlink m seeds maxTerms maxRelatedTerms minSim wordBoost
      sumSimilarity cleaningFunction in
  let core m seeds :=
    _trackCore m seeds maxTerms maxRelatedTerms minSim default_wordBoost
      default_reward cleaningFunction in
  (exists yT yL,
      trackClouds self seedTerms maxTerms maxRelatedTerms startKey endKey
        minSim wordBoost forwards sumSimilarity "adaptive" cleaningFunction
      = Ok (yT, yL) /\
      (forall k rest,
          order = k :: rest ->
          exists m,
            sd_get (_models self) k = Some m /\
            sd_get yT k = Some (fst (fst (inlink m seeds0))) /\
            sd_get yL k = Some (snd (fst (inlink m seeds0)))) /\
      (forall pre k1 k2 post,
          order = pre ++ k1 :: k2 :: post ->
          exists m terms1,
            sd_get (_models self) k2 = Some m /\
            sd_get yT k1 = Some terms1 /\
            sd_get yT k2 = Some (fst (fst (inlink m (map fst terms1)))) /\
            sd_get yL k2 = Some (snd (fst (inlink m (map fst terms1)))))) /\
  (exists yT yL,
      trackClouds self seedTerms maxTerms maxRelatedTerms startKey endKey
        minSim wordBoost forwards sumSimilarity "non-adaptive"
        cleaningFunction
      = Ok (yT, yL) /\
      (forall k,
          In k order ->
          exists m,
            sd_get (_models self) k = Some m /\
            sd_get yT k = Some (fst (core m seeds0)) /\
            sd_get yL k = Some (snd (core m seeds0)))).
Proof.
  intros Hs Hpo seeds0 inlink core.
  destruct (processingOrder_inv self startKey endKey forwards Hs _ Hpo)
    as [range [Hsel _]].
  split.
  - assert (Hsup : supported "adaptive") by (left; reflexivity).
    destruct (trackClouds_returns self seedTerms maxTerms maxRelatedTerms
                startKey endKey minSim wordBoost forwards sumSimilarity
                "adaptive" cleaningFunction Hs range Hsup Hsel)
      as [yT [yL [Hrun _]]].
    exists yT, yL. split; [exact Hrun|]. split.
    + intros k rest Hord.
      destruct (trackClouds_at self seedTerms maxTerms maxRelatedTerms
                  startKey endKey minSim wordBoost forwards sumSimilarity
                  "adaptive" cleaningFunction Hs order [] rest k Hsup Hpo Hord)
        as [sa [m [yT' [yL' [Hsa [Hm [Hrun' [HT [HL _]]]]]]]]].
      rewrite Hrun in Hrun'. injection Hrun' as <- <-.
      cbn in Hsa. injection Hsa as <-.
      exists m. split; [exact Hm|]. split; [exact HT|exact HL].
    + intros pre k1 k2 post Hord.
      destruct (trackClouds_at self seedTerms maxTerms maxRelatedTerms
                  startKey endKey minSim wordBoost forwards sumSimilarity
                  "adaptive" cleaningFunction Hs order pre (k2 :: post) k1
                  Hsup Hpo Hord)
        as [sa [m1 [yT1 [yL1 [Hsa [Hm1 [Hrun1 [HT1 [_ [sb [Hsb Hseeds]]]]]]]]]]].
      assert (Hord' : order = (pre ++ [k1]) ++ k2 :: post).
      { rewrite <- app_assoc. exact Hord. }
      destruct (trackClouds_at self seedTerms maxTerms maxRelatedTerms
                  startKey endKey minSim wordBoost forwards sumSimilarity
                  "adaptive" cleaningFunction Hs order (pre ++ [k1]) post k2
                  Hsup Hpo Hord')
        as [sb' [m2 [yT2 [yL2 [Hsb' [Hm2 [Hrun2 [HT2 [HL2 _]]]]]]]]].
      rewrite Hrun in Hrun1, Hrun2.
      injection Hrun1 as <- <-. injection Hrun2 as <- <-.
      rewrite Hsb in Hsb'. injection Hsb' as <-.
      rewrite Hseeds in HT2, HL2.
      unfold expansion in HT1, HT2, HL2.
      cbn [String.eqb Ascii.eqb Bool.eqb] in HT1, HT2, HL2.
      rewrite _trackInlink_seeds in HT2, HL2.
      eexists m2, _. split; [exact Hm2|]. split; [exact HT1|].
      split; [exact HT2|exact HL2].
  - assert (Hsup : supported "non-adaptive") by (right; reflexivity).
    destruct (trackClouds_returns self seedTerms maxTerms maxRelatedTerms
                startKey endKey minSim wordBoost forwards sumSimilarity
                "non-adaptive" cleaningFunction Hs range Hsup Hsel)
      as [yT [yL [Hrun _]]].
    exists yT, yL. split; [exact Hrun|].
    intros k Hin. apply in_split in Hin. destruct Hin as [pre [post Hord]].
    destruct (trackClouds_at self seedTerms maxTerms maxRelatedTerms
                startKey endKey minSim wordBoost forwards sumSimilarity
                "non-adaptive" cleaningFunction Hs order pre post k
                Hsup Hpo Hord)
      as [sa [m [yT' [yL' [Hsa [Hm [Hrun' [HT [HL _]]]]]]]]].
    rewrite Hrun in Hrun'. injection Hrun' as <- <-.
    apply models_for_nonadaptive_seeds in Hsa. cbn [aSeedSet] in Hsa.
    rewrite Hsa in HT, HL.
    unfold expansion in HT, HL.
    cbn [String.eqb Ascii.eqb Bool.eqb] in HT, HL.
    exists m. split; [exact Hm|]. subst core. cbn beta.
    fold seeds0 in HT, HL.
    destruct (_trackCore m seeds0 maxTerms maxRelatedTerms minSim
                default_wordBoost default_reward cleaningFunction)
      as [terms links].
    split; [exact HT|exact HL].
Qed.

End SeedSets.


(** ** The two calls on the example monitor *)

Section TrackCloudsExamples.

Import Vocabularymonitor.

Lemma monitor_sorted :
  StronglySorted str_lt (getAvailableYears Examples.monitor).
Proof. repeat constructor. Qed.

(** C1, as the claim states it, fails: backwards over the two periods of
    the example, the later period is processed first, and both results are
    keyed with the earlier period first. *)
Lemma trackClouds_backwards_not_in_processing_order :
  exists order yT yL,
    processingOrder Examples.monitor None None false = Ok order /\
    trackClouds Examples.monitor (TermList ["a"]) 10 10 None None 0 1
      false false "adaptive" None = Ok (yT, yL) /\
    order = ["1951_1960"; "1950_1959"] /\
    keys yT = ["1950_1959"; "1951_1960"] /\
    keys yL = ["1950_1959"; "1951_1960"] /\
    keys yT <> order /\ keys yL <> order.
Proof.
  eexists _, _, _.
  split; [vm_compute; reflexivity|].
  split; [vm_compute; reflexivity|].
  split; [reflexivity|]. split; [reflexivity|]. split; [reflexivity|].
  split; cbn; discriminate.
Qed.

Lemma trackClouds_keyed_ascending_witness :
  exists yT yL,
    trackClouds Examples.monitor (TermList ["a"]) 10 10 None None 0 1
      false false "adaptive" None = Ok (yT, yL) /\
    keys yT = ["1950_1959"; "1951_1960"] /\
    keys yL = ["1950_1959"; "1951_1960"].
Proof.
  destruct (trackClouds_keyed_ascending Examples.monitor (TermList ["a"])
              10 10 None None 0 1 false false "adaptive" None monitor_sorted)
    as [Hkeys Hreturns].
  destruct (Hreturns (or_introl eq_refl) _ eq_refl) as [yT [yL Hrun]].
  exists yT, yL. split; [exact Hrun|].
  destruct (Hkeys yT yL Hrun) as [range [Hsel [_ [_ [HT HL]]]]].
  vm_compute in Hsel. injection Hsel as <-.
  split; [exact HT|exact HL].
Defined.

(** C5, as the claim states it, fails: both keys are loaded, the end key
    lies before the start key, and the call raises. *)
Lemma trackClouds_loaded_pair_raises :
  In "1951_1960" (getAvailableYears Examples.monitor) /\
  In "1950_1959" (getAvailableYears Examples.monitor) /\
  trackClouds Examples.monitor (TermList ["a"]) 10 10
    (Some "1951_1960") (Some "1950_1959") 0 1 true false "adaptive" None
  = Raise (KeyError "Key 1950_1959 not a valid model index").
Proof.
  split; [right; left; reflexivity|].
  split; [left; reflexivity|].
  vm_compute. reflexivity.
Qed.

Lemma trackClouds_range_witness :
  exists yT yL,
    trackClouds Examples.monitor (TermList ["a"]) 10 10
      (Some "1950_1959") (Some "1951_1960") 0 1 true false "non-adaptive"
      None = Ok (yT, yL) /\
    keys yT = ["1950_1959"] /\ keys yL = ["1950_1959"].
Proof.
  destruct (trackClouds_range Examples.monitor (TermList ["a"]) 10 10
              (Some "1950_1959") (Some "1951_1960") 0 1 true false
              "non-adaptive" None monitor_sorted)
    as [_ [_ [Hvalid _]]].
  destruct (Hvalid (or_intror eq_refl) eq_refl)
    as [yT [yL [Hrun [HT [HL _]]]]].
  exists yT, yL. split; [exact Hrun|]. split; [exact HT|exact HL].
Defined.

Lemma trackClouds_seed_sets_witness :
  (exists yT yL,
      trackClouds Examples.monitor (OneTerm "a") 10 10 None None 0 1 true
        false "adaptive" None = Ok (yT, yL) /\
      exists m terms1,
        sd_get (_models Examples.monitor) "1951_1960" = Some m /\
        sd_get yT "1950_1959" = Some terms1 /\
        sd_get yT "1951_1960"
        = Some (fst (fst (_trackInlink m (map fst terms1) 10 10 0 1 false
                            None)))).
Proof.
  destruct (trackClouds_seed_sets Examples.monitor (OneTerm "a") 10 10
              None None 0 1 true false None
              ["1950_1959"; "1951_1960"] monitor_sorted eq_refl)
    as [[yT [yL [Hrun [_ Hnext]]]] _].
  exists yT, yL. split; [exact Hrun|].
  destruct (Hnext [] "1950_1959" "1951_1960" [] eq_refl)
    as [m [terms1 [Hm [H1 [H2 _]]]]].
  exists m, terms1. split; [exact Hm|]. split; [exact H1|exact H2].
Defined.

(** C4 on the example: ["foo"] is not an algorithm; over the empty range
    from a key to itself the call returns two empty results, and over the
    two periods it raises. *)
Theorem trackClouds_unsupported_empty_range :
  ~ supported "foo" /\
  trackClouds Examples.monitor (TermList ["a"]) 10 10
    (Some "1950_1959") (Some "1950_1959") 0 1 true false "foo" None
  = Ok ([], []) /\
  trackClouds Examples.monitor (TermList ["a"]) 10 10 None None 0 1
    true false "foo" None
  = Raise (Exception "Algorithm not supported: foo").
Proof.
  split; [intros [H|H]; discriminate|].
  split; vm_compute; reflexivity.
Qed.

(** C3 on the example.  With the seeds ["a"] and ["b"], the weight of a
    seed that is the neighbour of the other one is [wordBoost] plus one
    reward when the other seed is processed after it, and [wordBoost] alone
    when the other seed is processed before it: the boost is assigned, not
    added, and erases what the seed had been given. *)
Theorem seed_weight_depends_on_order :
  let q_ab := _getRelatedTerms Examples.model_ab ["a"; "b"] 10 None in
  let q_ba := _getRelatedTerms Examples.model_ba ["a"; "b"] 10 None in
  q_ab = [("a", [("b", 0.9%float)]); ("b", [("c", 0.8%float)])] /\
  q_ba = [("a", [("c", 0.8%float)]); ("b", [("a", 0.9%float)])] /\
  dict_get (fst (accumulate 0 1 default_reward q_ab)) "b" = Some 1%float /\
  specified_weight 0 1 default_reward q_ab "b" = 2%float /\
  dict_get (fst (accumulate 0 1 default_reward q_ba)) "a" = Some 2%float /\
  specified_weight 0 1 default_reward q_ba "a" = 2%float.
Proof.
  cbv zeta. repeat split; vm_compute; reflexivity.
Qed.

End TrackCloudsExamples.

(** ** The expansion of one period *)

Section ExpansionFacts.

Import Vocabularymonitor.

Lemma survivors_split (minSim : float) (newTerms : pairs) :
  exists dropped,
    newTerms = survivors minSim newTerms ++ dropped /\
    (dropped = [] \/
     exists n rest, dropped = n :: rest /\ (snd n <? minSim)%float = true).
Proof.
  induction newTerms as [|n rest IH].
  - exists []. split; [reflexivity|left; reflexivity].
  - cbn [survivors]. destruct (snd n <? minSim)%float eqn:E.
    + exists (n :: rest). split; [reflexivity|].
      right. exists n, rest. split; [reflexivity|exact E].
    + destruct IH as [dropped [Heq Hd]]. exists dropped.
      split; [cbn; congruence|exact Hd].
Qed.

Lemma survivors_pass (minSim : float) (newTerms : pairs) :
  Forall (fun n => (snd n <? minSim)%float = false) (survivors minSim newTerms).
Proof.
  induction newTerms as [|n rest IH]; cbn [survivors].
  - constructor.
  - destruct (snd n <? minSim)%float eqn:E; constructor; assumption.
Qed.

(** The inner loop is the loop without test over the survivors. *)
Lemma newTerms_for_survivors (minSim : float) (reward : float -> float)
    (term : string) (newTerms : pairs) (st : accum) :
  newTerms_for minSim reward term newTerms st
  = fold_left (contribute reward term) (survivors minSim newTerms) st.
Proof.
  revert st. induction newTerms as [|[newTerm tSim] rest IH]; intros st.
  - reflexivity.
  - cbn [newTerms_for survivors snd].
    destruct (tSim <? minSim)%float; [reflexivity|].
    cbn [fold_left]. apply IH.
Qed.

(** C7.  For a seed [term] with the neighbour list [newTerms], the list
    splits into [kept], where no similarity is below [minSim], and
    [dropped], which is empty or starts with a neighbour below [minSim];
    after the link of the seed to itself and its boost, exactly the
    neighbours of [kept] add their reward and their link.  So in the list
    of similarities 0.9, 0.1, 0.8 with the threshold 0.5 only the first
    neighbour counts: the third is above the threshold and is left out. *)
Theorem query_step_prefix_cutoff :
  (forall (minSim wordBoost : float) (reward : float -> float)
          (dRelatedTerms : dict float) (links : dict pairs)
          (term : string) (newTerms : pairs),
      exists kept dropped,
        newTerms = kept ++ dropped /\
        Forall (fun n => (snd n <? minSim)%float = false) kept /\
        (dropped = [] \/
         exists n rest,
           dropped = n :: rest /\ (snd n <? minSim)%float = true) /\
        query_step minSim wordBoost reward (dRelatedTerms, links)
          (term, newTerms)
        = fold_left (contribute reward term) kept
            (dict_set dRelatedTerms term wordBoost,
             dict_set links term
               (dict_get_default links term [] ++ [(term, 0%float)]))) /\
  query_step 0.5 1 default_reward ([], [])
    ("s", [("a", 0.9%float); ("b", 0.1%float); ("c", 0.8%float)])
  = ([("s", 1%float); ("a", 1%float)],
     [("s", [("s", 0%float); ("a", 0.9%float)])]).
Proof.
  split; [|vm_compute; reflexivity].
  intros minSim wordBoost reward dRelatedTerms links term newTerms.
  destruct (survivors_split minSim newTerms) as [dropped [Heq Hd]].
  exists (survivors minSim newTerms), dropped.
  split; [exact Heq|]. split; [apply survivors_pass|].
  split; [exact Hd|].
  cbn [query_step]. apply newTerms_for_survivors.
Qed.

End ExpansionFacts.

(** ** The queries of the seeds *)

Section QueryFacts.

Import Vocabularymonitor.

Lemma str_ltb_false_trans (a b c : string) :
  str_ltb b a = false -> str_ltb c b = false -> str_ltb c a = false.
Proof.
  intros Hba Hcb. destruct (str_ltb c a) eqn:Hca; [|reflexivity].
  apply str_ltb_lt in Hca.
  destruct (String_as_OT.compare_spec a b) as [E|L|G].
  - red in E. subst b. apply str_ltb_lt in Hca. congruence.
  - pose proof (str_lt_trans _ _ _ Hca L) as Hcb'.
    apply str_ltb_lt in Hcb'. congruence.
  - apply str_ltb_lt in G. congruence.
Qed.

Lemma insert_query_In (q : query) (l : list query) (x : query) :
  In x (insert_query q l) <-> x = q \/ In x l.
Proof.
  induction l as [|q' l IH]; cbn [insert_query].
  - cbn. intuition.
  - destruct (str_ltb (fst q') (fst q)); cbn [In] in *.
    + rewrite IH. intuition.
    + intuition.
Qed.

Lemma sort_queries_In (l : list query) (x : query) :
  In x (sort_queries l) <-> In x l.
Proof.
  induction l as [|q l IH]; [reflexivity|].
  cbn [sort_queries fold_right]. fold (sort_queries l).
  rewrite insert_query_In, IH. cbn. intuition.
Qed.

Lemma insert_query_sorted (q : query) (l : list query) :
  StronglySorted query_le l -> StronglySorted query_le (insert_query q l).
Proof.
  induction 1 as [|q' l Hs IH Hall]; cbn [insert_query].
  - constructor; constructor.
  - destruct (str_ltb (fst q') (fst q)) eqn:E.
    + constructor; [exact IH|].
      apply Forall_forall. intros x Hx. apply insert_query_In in Hx.
      destruct Hx as [->|Hx].
      * unfold query_le. destruct (str_ltb (fst q) (fst q')) eqn:E'.
        -- apply str_ltb_lt in E, E'.
           destruct (str_lt_irrefl _ (str_lt_trans _ _ _ E E')).
        -- reflexivity.
      * rewrite Forall_forall in Hall. apply Hall, Hx.
    + constructor; [constructor; assumption|].
      constructor; [exact E|].
      eapply Forall_impl; [|exact Hall]. cbn. unfold query_le.
      intros x Hx. exact (str_ltb_false_trans _ _ _ E Hx).
Qed.

Lemma sort_queries_sorted (l : list query) :
  StronglySorted query_le (sort_queries l).
Proof.
  induction l as [|q l IH]; [constructor|].
  cbn [sort_queries fold_right]. apply insert_query_sorted, IH.
Qed.

Lemma insert_query_first (q : query) (l : list query) :
  Forall (query_le q) l -> insert_query q l = q :: l.
Proof.
  intros H. destruct H as [|q' l Hq _]; [reflexivity|].
  cbn [insert_query]. unfold query_le in Hq. rewrite Hq. reflexivity.
Qed.

(** A filter goes through the insertion into a sorted list. *)
Lemma filter_insert_query (p : query -> bool) (q : query) (l : list query) :
  StronglySorted query_le l ->
  filter p (insert_query q l)
  = if p q then insert_query q (filter p l) else filter p l.
Proof.
  induction 1 as [|q' l Hs IH Hall]; cbn [insert_query filter].
  - destruct (p q); reflexivity.
  - destruct (str_ltb (fst q') (fst q)) eqn:E; cbn [filter].
    + rewrite IH. destruct (p q'), (p q); try reflexivity.
      cbn [insert_query]. rewrite E. reflexivity.
    + destruct (p q) eqn:Pq; [|reflexivity].
      assert (Hq : Forall (query_le q) (q' :: l)).
      { constructor; [exact E|].
        eapply Forall_impl; [|exact Hall]. cbn. unfold query_le.
        intros x Hx. exact (str_ltb_false_trans _ _ _ E Hx). }
      change (q :: filter p (q' :: l) = insert_query q (filter p (q' :: l))).
      symmetry. apply insert_query_first.
      rewrite Forall_forall in *. intros x Hx. apply filter_In in Hx.
      apply Hq, Hx.
Qed.

Lemma filter_sort_queries (p : query -> bool) (l : list query) :
  filter p (sort_queries l) = sort_queries (filter p l).
Proof.
  induction l as [|q l IH]; [reflexivity|].
  cbn [sort_queries fold_right filter]. fold (sort_queries l).
  rewrite filter_insert_query by apply sort_queries_sorted.
  rewrite IH. destruct (p q); reflexivity.
Qed.

Variable model : W2VModel.
Variable maxRelatedTerms : nat.
Variable cleaningFunction : option cleaner.

(** What the thread of one seed appends. *)
Let entry (term : string) : list query :=
  _getRelatedTermsThread model term maxRelatedTerms [] cleaningFunction.

Lemma _getRelatedTermsThread_appends (term : string) (queries : list query) :
  _getRelatedTermsThread model term maxRelatedTerms queries cleaningFunction
  = queries ++ entry term.
Proof.
  subst entry. unfold _getRelatedTermsThread.
  destruct (bind _ _) as [newTerms|[]]; cbn [app];
    try reflexivity; rewrite app_nil_r; reflexivity.
Qed.

Lemma entry_term (term : string) (q : query) :
  In q (entry term) -> fst q = term.
Proof.
  subst entry. unfold _getRelatedTermsThread.
  destruct (bind _ _) as [newTerms|[]]; cbn;
    intros H; try destruct H as [<-|[]]; try reflexivity; destruct H.
Qed.

Lemma entry_unknown (u : string) :
  (exists msg, most_similar model u maxRelatedTerms = Raise (KeyError msg)) ->
  entry u = [(u, [])].
Proof.
  intros [msg H]. subst entry. unfold _getRelatedTermsThread.
  rewrite H. reflexivity.
Qed.

Lemma _getRelatedTerms_flat_map (seedTerms : list string) :
  _getRelatedTerms model seedTerms maxRelatedTerms cleaningFunction
  = sort_queries (flat_map entry seedTerms).
Proof.
  unfold _getRelatedTerms. f_equal.
  change (flat_map entry seedTerms) with ([] ++ flat_map entry seedTerms).
  generalize (@nil query) as acc.
  induction seedTerms as [|t seedTerms IH]; intros acc.
  - cbn. rewrite app_nil_r. reflexivity.
  - cbn [fold_left flat_map]. rewrite IH, _getRelatedTermsThread_appends.
    rewrite <- app_assoc. reflexivity.
Qed.

Lemma filter_entries (u : string) (seedTerms : list string) :
  filter (fun q : query => negb (String.eqb (fst q) u))
    (flat_map entry seedTerms)
  = flat_map entry (filter (fun t => negb (String.eqb t u)) seedTerms).
Proof.
  induction seedTerms as [|t seedTerms IH]; [reflexivity|].
  cbn [flat_map filter]. rewrite filter_app, IH.
  assert (H : filter (fun q : query => negb (String.eqb (fst q) u)) (entry t)
              = if negb (String.eqb t u) then entry t else []).
  { pose proof (entry_term t) as Ht.
    induction (entry t) as [|q l IHl].
    - destruct (negb (String.eqb t u)); reflexivity.
    - cbn [filter]. rewrite (Ht q (or_introl eq_refl)).
      rewrite IHl by (intros x Hx; apply Ht; right; exact Hx).
      destruct (negb (String.eqb t u)); reflexivity. }
  rewrite H. destruct (negb (String.eqb t u)); reflexivity.
Qed.

End QueryFacts.

(** ** The links of the seeds *)

Section LinkFacts.

Import Vocabularymonitor.

Lemma keys_dict_set {V : Type} (d : dict V) (k : string) (v : V) (x : string) :
  In x (keys (dict_set d k v)) <-> x = k \/ In x (keys d).
Proof.
  induction d as [|[k' v'] d IH]; cbn [dict_set].
  - cbn. intuition.
  - destruct (String.eqb_spec k' k) as [->|NE]; cbn [keys map fst In] in *.
    + intuition.
    + rewrite IH. intuition.
Qed.

Variables minSim wordBoost : float.
Variable reward : float -> float.

Lemma contribute_links (term : string) (st : accum) (n : string * float)
    (x : string) :
  In term (keys (snd st)) ->
  (In x (keys (snd (contribute reward term st n))) <-> In x (keys (snd st))).
Proof.
  intros Hin. destruct st as [d links]. destruct n as [newTerm tSim].
  cbn [contribute snd] in *. rewrite keys_dict_set.
  split; [intros [->|H]; assumption|intros H; right; exact H].
Qed.

Lemma newTerms_for_links (term : string) (newTerms : pairs) (st : accum)
    (x : string) :
  In term (keys (snd st)) ->
  (In x (keys (snd (newTerms_for minSim reward term newTerms st)))
   <-> In x (keys (snd st))).
Proof.
  revert st. induction newTerms as [|[newTerm tSim] rest IH]; intros st Hin.
  - reflexivity.
  - cbn [newTerms_for]. destruct (tSim <? minSim)%float; [reflexivity|].
    rewrite IH.
    + apply contribute_links, Hin.
    + apply contribute_links; exact Hin.
Qed.

Lemma query_step_links (st : accum) (q : query) (x : string) :
  In x (keys (snd (query_step minSim wordBoost reward st q)))
  <-> x = fst q \/ In x (keys (snd st)).
Proof.
  destruct st as [d links]. destruct q as [term newTerms].
  cbn [query_step fst snd]. rewrite newTerms_for_links.
  - cbn [snd]. apply keys_dict_set.
  - cbn [snd]. apply keys_dict_set. left. reflexivity.
Qed.

(** Every query leaves its term among the keys of the links. *)
Lemma accumulate_links (queries : list query) (st : accum) (x : string) :
  In x (keys (snd (fold_left (query_step minSim wordBoost reward) queries st)))
  <-> In x (map fst queries) \/ In x (keys (snd st)).
Proof.
  revert st. induction queries as [|q queries IH]; intros st.
  - cbn. intuition.
  - cbn [fold_left map In]. rewrite IH, query_step_links. intuition.
Qed.

End LinkFacts.

Section UnknownSeed.

Import Vocabularymonitor.

Variable model : W2VModel.
Variable seedTerms : list string.
Variables maxTerms maxRelatedTerms : nat.
Variables minSim wordBoost : float.
Variable reward : float -> float.
Variable cleaningFunction : option cleaner.

(** A model that differs only in that it knows [u], with no neighbour,
    gives the same queries, when the cleaning function, if there is one,
    keeps the empty list empty. *)
Lemma _getRelatedTerms_unknown_as_empty (u : string) (model' : W2VModel) :
  (exists msg, most_similar model u maxRelatedTerms = Raise (KeyError msg)) ->
  (forall t, t <> u ->
             most_similar model' t maxRelatedTerms
             = most_similar model t maxRelatedTerms) ->
  most_similar model' u maxRelatedTerms = Ok [] ->
  (forall f, cleaningFunction = Some f -> f [] = Ok []) ->
  _getRelatedTerms model' seedTerms maxRelatedTerms cleaningFunction
  = _getRelatedTerms model seedTerms maxRelatedTerms cleaningFunction.
Proof.
  intros [msg Hu] Hagree Hu' Hclean.
  rewrite !_getRelatedTerms_flat_map. f_equal.
  apply flat_map_ext. intros t. unfold _getRelatedTermsThread.
  destruct (String.eqb_spec t u) as [->|NE].
  - rewrite Hu, Hu'. cbn [bind].
    destruct cleaningFunction as [f|]; [|reflexivity].
    rewrite (Hclean f eq_refl). reflexivity.
  - rewrite (Hagree t NE). reflexivity.
Qed.

(** C9.  Let the model raise [KeyError] for the seed [u].  The expansion
    returns all the same.  The queries hold [u] with the empty neighbour
    list and with no other list; the queries of the other seeds are those
    of the seed set without [u]; [u] is a key of the links returned; and
    the expansion is the one of a model that knows [u] with no neighbour
    and agrees on every other term (the cleaning function, if there is
    one, keeping the empty list empty). *)
Theorem unknown_seed_isolated (u : string) :
  (exists msg, most_similar model u maxRelatedTerms = Raise (KeyError msg)) ->
  In u seedTerms ->
  let queries :=
    _getRelatedTerms model seedTerms maxRelatedTerms cleaningFunction in
  In (u, []) queries /\
  (forall newTerms, In (u, newTerms) queries -> newTerms = []) /\
  filter (fun q : query => negb (String.eqb (fst q) u)) queries
  = _getRelatedTerms model
      (filter (fun t => negb (String.eqb t u)) seedTerms)
      maxRelatedTerms cleaningFunction /\
  (exists topTerms links,
      _trackCore model seedTerms maxTerms maxRelatedTerms minSim wordBoost
        reward cleaningFunction = (topTerms, links) /\
      In u (keys links)) /\
  (forall model',
      (forall t, t <> u ->
                 most_similar model' t maxRelatedTerms
                 = most_similar model t maxRelatedTerms) ->
      most_similar model' u maxRelatedTerms = Ok [] ->
      (forall f, cleaningFunction = Some f -> f [] = Ok []) ->
      _trackCore model' seedTerms maxTerms maxRelatedTerms minSim wordBoost
        reward cleaningFunction
      = _trackCore model seedTerms maxTerms maxRelatedTerms minSim wordBoost
          reward cleaningFunction).
Proof.
  intros Hu Hin queries.
  assert (Hsame : forall model',
    (forall t, t <> u ->
               most_similar model' t maxRelatedTerms
               = most_similar model t maxRelatedTerms) ->
    most_similar model' u maxRelatedTerms = Ok [] ->
    (forall f, cleaningFunction = Some f -> f [] = Ok []) ->
    _trackCore model' seedTerms maxTerms maxRelatedTerms minSim wordBoost
      reward cleaningFunction
    = _trackCore model seedTerms maxTerms maxRelatedTerms minSim wordBoost
        reward cleaningFunction).
  { intros model' Hagree Hu' Hclean. unfold _trackCore.
    rewrite (_getRelatedTerms_unknown_as_empty u model' Hu Hagree Hu' Hclean).
    reflexivity. }
  pose proof (entry_unknown model maxRelatedTerms cleaningFunction u Hu)
    as Hentry.
  assert (Hq : In (u, []) queries).
  { subst queries. rewrite _getRelatedTerms_flat_map.
    apply sort_queries_In, in_flat_map. exists u.
    split; [exact Hin|]. rewrite Hentry. left. reflexivity. }
  split; [exact Hq|]. split; [|split; [|split; [|exact Hsame]]].
  - intros newTerms H. subst queries.
    rewrite _getRelatedTerms_flat_map in H.
    apply sort_queries_In, in_flat_map in H. destruct H as [t [_ Ht]].
    pose proof (entry_term model maxRelatedTerms cleaningFunction t _ Ht)
      as E.
    cbn [fst] in E. subst t. rewrite Hentry in Ht.
    destruct Ht as [E|[]]. congruence.
  - subst queries. rewrite !_getRelatedTerms_flat_map.
    rewrite filter_sort_queries, filter_entries. reflexivity.
  - unfold _trackCore. fold queries. unfold accumulate.
    destruct (fold_left (query_step minSim wordBoost reward) queries ([], []))
      as [d links] eqn:Hacc.
    eexists _, _. split; [reflexivity|].
    unfold keys. rewrite map_map. cbn [fst].
    change (In u (keys links)).
    replace links with
      (snd (fold_left (query_step minSim wordBoost reward) queries ([], [])))
      by (rewrite Hacc; reflexivity).
    apply accumulate_links. left.
    change u with (fst (u, @nil (string * float))).
    apply in_map, Hq.
Qed.

End UnknownSeed.

Lemma unknown_seed_isolated_witness :
  let queries :=
    Vocabularymonitor._getRelatedTerms Examples.model_ab ["b"; "zz"; "a"] 10
      None in
  In ("zz", []) queries /\
  (forall newTerms, In ("zz", newTerms) queries -> newTerms = []) /\
  filter (fun q : Vocabularymonitor.query => negb (String.eqb (fst q) "zz"))
    queries
  = Vocabularymonitor._getRelatedTerms Examples.model_ab
      (filter (fun t => negb (String.eqb t "zz")) ["b"; "zz"; "a"]) 10 None /\
  exists topTerms links,
    Vocabularymonitor._trackCore Examples.model_ab ["b"; "zz"; "a"] 2 10 0 1
      Vocabularymonitor.default_reward None = (topTerms, links) /\
    In "zz" (keys links).
Proof.
  destruct (unknown_seed_isolated Examples.model_ab ["b"; "zz"; "a"] 2 10 0 1
              Vocabularymonitor.default_reward None "zz")
    as [H1 [H2 [H3 [H4 _]]]].
  - exists "zz". reflexivity.
  - right. left. reflexivity.
  - split; [exact H1|]. split; [exact H2|]. split; [exact H3|exact H4].
Defined.

(** * Further properties *)

(** ** Dictionaries *)

Section DictFacts.

Context {V : Type}.

Lemma dict_get_set (d : dict V) (k k' : string) (v : V) :
  dict_get (dict_set d k v) k'
  = if String.eqb k k' then Some v else dict_get d k'.
Proof.
  induction d as [|[k0 v0] d IH]; cbn [dict_set dict_get].
  - reflexivity.
  - destruct (String.eqb_spec k0 k) as [->|NE]; cbn [dict_get].
    + destruct (String.eqb k k'); reflexivity.
    + rewrite IH. destruct (String.eqb_spec k0 k') as [->|NE'];
        [|reflexivity].
      destruct (String.eqb_spec k k'); [congruence|reflexivity].
Qed.

Lemma dict_set_NoDup (d : dict V) (k : string) (v : V) :
  NoDup (keys d) -> NoDup (keys (dict_set d k v)).
Proof.
  induction d as [|[k0 v0] d IH]; cbn [dict_set keys map fst]; intros H.
  - constructor; [intros []|constructor].
  - inversion H as [|? ? Hnin Hnd]; subst.
    destruct (String.eqb_spec k0 k) as [->|NE]; cbn [map fst].
    + constructor; assumption.
    + constructor; [|apply IH, Hnd].
      intros Hin. apply (keys_dict_set d k v k0) in Hin.
      destruct Hin as [E|Hin]; [congruence|exact (Hnin Hin)].
Qed.

Lemma dict_get_In (d : dict V) (k : string) (v : V) :
  dict_get d k = Some v -> In (k, v) d.
Proof.
  induction d as [|[k0 v0] d IH]; cbn [dict_get]; [discriminate|].
  destruct (String.eqb_spec k0 k) as [->|NE].
  - intros H. injection H as <-. left. reflexivity.
  - intros H. right. apply IH, H.
Qed.

Lemma In_dict_get (d : dict V) (k : string) (v : V) :
  NoDup (keys d) -> In (k, v) d -> dict_get d k = Some v.
Proof.
  induction d as [|[k0 v0] d IH]; cbn [keys map fst dict_get];
    intros Hnd Hin; [destruct Hin|].
  inversion Hnd as [|? ? Hnin Hnd']; subst.
  destruct Hin as [E|Hin].
  - injection E as -> ->. rewrite String.eqb_refl. reflexivity.
  - destruct (String.eqb_spec k0 k) as [->|NE]; [|apply IH; assumption].
    destruct Hnin. change k with (fst (k, v)). apply in_map, Hin.
Qed.

Lemma dict_get_map {U : Type} (f : V -> U) (d : dict V) (k : string) :
  dict_get (map (fun sp : string * V => (fst sp, f (snd sp))) d) k
  = option_map f (dict_get d k).
Proof.
  induction d as [|[k0 v0] d IH]; cbn [map dict_get fst snd];
    [reflexivity|].
  destruct (String.eqb k0 k); [reflexivity|exact IH].
Qed.

End DictFacts.

(** ** The vocabulary and the links of one period *)

Section CoreFacts.

Import Vocabularymonitor.

Variables minSim wordBoost : float.
Variable reward : float -> float.

Lemma contribute_weights (term : string) (st : accum) (n : string * float)
    (x : string) :
  In x (keys (fst (contribute reward term st n)))
  <-> x = fst n \/ In x (keys (fst st)).
Proof.
  destruct st as [d links]. destruct n as [newTerm tSim].
  cbn [contribute fst]. apply keys_dict_set.
Qed.

Lemma fold_contribute_weights (term : string) (l : pairs) (st : accum)
    (x : string) :
  In x (keys (fst (fold_left (contribute reward term) l st)))
  <-> In x (map fst l) \/ In x (keys (fst st)).
Proof.
  revert st. induction l as [|n l IH]; intros st.
  - cbn. intuition.
  - cbn [fold_left map In]. rewrite IH, contribute_weights. intuition.
Qed.

(** The terms that hold a weight after a query: those before, the seed of
    the query and its surviving neighbours. *)
Lemma query_step_weights (st : accum) (q : query) (x : string) :
  In x (keys (fst (query_step minSim wordBoost reward st q)))
  <-> x = fst q \/ In x (map fst (survivors minSim (snd q)))
      \/ In x (keys (fst st)).
Proof.
  destruct st as [d links]. destruct q as [term newTerms].
  cbn [query_step fst snd].
  rewrite newTerms_for_survivors, fold_contribute_weights.
  cbn [fst]. rewrite keys_dict_set. intuition.
Qed.

Lemma accumulate_weights (queries : list query) (st : accum) (x : string) :
  In x (keys (fst (fold_left (query_step minSim wordBoost reward) queries st)))
  <-> In x (map fst queries)
      \/ (exists q, In q queries /\ In x (map fst (survivors minSim (snd q))))
      \/ In x (keys (fst st)).
Proof.
  revert st. induction queries as [|q queries IH]; intros st.
  - cbn. split; [intros H; right; right; exact H|].
    intros [[]|[[q [[] _]]|H]]. exact H.
  - cbn [fold_left map In]. rewrite IH, query_step_weights. split.
    + intros [H|[[q' [Hq Hx]]|[H|[H|H]]]].
      * left. right. exact H.
      * right. left. exists q'. split; [right; exact Hq|exact Hx].
      * left. left. symmetry. exact H.
      * right. left. exists q. split; [left; reflexivity|exact H].
      * right. right. exact H.
    + intros [[H|H]|[[q' [[E|Hq] Hx]]|H]].
      * right. right. left. symmetry. exact H.
      * left. exact H.
      * subst q'. right. right. right. left. exact Hx.
      * right. left. exists q'. split; assumption.
      * right. right. right. right. exact H.
Qed.

Lemma contribute_NoDup (term : string) (st : accum) (n : string * float) :
  accum_NoDup st -> accum_NoDup (contribute reward term st n).
Proof.
  destruct st as [d links]. destruct n as [newTerm tSim].
  intros [H1 H2]. split; cbn [contribute fst snd] in *;
    apply dict_set_NoDup; assumption.
Qed.

Lemma fold_contribute_NoDup (term : string) (l : pairs) (st : accum) :
  accum_NoDup st -> accum_NoDup (fold_left (contribute reward term) l st).
Proof.
  revert st. induction l as [|n l IH]; intros st H; [exact H|].
  cbn [fold_left]. apply IH, contribute_NoDup, H.
Qed.

Lemma query_step_NoDup (st : accum) (q : query) :
  accum_NoDup st -> accum_NoDup (query_step minSim wordBoost reward st q).
Proof.
  destruct st as [d links]. destruct q as [term newTerms].
  intros [H1 H2]. cbn [query_step fst snd] in *.
  rewrite newTerms_for_survivors. apply fold_contribute_NoDup.
  split; cbn [fst snd]; apply dict_set_NoDup; assumption.
Qed.

Lemma accumulate_NoDup (queries : list query) :
  accum_NoDup (accumulate minSim wordBoost reward queries).
Proof.
  unfold accumulate.
  assert (H : accum_NoDup (@nil (string * float), @nil (string * pairs))).
  { split; constructor. }
  revert H. generalize (@nil (string * float), @nil (string * pairs)).
  induction queries as [|q queries IH]; intros st H; [exact H|].
  cbn [fold_left]. apply IH, query_step_NoDup, H.
Qed.

(** The links of a seed after its neighbours were added. *)
Lemma fold_contribute_links_get (term : string) (l : pairs)
    (d : dict float) (links : dict pairs) (old : pairs) (s : string) :
  dict_get links term = Some old ->
  dict_get (snd (fold_left (contribute reward term) l (d, links))) s
  = if String.eqb term s then Some (old ++ l) else dict_get links s.
Proof.
  revert d links old. induction l as [|[newTerm tSim] l IH];
    intros d links old Hold.
  - cbn [fold_left snd]. rewrite app_nil_r.
    destruct (String.eqb_spec term s) as [<-|_]; [exact Hold|reflexivity].
  - cbn [fold_left contribute].
    unfold dict_get_default at 2. rewrite Hold.
    rewrite (IH _ _ (old ++ [(newTerm, tSim)])).
    + rewrite dict_get_set, <- app_assoc.
      destruct (String.eqb term s); reflexivity.
    + rewrite dict_get_set, String.eqb_refl. reflexivity.
Qed.

Lemma query_step_links_from (all : list query) (st : accum) (q : query) :
  In q all -> links_from minSim all (snd st) ->
  links_from minSim all (snd (query_step minSim wordBoost reward st q)).
Proof.
  destruct st as [d links]. destruct q as [term newTerms].
  intros Hq Hinv s ps Hget p Hp. cbn [query_step snd] in *.
  rewrite newTerms_for_survivors in Hget.
  rewrite (fold_contribute_links_get term _ _ _
             (dict_get_default links term [] ++ [(term, 0%float)])) in Hget
    by (rewrite dict_get_set, String.eqb_refl; reflexivity).
  destruct (String.eqb_spec term s) as [<-|NE].
  - injection Hget as <-.
    apply in_app_or in Hp. destruct Hp as [Hp|Hp].
    + apply in_app_or in Hp. destruct Hp as [Hp|[<-|[]]].
      * unfold dict_get_default in Hp.
        destruct (dict_get links term) as [old|] eqn:Hold; [|destruct Hp].
        exact (Hinv term old Hold p Hp).
      * left. reflexivity.
    + right. exists newTerms. split; assumption.
  - rewrite dict_get_set in Hget.
    destruct (String.eqb_spec term s); [congruence|].
    exact (Hinv s ps Hget p Hp).
Qed.

Lemma accumulate_links_from (queries : list query) :
  links_from minSim queries (snd (accumulate minSim wordBoost reward queries)).
Proof.
  unfold accumulate.
  assert (H : links_from minSim queries
                (snd (@nil (string * float), @nil (string * pairs)))).
  { intros s ps Hget. discriminate. }
  assert (Hincl : incl queries queries) by apply incl_refl.
  revert H Hincl.
  generalize (@nil (string * float), @nil (string * pairs)).
  generalize queries at 1 3 4 as all.
  induction queries as [|q queries IH]; intros all st H Hincl; [exact H|].
  cbn [fold_left]. apply IH.
  - apply query_step_links_from; [apply Hincl; left; reflexivity|exact H].
  - intros x Hx. apply Hincl. right. exact Hx.
Qed.

End CoreFacts.

Section MostCommonFacts.

Import Vocabularymonitor.

Lemma insert_desc_perm (x : string * float) (l : pairs) :
  Permutation (insert_desc x l) (x :: l).
Proof.
  induction l as [|y l IH]; cbn [insert_desc]; [reflexivity|].
  destruct (snd x <? snd y)%float; [|reflexivity].
  rewrite IH. apply perm_swap.
Qed.

Lemma sort_desc_perm (l : pairs) :
  Permutation (fold_right insert_desc [] l) l.
Proof.
  induction l as [|x l IH]; [reflexivity|].
  cbn [fold_right]. rewrite insert_desc_perm, IH. reflexivity.
Qed.

Lemma NoDup_firstn {A : Type} (n : nat) (l : list A) :
  NoDup l -> NoDup (firstn n l).
Proof.
  intros H. rewrite <- (firstn_skipn n l) in H.
  exact (NoDup_app_remove_r _ _ H).
Qed.

Lemma In_firstn {A : Type} (n : nat) (l : list A) (x : A) :
  In x (firstn n l) -> In x l.
Proof.
  intros H. rewrite <- (firstn_skipn n l). apply in_or_app. left. exact H.
Qed.

Lemma most_common_In (d : dict float) (N : nat) (p : string * float) :
  In p (most_common d N) -> In p d.
Proof.
  unfold most_common. intros H. apply In_firstn in H.
  exact (Permutation_in _ (sort_desc_perm d) H).
Qed.

Lemma most_common_NoDup (d : dict float) (N : nat) :
  NoDup (keys d) -> NoDup (map fst (most_common d N)).
Proof.
  intros H. unfold most_common. rewrite <- firstn_map. apply NoDup_firstn.
  refine (Permutation_NoDup _ H).
  apply Permutation_map, Permutation_sym, sort_desc_perm.
Qed.

Lemma most_common_length (d : dict float) (N : nat) :
  List.length (most_common d N) = Nat.min N (List.length d).
Proof.
  unfold most_common. rewrite length_firstn.
  rewrite (Permutation_length (sort_desc_perm d)). reflexivity.
Qed.

Lemma most_common_all (d : dict float) (N : nat) :
  List.length d <= N -> Permutation (most_common d N) d.
Proof.
  intros H. unfold most_common. rewrite firstn_all2.
  - apply sort_desc_perm.
  - rewrite (Permutation_length (sort_desc_perm d)). exact H.
Qed.

End MostCommonFacts.

Section TrackCoreFacts.

Import Vocabularymonitor.

Variable model : W2VModel.
Variable seedTerms : list string.
Variables maxTerms maxRelatedTerms : nat.
Variables minSim wordBoost : float.
Variable reward : float -> float.
Variable cleaningFunction : option cleaner.

(** Every query is the query of a seed. *)
Lemma _getRelatedTerms_seed (q : query) :
  In q (_getRelatedTerms model seedTerms maxRelatedTerms cleaningFunction) ->
  In (fst q) seedTerms.
Proof.
  rewrite _getRelatedTerms_flat_map. intros H.
  apply sort_queries_In, in_flat_map in H. destruct H as [t [Ht Hq]].
  apply entry_term in Hq. rewrite Hq. exact Ht.
Qed.

(** The shape of what [_trackCore] returns. *)
Lemma _trackCore_shape :
  let queries :=
    _getRelatedTerms model seedTerms maxRelatedTerms cleaningFunction in
  let r := _trackCore model seedTerms maxTerms maxRelatedTerms minSim
             wordBoost reward cleaningFunction in
  NoDup (map fst (fst r)) /\
  List.length (fst r) <= maxTerms /\
  (forall t, In t (map fst (fst r)) ->
     In t (map fst queries)
     \/ exists q, In q queries /\ In t (map fst (survivors minSim (snd q)))) /\
  NoDup (keys (snd r)) /\
  (forall s, In s (keys (snd r)) <-> In s (map fst queries)) /\
  (forall s ps, In (s, ps) (snd r) ->
   forall p, In p ps ->
     In (fst p) (map fst (fst r)) /\
     (p = (s, 0%float)
      \/ exists newTerms, In (s, newTerms) queries
                          /\ In p (survivors minSim newTerms))).
Proof.
  intros queries r. subst r. unfold _trackCore. fold queries.
  pose proof (accumulate_NoDup minSim wordBoost reward queries) as [Hd Hl].
  pose proof (accumulate_links_from minSim wordBoost reward queries) as Hfrom.
  pose proof (accumulate_weights minSim wordBoost reward queries ([], []))
    as Hw.
  pose proof (accumulate_links minSim wordBoost reward queries ([], []))
    as Hk.
  fold (accumulate minSim wordBoost reward queries) in Hw, Hk.
  destruct (accumulate minSim wordBoost reward queries) as [d links].
  cbn [fst snd] in *. unfold _getCommonTerms.
  split; [apply most_common_NoDup, Hd|].
  split; [rewrite most_common_length; apply Nat.le_min_l|].
  split.
  { intros t Ht. apply in_map_iff in Ht. destruct Ht as [p [<- Hp]].
    apply most_common_In in Hp.
    assert (Hin : In (fst p) (keys d)) by (apply in_map, Hp).
    apply Hw in Hin. destruct Hin as [H|[H|[]]]; [left|right]; exact H. }
  assert (Hkeys : keys (map (fun sp : string * pairs =>
                               (fst sp,
                                _pruned (snd sp)
                                  (map fst (most_common d maxTerms)))) links)
                  = keys links).
  { unfold keys. rewrite map_map. reflexivity. }
  split; [rewrite Hkeys; exact Hl|].
  split.
  { intros s. rewrite Hkeys, Hk. cbn. intuition. }
  intros s ps Hin p Hp. apply in_map_iff in Hin.
  destruct Hin as [[s' raw] [E Hraw]]. cbn [fst snd] in E.
  injection E as -> <-. unfold _pruned in Hp. apply filter_In in Hp.
  destruct Hp as [Hp Hsel]. split; [apply contains_In, Hsel|].
  apply (Hfrom s raw); [|exact Hp]. apply In_dict_get; assumption.
Qed.

End TrackCoreFacts.

(** ** The order of the weights *)

Section FloatOrder.

Import SpecFloat.

Lemma SFcompare_Lt_Gt (x y : spec_float) :
  SFcompare x y = Some Lt -> SFcompare y x = Some Gt.
Proof.
  destruct x as [s1|s1| |s1 m1 e1], y as [s2|s2| |s2 m2 e2]; cbn;
    try destruct s1; try destruct s2; try discriminate; try reflexivity.
  - rewrite (Z.compare_antisym e1 e2).
    pose proof (Pos.compare_cont_antisym m1 m2 Eq) as A.
    cbn [CompOpp] in A. rewrite <- A.
    destruct (e1 ?= e2)%Z; cbn; try discriminate; try reflexivity.
    destruct (Pos.compare_cont Eq m1 m2); cbn; try discriminate; reflexivity.
  - rewrite (Z.compare_antisym e1 e2).
    pose proof (Pos.compare_cont_antisym m1 m2 Eq) as A.
    cbn [CompOpp] in A. rewrite <- A.
    destruct (e1 ?= e2)%Z; cbn; try discriminate; try reflexivity.
    destruct (Pos.compare_cont Eq m1 m2); cbn; try discriminate; reflexivity.
Qed.

(** [<] on floats is asymmetric. *)
Lemma float_ltb_asym (x y : float) :
  (x <? y)%float = true -> (y <? x)%float = false.
Proof.
  rewrite !FloatAxioms.ltb_spec. unfold SFltb.
  destruct (SFcompare (Prim2SF x) (Prim2SF y)) as [[]|] eqn:E;
    try discriminate.
  intros _. rewrite (SFcompare_Lt_Gt _ _ E). reflexivity.
Qed.

End FloatOrder.

Section DescendingFacts.

Import Vocabularymonitor.

Lemma insert_desc_HdRel (y x : string * float) (l : pairs) :
  HdRel not_heavier y l -> not_heavier y x ->
  HdRel not_heavier y (insert_desc x l).
Proof.
  intros Hl Hx. destruct l as [|z l]; cbn [insert_desc].
  - constructor. exact Hx.
  - destruct (snd x <? snd z)%float.
    + constructor. inversion Hl; assumption.
    + constructor. exact Hx.
Qed.

Lemma insert_desc_sorted (x : string * float) (l : pairs) :
  Sorted not_heavier l -> Sorted not_heavier (insert_desc x l).
Proof.
  induction 1 as [|y l Hs IH Hy]; cbn [insert_desc].
  - constructor; constructor.
  - destruct (snd x <? snd y)%float eqn:E.
    + constructor; [exact IH|].
      apply insert_desc_HdRel; [exact Hy|].
      unfold not_heavier. apply float_ltb_asym, E.
    + constructor; [constructor; assumption|].
      constructor. exact E.
Qed.

Lemma sort_desc_sorted (l : pairs) :
  Sorted not_heavier (fold_right insert_desc [] l).
Proof.
  induction l as [|x l IH]; [constructor|].
  cbn [fold_right]. apply insert_desc_sorted, IH.
Qed.

Lemma firstn_sorted (n : nat) (l : pairs) :
  Sorted not_heavier l -> Sorted not_heavier (firstn n l).
Proof.
  intros H. revert n. induction H as [|x l Hs IH Hx]; intros n.
  - rewrite firstn_nil. constructor.
  - destruct n as [|n]; [constructor|].
    cbn [firstn]. constructor; [apply IH|].
    destruct Hx as [|y l Hxy]; [rewrite firstn_nil; constructor|].
    destruct n; constructor. exact Hxy.
Qed.

(** X1.  [_getCommonTerms(terms, N)] returns [min(N, len(terms))] items of
    the dictionary, no term twice, and no item is directly followed by a
    heavier one; when [N] is at least the size of the dictionary the result
    is a rearrangement of all its items. *)
Theorem _getCommonTerms_top (terms : dict float) (N : nat) :
  NoDup (keys terms) ->
  let top := _getCommonTerms terms N in
  List.length top = Nat.min N (List.length terms) /\
  (forall p, In p top -> In p terms) /\
  NoDup (map fst top) /\
  Sorted not_heavier top /\
  (List.length terms <= N -> Permutation top terms).
Proof.
  intros Hnd top. subst top. unfold _getCommonTerms.
  split; [apply most_common_length|].
  split; [intros p; apply most_common_In|].
  split; [apply most_common_NoDup, Hnd|].
  split; [apply firstn_sorted, sort_desc_sorted|apply most_common_all].
Qed.

Lemma _getCommonTerms_top_witness :
  let terms := [("a", 1%float); ("b", 3%float); ("c", 1%float)] in
  let top := _getCommonTerms terms 2 in
  List.length top = Nat.min 2 (List.length terms) /\
  (forall p, In p top -> In p terms) /\
  NoDup (map fst top) /\
  Sorted not_heavier top /\
  (List.length terms <= 2 -> Permutation top terms).
Proof.
  apply (_getCommonTerms_top [("a", 1%float); ("b", 3%float); ("c", 1%float)]
           2).
  repeat constructor; cbn; intuition discriminate.
Defined.

End DescendingFacts.

Section TrackCoreProperties.

Import Vocabularymonitor.

Variable model : W2VModel.
Variable seedTerms : list string.
Variables maxTerms maxRelatedTerms : nat.
Variables minSim wordBoost : float.
Variable reward : float -> float.
Variable cleaningFunction : option cleaner.

Lemma _trackCore_sorted :
  Sorted not_heavier
    (fst (_trackCore model seedTerms maxTerms maxRelatedTerms minSim
            wordBoost reward cleaningFunction)).
Proof.
  unfold _trackCore.
  destruct (accumulate _ _ _ _) as [d links]. cbn [fst].
  apply firstn_sorted, sort_desc_sorted.
Qed.

(** A seed whose worker appended a query has a key in the links. *)
Lemma _getRelatedTerms_has_query (s : string) :
  In s seedTerms ->
  (forall e,
      (newTerms <- most_similar model s maxRelatedTerms ;;
       match cleaningFunction with
       | Some f => f newTerms
       | None => Ok newTerms
       end) = Raise e -> exists msg, e = KeyError msg) ->
  In s (map fst
          (_getRelatedTerms model seedTerms maxRelatedTerms cleaningFunction)).
Proof.
  intros Hin Hraise. rewrite _getRelatedTerms_flat_map.
  assert (H : exists newTerms,
             In (s, newTerms)
               (_getRelatedTermsThread model s maxRelatedTerms []
                  cleaningFunction)).
  { unfold _getRelatedTermsThread.
    destruct (bind _ _) as [newTerms|e] eqn:E.
    - exists newTerms. left. reflexivity.
    - destruct (Hraise e eq_refl) as [msg ->]. exists []. left. reflexivity. }
  destruct H as [newTerms H].
  change s with (fst (s, newTerms)). apply in_map, sort_queries_In.
  apply in_flat_map. exists s. split; assumption.
Qed.

(** X2.  The vocabulary [_trackCore] returns has no term twice and at most
    [maxTerms] terms, no term is directly followed by a heavier one, and
    every term is a seed or a surviving neighbour of a seed. *)
Theorem _trackCore_vocabulary :
  let queries :=
    _getRelatedTerms model seedTerms maxRelatedTerms cleaningFunction in
  let topTerms :=
    fst (_trackCore model seedTerms maxTerms maxRelatedTerms minSim
           wordBoost reward cleaningFunction) in
  NoDup (map fst topTerms) /\
  List.length topTerms <= maxTerms /\
  Sorted not_heavier topTerms /\
  (forall t, In t (map fst topTerms) ->
     In t seedTerms
     \/ exists seed newTerms,
          In seed seedTerms /\ In (seed, newTerms) queries
          /\ In t (map fst (survivors minSim newTerms))).
Proof.
  intros queries topTerms.
  destruct (_trackCore_shape model seedTerms maxTerms maxRelatedTerms minSim
              wordBoost reward cleaningFunction)
    as [Hnd [Hlen [Hfrom _]]].
  split; [exact Hnd|]. split; [exact Hlen|].
  split; [apply _trackCore_sorted|].
  intros t Ht. destruct (Hfrom t Ht) as [H|[[seed newTerms] [Hq Hs]]].
  - left. apply in_map_iff in H. destruct H as [q [<- Hq]].
    apply (_getRelatedTerms_seed _ _ _ _ _ Hq).
  - right. exists seed, newTerms.
    split; [apply (_getRelatedTerms_seed _ _ _ _ _ Hq)|].
    split; assumption.
Qed.

(** X3.  The links [_trackCore] returns have distinct keys, all of them
    seeds, and one key for every seed whose query raised nothing but a
    [KeyError].  Every link of a seed leads to a term of the vocabulary
    returned with it, and is the link of the seed to itself, at 0.0, or to
    one of its surviving neighbours, at its similarity. *)
Theorem _trackCore_links :
  let queries :=
    _getRelatedTerms model seedTerms maxRelatedTerms cleaningFunction in
  let r := _trackCore model seedTerms maxTerms maxRelatedTerms minSim
             wordBoost reward cleaningFunction in
  NoDup (keys (snd r)) /\
  (forall s, In s (keys (snd r)) -> In s seedTerms) /\
  (forall s,
      In s seedTerms ->
      (forall e,
          (newTerms <- most_similar model s maxRelatedTerms ;;
           match cleaningFunction with
           | Some f => f newTerms
           | None => Ok newTerms
           end) = Raise e -> exists msg, e = KeyError msg) ->
      In s (keys (snd r))) /\
  (forall s ps, In (s, ps) (snd r) ->
   forall w d, In (w, d) ps ->
     In w (map fst (fst r)) /\
     ((w, d) = (s, 0%float)
      \/ exists newTerms, In (s, newTerms) queries
                          /\ In (w, d) (survivors minSim newTerms))).
Proof.
  intros queries r.
  destruct (_trackCore_shape model seedTerms maxTerms maxRelatedTerms minSim
              wordBoost reward cleaningFunction)
    as [_ [_ [_ [Hnd [Hkeys Hlinks]]]]].
  fold r in Hnd, Hkeys, Hlinks. fold queries in Hkeys, Hlinks.
  split; [exact Hnd|]. split; [|split].
  - intros s Hs. apply Hkeys, in_map_iff in Hs. destruct Hs as [q [<- Hq]].
    apply (_getRelatedTerms_seed _ _ _ _ _ Hq).
  - intros s Hin Hraise. apply Hkeys.
    apply _getRelatedTerms_has_query; assumption.
  - intros s ps Hin w d Hp. exact (Hlinks s ps Hin (w, d) Hp).
Qed.

End TrackCoreProperties.

(** ** The results of a tracking *)

Section TrackingResults.

Import Vocabularymonitor.

Lemma sd_get_Some_In {V : Type} (d : SortedDict V) (k : string) (v : V) :
  sd_get d k = Some v -> In k (keys d).
Proof.
  induction d as [|[k0 v0] d IH]; cbn [sd_get keys map fst In];
    [discriminate|].
  destruct (String.eqb_spec k0 k) as [->|NE]; [left; reflexivity|].
  intros H. right. apply IH, H.
Qed.

Variable self : VocabularyMonitor.
Variable seedTerms : seedTermsArg.
Variables maxTerms maxRelatedTerms : nat.
Variables startKey endKey : option string.
Variables minSim wordBoost : float.
Variables forwards sumSimilarity : bool.
Variable algorithm : string.
Variable cleaningFunction : option cleaner.

(** What is stored for a period is what [_trackCore] returns for some
    boost and some reward. *)
Lemma expansion_is_trackCore (m : W2VModel) (seeds : list string) :
  exists boost reward,
    fst (expansion maxTerms maxRelatedTerms minSim wordBoost sumSimilarity
           algorithm cleaningFunction m seeds)
    = _trackCore m seeds maxTerms maxRelatedTerms minSim boost reward
        cleaningFunction.
Proof.
  unfold expansion, _trackInlink.
  destruct (String.eqb algorithm "adaptive"); [destruct sumSimilarity|].
  - exists wordBoost, (fun tSim => 1 - tSim)%float.
    destruct (_trackCore _ _ _ _ _ _ _ _) as [terms links]; reflexivity.
  - exists default_wordBoost, default_reward.
    destruct (_trackCore _ _ _ _ _ _ _ _) as [terms links]; reflexivity.
  - exists default_wordBoost, default_reward.
    destruct (_trackCore _ _ _ _ _ _ _ _) as [terms links]; reflexivity.
Qed.

(** Whenever the call returns, both results are keyed by the selected
    range. *)
Lemma trackClouds_result_keys
    (yT : SortedDict pairs) (yL : SortedDict (dict pairs)) :
  StronglySorted str_lt (getAvailableYears self) ->
  trackClouds self seedTerms maxTerms maxRelatedTerms startKey endKey minSim
    wordBoost forwards sumSimilarity algorithm cleaningFunction
  = Ok (yT, yL) ->
  exists range,
    selectKeys (getAvailableYears self) startKey endKey = Ok range /\
    keys yT = range /\ keys yL = range.
Proof.
  intros Hs Hrun.
  destruct (selectKeys (getAvailableYears self) startKey endKey)
    as [range|e] eqn:Hsel.
  2:{ unfold trackClouds in Hrun. unfold getAvailableYears in Hsel.
      rewrite Hsel in Hrun. discriminate. }
  exists range. split; [reflexivity|].
  destruct (supported_dec algorithm) as [Hsup|Hsup].
  - destruct (trackClouds_returns self seedTerms maxTerms maxRelatedTerms
                startKey endKey minSim wordBoost forwards sumSimilarity
                algorithm cleaningFunction Hs range Hsup Hsel)
      as [yT' [yL' [Hrun' [HT HL]]]].
    rewrite Hrun in Hrun'. injection Hrun' as <- <-. split; assumption.
  - assert (Hpo : processingOrder self startKey endKey forwards
                  = Ok (directed forwards range)).
    { unfold processingOrder. rewrite Hsel. reflexivity. }
    pose proof (trackClouds_unsupported self seedTerms maxTerms
                  maxRelatedTerms startKey endKey minSim wordBoost forwards
                  sumSimilarity algorithm cleaningFunction _ Hsup Hpo) as Hun.
    rewrite Hrun in Hun.
    destruct (directed forwards range) eqn:Hd; [|discriminate].
    apply directed_nil in Hd. subst range.
    injection Hun as -> ->. split; reflexivity.
Qed.

(** Whenever the call returns, what it holds for a key is an expansion of
    the model of that key. *)
Lemma trackClouds_values (yT : SortedDict pairs) (yL : SortedDict (dict pairs))
    (k : string) (terms : pairs) :
  StronglySorted str_lt (getAvailableYears self) ->
  trackClouds self seedTerms maxTerms maxRelatedTerms startKey endKey minSim
    wordBoost forwards sumSimilarity algorithm cleaningFunction
  = Ok (yT, yL) ->
  sd_get yT k = Some terms ->
  exists m seeds boost reward,
    sd_get (_models self) k = Some m /\
    (terms, match sd_get yL k with Some l => l | None => [] end)
    = _trackCore m seeds maxTerms maxRelatedTerms minSim boost reward
        cleaningFunction /\
    sd_get yL k <> None.
Proof.
  intros Hs Hrun Hget.
  destruct (selectKeys (getAvailableYears self) startKey endKey)
    as [range|e] eqn:Hsel.
  2:{ unfold trackClouds in Hrun. unfold getAvailableYears in Hsel.
      rewrite Hsel in Hrun. discriminate. }
  assert (Hpo : processingOrder self startKey endKey forwards
                = Ok (directed forwards range)).
  { unfold processingOrder. rewrite Hsel. reflexivity. }
  destruct (supported_dec algorithm) as [Hsup|Hsup].
  - destruct (trackClouds_returns self seedTerms maxTerms maxRelatedTerms
                startKey endKey minSim wordBoost forwards sumSimilarity
                algorithm cleaningFunction Hs range Hsup Hsel)
      as [yT' [yL' [Hrun' [HT _]]]].
    rewrite Hrun in Hrun'. injection Hrun' as <- <-.
    pose proof (sd_get_Some_In _ _ _ Hget) as Hin. rewrite HT in Hin.
    apply (directed_In forwards) in Hin. apply in_split in Hin.
    destruct Hin as [pre [post Hord]].
    destruct (trackClouds_at self seedTerms maxTerms maxRelatedTerms
                startKey endKey minSim wordBoost forwards sumSimilarity
                algorithm cleaningFunction Hs _ pre post k Hsup Hpo Hord)
      as [sa [m [yT' [yL' [_ [Hm [Hrun' [HT' [HL' _]]]]]]]]].
    rewrite Hrun in Hrun'. injection Hrun' as <- <-.
    destruct (expansion_is_trackCore m (aSeedSet sa)) as [boost [reward E]].
    exists m, (aSeedSet sa), boost, reward.
    split; [exact Hm|]. rewrite HL'. split; [|discriminate].
    rewrite <- E. rewrite Hget in HT'. injection HT' as ->.
    destruct (fst (expansion _ _ _ _ _ _ _ _ _)); reflexivity.
  - pose proof (trackClouds_unsupported self seedTerms maxTerms
                  maxRelatedTerms startKey endKey minSim wordBoost forwards
                  sumSimilarity algorithm cleaningFunction _ Hsup Hpo) as Hun.
    rewrite Hrun in Hun.
    destruct (directed forwards range); [|discriminate].
    injection Hun as -> ->. discriminate.
Qed.

(** X4.  Whenever [trackClouds] returns, its two results have the same
    keys; the vocabulary of every period has no term twice, at most
    [maxTerms] terms and no term directly followed by a heavier one; and
    the links of that period have distinct seeds and lead only to terms of
    that vocabulary. *)
Theorem trackClouds_vocabularies
    (yT : SortedDict pairs) (yL : SortedDict (dict pairs)) :
  StronglySorted str_lt (getAvailableYears self) ->
  trackClouds self seedTerms maxTerms maxRelatedTerms startKey endKey minSim
    wordBoost forwards sumSimilarity algorithm cleaningFunction
  = Ok (yT, yL) ->
  keys yT = keys yL /\
  (forall k terms,
      sd_get yT k = Some terms ->
      NoDup (map fst terms) /\
      List.length terms <= maxTerms /\
      Sorted not_heavier terms /\
      exists links,
        sd_get yL k = Some links /\
        NoDup (keys links) /\
        forall s ps w d,
          In (s, ps) links -> In (w, d) ps -> In w (map fst terms)).
Proof.
  intros Hs Hrun. split.
  - destruct (trackClouds_result_keys yT yL Hs Hrun) as [range [_ [HT HL]]].
    congruence.
  - intros k terms Hget.
    destruct (trackClouds_values yT yL k terms Hs Hrun Hget)
      as [m [seeds [boost [reward [_ [E Hsome]]]]]].
    destruct (sd_get yL k) as [links|]; [|congruence].
    pose proof (_trackCore_shape m seeds maxTerms maxRelatedTerms minSim
                  boost reward cleaningFunction) as Hshape.
    pose proof (_trackCore_sorted m seeds maxTerms maxRelatedTerms minSim
                  boost reward cleaningFunction) as Hsorted.
    rewrite <- E in Hshape, Hsorted. cbn [fst snd] in Hshape, Hsorted.
    destruct Hshape as [Hnd [Hlen [_ [Hndl [_ Hlinks]]]]].
    split; [exact Hnd|]. split; [exact Hlen|]. split; [exact Hsorted|].
    exists links. split; [reflexivity|]. split; [exact Hndl|].
    intros s ps w d Hin Hp. exact (proj1 (Hlinks s ps Hin (w, d) Hp)).
Qed.

End TrackingResults.

(** ** The order of the workers *)

Section WorkerOrder.

Import Vocabularymonitor.

Lemma str_ltb_false_eq (x y : string) :
  str_ltb x y = false -> str_ltb y x = false -> x = y.
Proof.
  intros Hxy Hyx. destruct (String_as_OT.compare_spec x y) as [E|L|G].
  - exact E.
  - apply str_ltb_lt in L. congruence.
  - apply str_ltb_lt in G. congruence.
Qed.

(** Two sorted lists of queries with the same entries are equal, when no
    two entries of one term differ. *)
Lemma sorted_queries_unique (l1 l2 : list query) :
  StronglySorted query_le l1 -> StronglySorted query_le l2 ->
  Permutation l1 l2 ->
  (forall a b, In a l1 -> In b l1 -> fst a = fst b -> a = b) ->
  l1 = l2.
Proof.
  intros H1. revert l2.
  induction H1 as [|a l1 Hs1 IH Ha]; intros l2 H2 Hperm Hfun.
  - apply Permutation_nil in Hperm. congruence.
  - destruct H2 as [|b l2 Hs2 Hb].
    { apply Permutation_sym, Permutation_nil in Hperm. discriminate. }
    rewrite Forall_forall in Ha, Hb.
    assert (Hab : a = b).
    { pose proof (Permutation_in a Hperm (or_introl eq_refl)) as Hina.
      pose proof (Permutation_in b (Permutation_sym Hperm)
                    (or_introl eq_refl)) as Hinb.
      destruct Hina as [E|Hina]; [congruence|].
      destruct Hinb as [E|Hinb]; [congruence|].
      apply Hfun; [left; reflexivity|right; exact Hinb|].
      apply str_ltb_false_eq; [apply (Hb a Hina)|apply (Ha b Hinb)]. }
    subst b. f_equal. apply IH.
    + exact Hs2.
    + exact (Permutation_cons_inv Hperm).
    + intros x y Hx Hy. apply Hfun; right; assumption.
Qed.

Variable model : W2VModel.
Variable maxRelatedTerms : nat.
Variable cleaningFunction : option cleaner.

(** A worker appends at most one query. *)
Lemma _getRelatedTermsThread_one (term : string) (a b : query) :
  In a (_getRelatedTermsThread model term maxRelatedTerms []
          cleaningFunction) ->
  In b (_getRelatedTermsThread model term maxRelatedTerms []
          cleaningFunction) ->
  a = b.
Proof.
  unfold _getRelatedTermsThread.
  destruct (bind _ _) as [newTerms|[]]; cbn;
    intros Ha Hb; try destruct Ha as [<-|[]]; try destruct Hb as [<-|[]];
    try reflexivity; destruct Ha.
Qed.

Lemma _getRelatedTerms_perm (seedTerms seedTerms' : list string) :
  Permutation seedTerms seedTerms' ->
  _getRelatedTerms model seedTerms maxRelatedTerms cleaningFunction
  = _getRelatedTerms model seedTerms' maxRelatedTerms cleaningFunction.
Proof.
  intros Hperm. rewrite !_getRelatedTerms_flat_map.
  set (entry := fun term =>
         _getRelatedTermsThread model term maxRelatedTerms []
           cleaningFunction).
  assert (Hp : Permutation (sort_queries (flat_map entry seedTerms))
                 (sort_queries (flat_map entry seedTerms'))).
  { assert (Hsort : forall l, Permutation (sort_queries l) l).
    { induction l as [|q l IHl]; [reflexivity|].
      cbn [sort_queries fold_right]. fold (sort_queries l).
      transitivity (q :: sort_queries l); [|constructor; exact IHl].
      clear IHl. induction (sort_queries l) as [|q' l' IHl'];
        cbn [insert_query]; [reflexivity|].
      destruct (str_ltb (fst q') (fst q)); [|reflexivity].
      rewrite IHl'. apply perm_swap. }
    rewrite (Hsort (flat_map entry seedTerms)).
    rewrite (Hsort (flat_map entry seedTerms')).
    apply Permutation_flat_map, Hperm. }
  apply sorted_queries_unique; try apply sort_queries_sorted; [exact Hp|].
  intros a b Ha Hb Hfst.
  apply sort_queries_In, in_flat_map in Ha, Hb.
  destruct Ha as [ta [_ Ha]]. destruct Hb as [tb [_ Hb]].
  pose proof (entry_term model maxRelatedTerms cleaningFunction ta a Ha) as Ea.
  pose proof (entry_term model maxRelatedTerms cleaningFunction tb b Hb) as Eb.
  assert (Hsame : tb = ta) by congruence.
  unfold entry in Ha, Hb. rewrite Hsame in Hb.
  exact (_getRelatedTermsThread_one ta a b Ha Hb).
Qed.

(** X5.  The queries of the seeds, and with them the vocabulary and the
    links of the period, do not depend on the order of the seeds, which is
    the order in which the workers append: the queries of any rearrangement
    of the seeds are the same list, sorted by term. *)
Theorem _trackCore_seed_order (seedTerms seedTerms' : list string)
    (maxTerms : nat) (minSim wordBoost : float) (reward : float -> float) :
  Permutation seedTerms seedTerms' ->
  _getRelatedTerms model seedTerms maxRelatedTerms cleaningFunction
  = _getRelatedTerms model seedTerms' maxRelatedTerms cleaningFunction /\
  StronglySorted query_le
    (_getRelatedTerms model seedTerms maxRelatedTerms cleaningFunction) /\
  _trackCore model seedTerms maxTerms maxRelatedTerms minSim wordBoost reward
    cleaningFunction
  = _trackCore model seedTerms' maxTerms maxRelatedTerms minSim wordBoost
      reward cleaningFunction.
Proof.
  intros Hperm. split; [apply _getRelatedTerms_perm, Hperm|].
  split.
  - rewrite _getRelatedTerms_flat_map. apply sort_queries_sorted.
  - unfold _trackCore. rewrite (_getRelatedTerms_perm _ _ Hperm).
    reflexivity.
Qed.

End WorkerOrder.

Lemma _trackCore_seed_order_witness :
  Vocabularymonitor._getRelatedTerms Examples.model_ab ["b"; "a"] 10 None
  = Vocabularymonitor._getRelatedTerms Examples.model_ab ["a"; "b"] 10 None /\
  StronglySorted query_le
    (Vocabularymonitor._getRelatedTerms Examples.model_ab ["b"; "a"] 10 None)
  /\
  Vocabularymonitor._trackCore Examples.model_ab ["b"; "a"] 5 10 0 1
    Vocabularymonitor.default_reward None
  = Vocabularymonitor._trackCore Examples.model_ab ["a"; "b"] 5 10 0 1
      Vocabularymonitor.default_reward None.
Proof.
  apply (_trackCore_seed_order Examples.model_ab 10 None ["b"; "a"]
           ["a"; "b"] 5 0 1 Vocabularymonitor.default_reward).
  apply perm_swap.
Defined.

(** ** The direction of a non-adaptive tracking *)

Section Direction.

Import Vocabularymonitor.

(** Two lists of items with the same distinct keys and the same value at
    every key are equal. *)
Lemma items_ext {V : Type} (d1 d2 : SortedDict V) :
  NoDup (keys d1) -> keys d1 = keys d2 ->
  (forall k, In k (keys d1) -> sd_get d1 k = sd_get d2 k) ->
  d1 = d2.
Proof.
  revert d2. induction d1 as [|[k1 v1] d1 IH]; intros d2 Hnd Hkeys Hget.
  - destruct d2; [reflexivity|discriminate].
  - destruct d2 as [|[k2 v2] d2]; [discriminate|].
    cbn [keys map fst] in Hkeys, Hnd. injection Hkeys as <- Hkeys.
    inversion Hnd as [|? ? Hnin Hnd']; subst.
    pose proof (Hget k1 (or_introl eq_refl)) as Hhd.
    cbn [sd_get] in Hhd. rewrite String.eqb_refl in Hhd.
    injection Hhd as <-. f_equal. apply IH; [exact Hnd'|exact Hkeys|].
    intros k Hk. specialize (Hget k (or_intror Hk)).
    cbn [sd_get] in Hget.
    destruct (String.eqb_spec k1 k) as [->|NE]; [|exact Hget].
    destruct (Hnin Hk).
Qed.

Variable self : VocabularyMonitor.
Variable seedTerms : seedTermsArg.
Variables maxTerms maxRelatedTerms : nat.
Variables startKey endKey : option string.
Variables minSim wordBoost : float.
Variable sumSimilarity : bool.
Variable cleaningFunction : option cleaner.

Hypothesis models_sorted : StronglySorted str_lt (getAvailableYears self).

(** What a non-adaptive tracking holds for a key. *)
Lemma trackClouds_nonadaptive_value (forwards : bool)
    (yT : SortedDict pairs) (yL : SortedDict (dict pairs)) (k : string) :
  trackClouds self seedTerms maxTerms maxRelatedTerms startKey endKey minSim
    wordBoost forwards sumSimilarity "non-adaptive" cleaningFunction
  = Ok (yT, yL) ->
  In k (keys yT) ->
  exists m,
    sd_get (_models self) k = Some m /\
    let r := _trackCore m
               match seedTerms with OneTerm s => [s] | TermList l => l end
               maxTerms maxRelatedTerms minSim default_wordBoost
               default_reward cleaningFunction in
    sd_get yT k = Some (fst r) /\ sd_get yL k = Some (snd r).
Proof.
  intros Hrun Hin.
  destruct (trackClouds_result_keys self seedTerms maxTerms maxRelatedTerms
              startKey endKey minSim wordBoost forwards sumSimilarity
              "non-adaptive" cleaningFunction yT yL models_sorted Hrun)
    as [range [Hsel [HT _]]].
  assert (Hpo : processingOrder self startKey endKey forwards
                = Ok (directed forwards range)).
  { unfold processingOrder. rewrite Hsel. reflexivity. }
  rewrite HT in Hin. apply (directed_In forwards) in Hin.
  apply in_split in Hin. destruct Hin as [pre [post Hord]].
  assert (Hsup : supported "non-adaptive") by (right; reflexivity).
  destruct (trackClouds_at self seedTerms maxTerms maxRelatedTerms
              startKey endKey minSim wordBoost forwards sumSimilarity
              "non-adaptive" cleaningFunction models_sorted _ pre post k
              Hsup Hpo Hord)
    as [sa [m [yT' [yL' [Hsa [Hm [Hrun' [HT' [HL' _]]]]]]]]].
  rewrite Hrun in Hrun'. injection Hrun' as <- <-.
  apply models_for_nonadaptive_seeds in Hsa. cbn [aSeedSet] in Hsa.
  rewrite Hsa in HT', HL'. unfold expansion in HT', HL'.
  cbn [String.eqb Ascii.eqb Bool.eqb] in HT', HL'.
  exists m. split; [exact Hm|]. cbn zeta.
  destruct (_trackCore m _ maxTerms maxRelatedTerms minSim default_wordBoost
              default_reward cleaningFunction) as [terms links].
  split; [exact HT'|exact HL'].
Qed.

(** X6.  A non-adaptive tracking does not depend on the direction: forwards
    and backwards the call returns the same results, or raises the same
    exception. *)
Theorem trackClouds_nonadaptive_direction :
  trackClouds self seedTerms maxTerms maxRelatedTerms startKey endKey minSim
    wordBoost true sumSimilarity "non-adaptive" cleaningFunction
  = trackClouds self seedTerms maxTerms maxRelatedTerms startKey endKey minSim
      wordBoost false sumSimilarity "non-adaptive" cleaningFunction.
Proof.
  destruct (selectKeys (getAvailableYears self) startKey endKey)
    as [range|e] eqn:Hsel.
  2:{ unfold trackClouds. unfold getAvailableYears in Hsel.
      rewrite Hsel. reflexivity. }
  assert (Hsup : supported "non-adaptive") by (right; reflexivity).
  destruct (trackClouds_returns self seedTerms maxTerms maxRelatedTerms
              startKey endKey minSim wordBoost true sumSimilarity
              "non-adaptive" cleaningFunction models_sorted range Hsup Hsel)
    as [yT [yL [Hrun [HT HL]]]].
  destruct (trackClouds_returns self seedTerms maxTerms maxRelatedTerms
              startKey endKey minSim wordBoost false sumSimilarity
              "non-adaptive" cleaningFunction models_sorted range Hsup Hsel)
    as [yT' [yL' [Hrun' [HT' HL']]]].
  rewrite Hrun, Hrun'.
  destruct (selectKeys_sorted _ _ _ _ models_sorted Hsel) as [Hsorted _].
  apply sorted_NoDup in Hsorted.
  assert (Hvalues : forall k, In k range ->
            sd_get yT k = sd_get yT' k /\ sd_get yL k = sd_get yL' k).
  { intros k Hk.
    destruct (trackClouds_nonadaptive_value true yT yL k Hrun)
      as [m [Hm [H1 H2]]]; [rewrite HT; exact Hk|].
    destruct (trackClouds_nonadaptive_value false yT' yL' k Hrun')
      as [m' [Hm' [H1' H2']]]; [rewrite HT'; exact Hk|].
    assert (m' = m) by congruence. subst m'.
    split; congruence. }
  f_equal. f_equal.
  - apply items_ext; [rewrite HT; exact Hsorted|congruence|].
    intros k Hk. rewrite HT in Hk. apply (Hvalues k Hk).
  - apply items_ext; [rewrite HL; exact Hsorted|congruence|].
    intros k Hk. rewrite HL in Hk. apply (Hvalues k Hk).
Qed.

End Direction.

Lemma trackClouds_nonadaptive_direction_witness :
  Vocabularymonitor.trackClouds Examples.monitor
    (Vocabularymonitor.TermList ["a"; "b"]) 10 10 None None 0 1 true false
    "non-adaptive" None
  = Vocabularymonitor.trackClouds Examples.monitor
      (Vocabularymonitor.TermList ["a"; "b"]) 10 10 None None 0 1 false false
      "non-adaptive" None.
Proof.
  apply (trackClouds_nonadaptive_direction Examples.monitor
           (Vocabularymonitor.TermList ["a"; "b"]) 10 10 None None 0 1 false
           None monitor_sorted).
Defined.

(** ** What the filter of near duplicates keeps *)

Section CleanerKeeps.

Import TermListCleaner.

Context {W : Type}.

Lemma spellings_apart_at (l pre post : list (string * W)) (c : string * W) :
  spellings_apart l -> l = pre ++ c :: post -> far_enough (fst c) pre.
Proof.
  intros H. revert pre c post.
  induction H as [|l x Hl IH Hx]; intros pre c post E.
  - destruct pre; discriminate.
  - destruct (exists_last (l:=c :: post)) as [post' [y Ey]]; [discriminate|].
    destruct post' as [|c' post'].
    + cbn in Ey. injection Ey as -> ->.
      apply app_inj_tail in E. destruct E as [-> ->]. exact Hx.
    + cbn in Ey. injection Ey as <- ->.
      rewrite app_comm_cons, app_assoc in E.
      apply app_inj_tail in E. destruct E as [-> _].
      exact (IH pre c post' eq_refl).
Qed.

Lemma spellings_apart_prefix (l1 l2 : list (string * W)) :
  spellings_apart (l1 ++ l2) -> spellings_apart l1.
Proof.
  induction l2 as [|c l2 IH] using rev_ind.
  - rewrite app_nil_r. trivial.
  - rewrite app_assoc. intros H. apply IH.
    inversion H as [E|l c' Hl Hc E].
    + destruct (l1 ++ l2); discriminate.
    + apply app_inj_tail in E. destruct E as [-> _]. exact Hl.
Qed.

(** What the loop accepts is a part of the input, in the order of the
    input, after what was accepted before. *)
Lemma cleanTermList_for_subseq (l acc r : list (string * W)) :
  cleanTermList_for l acc = Ok r ->
  exists more, r = acc ++ more /\ subseq more l.
Proof.
  revert acc. induction l as [|[word weight] l IH]; intros acc H.
  - cbn in H. injection H as <-. exists []. rewrite app_nil_r.
    split; [reflexivity|constructor].
  - cbn [cleanTermList_for] in H.
    destruct (_isCloseToList word acc minEditDiff) as [b|e]; cbn [bind] in H;
      [|discriminate].
    destruct (negb b).
    + apply IH in H. destruct H as [more [-> Hsub]].
      exists ((word, weight) :: more). rewrite <- app_assoc.
      split; [reflexivity|constructor; exact Hsub].
    + apply IH in H. destruct H as [more [-> Hsub]].
      exists more. split; [reflexivity|constructor; exact Hsub].
Qed.

(** The loop keeps the accepted words apart. *)
Lemma cleanTermList_for_apart (l acc r : list (string * W)) :
  words_nonempty l -> words_nonempty acc -> spellings_apart acc ->
  cleanTermList_for l acc = Ok r -> spellings_apart r.
Proof.
  intros Hl. revert acc. induction Hl as [|[word weight] l Hw _ IH];
    intros acc Hacc Hapart H.
  - cbn in H. injection H as <-. exact Hapart.
  - cbn [cleanTermList_for] in H. cbn [fst] in Hw.
    destruct (_isCloseToList_spec word acc Hw Hacc) as [b [Hb Hiff]].
    rewrite Hb in H. cbn [bind] in H. destruct b; cbn [negb] in H.
    + exact (IH acc Hacc Hapart H).
    + apply (IH (acc ++ [(word, weight)])); [| |exact H].
      * apply Forall_app. split; [assumption|].
        constructor; [exact Hw|constructor].
      * constructor; [exact Hapart|]. apply Hiff. reflexivity.
Qed.

(** On words kept apart the loop accepts everything. *)
Lemma cleanTermList_for_fixed (l acc : list (string * W)) :
  words_nonempty (acc ++ l) -> spellings_apart (acc ++ l) ->
  cleanTermList_for l acc = Ok (acc ++ l).
Proof.
  revert acc. induction l as [|[word weight] l IH]; intros acc Hne Hapart.
  - rewrite app_nil_r. reflexivity.
  - cbn [cleanTermList_for].
    pose proof (spellings_apart_at _ acc l (word, weight) Hapart eq_refl)
      as Hfar.
    cbn [fst] in Hfar.
    pose proof (proj1 (Forall_app _ _ _) Hne) as [Hacc Hrest].
    inversion Hrest as [|? ? Hw _]; subst. cbn [fst] in Hw.
    destruct (_isCloseToList_spec word acc Hw Hacc) as [b [Hb Hiff]].
    rewrite Hb. cbn [bind]. apply Hiff in Hfar. subst b. cbn [negb].
    replace (acc ++ (word, weight) :: l)
      with ((acc ++ [(word, weight)]) ++ l) in *
      by (rewrite <- app_assoc; reflexivity).
    apply IH; assumption.
Qed.

End CleanerKeeps.

(** X7.  On words that are not empty the filter returns a part of its
    input, in the order of the input and starting with its first pair, in
    which every word is at least 0.20 away from each word before it; the
    filter leaves such a list as it is, so that filtering twice is the same
    as filtering once. *)
Theorem cleanTermList_idempotent (W : Type) (termList : list (string * W)) :
  words_nonempty termList ->
  exists r,
    TermListCleaner.cleanTermList termList = Ok r /\
    subseq r termList /\
    (forall first rest, termList = first :: rest ->
                        exists rest', r = first :: rest') /\
    (forall pre c post, r = pre ++ c :: post -> far_enough (fst c) pre) /\
    TermListCleaner.cleanTermList r = Ok r.
Proof.
  intros Hne. unfold TermListCleaner.cleanTermList.
  destruct (cleanTermList_for_total termList [] Hne (Forall_nil _))
    as [r [Hr Hrne]].
  exists r. split; [exact Hr|].
  assert (Hapart : spellings_apart r).
  { apply (cleanTermList_for_apart termList [] r Hne (Forall_nil _));
      [constructor|exact Hr]. }
  split; [|split; [|split]].
  - destruct (cleanTermList_for_subseq _ _ _ Hr) as [more [-> Hsub]].
    exact Hsub.
  - intros [word weight] rest ->. cbn in Hr.
    apply cleanTermList_for_extends in Hr. destruct Hr as [more [-> _]].
    exists more. reflexivity.
  - intros pre c post E. exact (spellings_apart_at r pre post c Hapart E).
  - apply (cleanTermList_for_fixed r []); assumption.
Qed.

Lemma cleanTermList_idempotent_witness :
  exists r,
    TermListCleaner.cleanTermList
      [("oorlog", 8%Z); ("ooriog", 3%Z); ("vrede", 1%Z)] = Ok r /\
    TermListCleaner.cleanTermList r = Ok r.
Proof.
  destruct (cleanTermList_idempotent Z
              [("oorlog", 8%Z); ("ooriog", 3%Z); ("vrede", 1%Z)])
    as [r [Hr [_ [_ [_ Hfix]]]]].
  - repeat constructor; discriminate.
  - exists r. split; [exact Hr|exact Hfix].
Defined.

Lemma trackClouds_vocabularies_witness :
  exists yT yL,
    Vocabularymonitor.trackClouds Examples.monitor
      (Vocabularymonitor.TermList ["a"]) 1 10 None None 0 1 true false
      "adaptive" None = Ok (yT, yL) /\
    keys yT = keys yL /\
    (forall k terms,
        sd_get yT k = Some terms ->
        NoDup (map fst terms) /\
        List.length terms <= 1 /\
        Sorted not_heavier terms /\
        exists links,
          sd_get yL k = Some links /\
          NoDup (keys links) /\
          forall s ps w d,
            In (s, ps) links -> In (w, d) ps -> In w (map fst terms)).
Proof.
  eexists _, _. split; [vm_compute; reflexivity|].
  apply (trackClouds_vocabularies Examples.monitor
           (Vocabularymonitor.TermList ["a"]) 1 10 None None 0 1 true false
           "adaptive" None _ _ monitor_sorted).
  vm_compute. reflexivity.
Defined.

(** ** Dictionaries built from items *)

Section DictOfFacts.

Import FormatNetwork.

Lemma sd_get_dict_get {V : Type} (d : list (string * V)) (k : string) :
  sd_get d k = dict_get d k.
Proof.
  induction d as [|[k0 v0] d IH]; [reflexivity|].
  cbn [sd_get dict_get]. rewrite IH. reflexivity.
Qed.

Lemma dict_get_app {V : Type} (d1 d2 : dict V) (k : string) :
  dict_get (d1 ++ d2) k
  = match dict_get d1 k with Some v => Some v | None => dict_get d2 k end.
Proof.
  induction d1 as [|[k0 v0] d1 IH]; [reflexivity|].
  cbn [app dict_get]. destruct (String.eqb k0 k); [reflexivity|exact IH].
Qed.

Lemma dict_get_None {V : Type} (d : dict V) (k : string) :
  dict_get d k = None <-> ~ In k (keys d).
Proof.
  induction d as [|[k0 v0] d IH]; cbn [dict_get keys map fst In].
  - intuition.
  - destruct (String.eqb_spec k0 k) as [->|NE].
    + split; [discriminate|]. intros H. destruct H. left. reflexivity.
    + rewrite IH. unfold keys. intuition.
Qed.

Lemma dict_set_fresh {V : Type} (d : dict V) (k : string) (v : V) :
  ~ In k (keys d) -> dict_set d k v = d ++ [(k, v)].
Proof.
  induction d as [|[k0 v0] d IH]; cbn [dict_set keys map fst In app];
    intros H; [reflexivity|].
  destruct (String.eqb_spec k0 k) as [->|NE].
  - destruct H. left. reflexivity.
  - rewrite IH; [reflexivity|]. intros Hin. apply H. right. exact Hin.
Qed.

Context {U V : Type}.
Variable f : U -> V.

Let step := fun (d : dict V) (kv : string * U) =>
              dict_set d (fst kv) (f (snd kv)).

Lemma fold_set_get (items : list (string * U)) (acc : dict V) (k : string) :
  dict_get (fold_left step items acc) k
  = match dict_get (rev items) k with
    | Some u => Some (f u)
    | None => dict_get acc k
    end.
Proof.
  revert acc. induction items as [|[k0 u0] items IH]; intros acc.
  - reflexivity.
  - cbn [fold_left rev]. rewrite IH, dict_get_app. subst step.
    cbn [fst snd]. destruct (dict_get (rev items) k); [reflexivity|].
    rewrite dict_get_set. cbn [dict_get].
    destruct (String.eqb k0 k); reflexivity.
Qed.

Lemma fold_set_NoDup (items : list (string * U)) (acc : dict V) :
  NoDup (keys acc) -> NoDup (keys (fold_left step items acc)).
Proof.
  revert acc. induction items as [|kv items IH]; intros acc H; [exact H|].
  cbn [fold_left]. apply IH. subst step. apply dict_set_NoDup, H.
Qed.

Lemma fold_set_keys (items : list (string * U)) (acc : dict V) (k : string) :
  In k (keys (fold_left step items acc)) <-> In k (keys items) \/ In k (keys acc).
Proof.
  revert acc. induction items as [|kv items IH]; intros acc.
  - cbn. intuition.
  - cbn [fold_left]. rewrite IH. subst step.
    rewrite keys_dict_set.
    change (keys (kv :: items)) with (fst kv :: keys items).
    cbn [In]. intuition.
Qed.

Lemma fold_set_fresh (items : list (string * U)) (acc : dict V) :
  NoDup (keys acc ++ keys items) ->
  fold_left step items acc
  = acc ++ map (fun kv => (fst kv, f (snd kv))) items.
Proof.
  revert acc. induction items as [|[k0 u0] items IH]; intros acc H.
  - cbn. rewrite app_nil_r. reflexivity.
  - cbn [fold_left map fst snd]. subst step. cbn [fst snd].
    cbn [keys map fst] in H.
    assert (Hfresh : ~ In k0 (keys acc)).
    { intros Hin. apply NoDup_remove_2 in H. apply H, in_or_app.
      left. exact Hin. }
    rewrite dict_set_fresh by exact Hfresh.
    rewrite IH.
    + rewrite <- app_assoc. reflexivity.
    + unfold keys in *. rewrite map_app, <- app_assoc. exact H.
Qed.

(** What [dict_of] builds: distinct keys, those of the items; at each key
    the image of the last item of that key; and the images of the items in
    their order when no key comes twice. *)
Lemma dict_of_spec (items : list (string * U)) :
  NoDup (keys (dict_of f items)) /\
  (forall k, In k (keys (dict_of f items)) <-> In k (keys items)) /\
  (forall k, dict_get (dict_of f items) k
             = option_map f (dict_get (rev items) k)) /\
  (NoDup (keys items) ->
   dict_of f items = map (fun kv => (fst kv, f (snd kv))) items).
Proof.
  unfold dict_of. fold step. split; [|split; [|split]].
  - apply fold_set_NoDup. constructor.
  - intros k. rewrite fold_set_keys. cbn. intuition.
  - intros k. rewrite fold_set_get.
    destruct (dict_get (rev items) k); reflexivity.
  - intros H. apply (fold_set_fresh items []). exact H.
Qed.

End DictOfFacts.

Section TuplesAsDict.

Import Vocabularymonitor FormatNetwork.

Lemma option_map_fixed {A : Type} (g : A -> A) (o : option A) :
  (forall a, o = Some a -> g a = a) -> o = option_map g o.
Proof.
  intros H. destruct o as [a|]; [|reflexivity].
  cbn. rewrite (H a eq_refl). reflexivity.
Qed.

(** X8.  [_tuplesAsDict] builds a dictionary whose keys are the words of
    the list, each once; a word that comes several times keeps the weight of
    its last pair; and a list in which no word comes twice is returned as it
    is, item by item. *)
Theorem _tuplesAsDict_items (V : Type) (pairList : list (string * V)) :
  NoDup (keys (_tuplesAsDict pairList)) /\
  (forall w, In w (keys (_tuplesAsDict pairList)) <-> In w (map fst pairList))
  /\
  (forall w, dict_get (_tuplesAsDict pairList) w
             = dict_get (rev pairList) w) /\
  (NoDup (map fst pairList) -> _tuplesAsDict pairList = pairList).
Proof.
  unfold _tuplesAsDict.
  destruct (dict_of_spec (fun weight : V => weight) pairList)
    as [Hnd [Hkeys [Hget Hfresh]]].
  split; [exact Hnd|]. split; [exact Hkeys|]. split.
  - intros w. rewrite Hget. destruct (dict_get (rev pairList) w); reflexivity.
  - intros H. rewrite (Hfresh H). clear.
    induction pairList as [|[w v] l IH]; [reflexivity|].
    cbn [map fst snd]. rewrite IH. reflexivity.
Qed.

Lemma _tuplesAsDict_items_witness :
  _tuplesAsDict [("oorlog", 8%Z); ("vrede", 2%Z)]
  = [("oorlog", 8%Z); ("vrede", 2%Z)].
Proof.
  apply (proj2 (proj2 (proj2 (_tuplesAsDict_items Z
                                [("oorlog", 8%Z); ("vrede", 2%Z)])))).
  repeat constructor; cbn; intuition discriminate.
Defined.

(** A dictionary of vocabularies without repeated years or words is
    returned as it is. *)
Lemma yearTuplesAsDict_fixed (V : Type) (results : dict (list (string * V))) :
  NoDup (keys results) ->
  (forall year vals, In (year, vals) results -> NoDup (map fst vals)) ->
  yearTuplesAsDict results = results.
Proof.
  intros Hnd Hvals. unfold yearTuplesAsDict.
  rewrite (proj2 (proj2 (proj2 (dict_of_spec _tuplesAsDict results))) Hnd).
  clear Hnd. induction results as [|[year vals] results IH]; [reflexivity|].
  cbn [map fst snd]. rewrite IH.
  - rewrite (proj2 (proj2 (proj2 (_tuplesAsDict_items V vals)))).
    + reflexivity.
    + apply (Hvals year vals). left. reflexivity.
  - intros y v H. apply (Hvals y v). right. exact H.
Qed.

(** X9.  [yearTuplesAsDict] gives, for every year of the results, the
    dictionary of its pairs; on the terms a tracking call returns it loses
    nothing: the years, the words and the weights come out as they are, in
    the same order. *)
Theorem yearTuplesAsDict_of_tracking (self : VocabularyMonitor)
    (seedTerms : seedTermsArg) (maxTerms maxRelatedTerms : nat)
    (startKey endKey : option string) (minSim wordBoost : float)
    (forwards sumSimilarity : bool) (algorithm : string)
    (cleaningFunction : option cleaner)
    (yT : SortedDict pairs) (yL : SortedDict (dict pairs)) :
  StronglySorted str_lt (getAvailableYears self) ->
  trackClouds self seedTerms maxTerms maxRelatedTerms startKey endKey minSim
    wordBoost forwards sumSimilarity algorithm cleaningFunction
  = Ok (yT, yL) ->
  (forall year, dict_get (yearTuplesAsDict yT) year
                = option_map _tuplesAsDict (dict_get yT year)) /\
  yearTuplesAsDict yT = yT.
Proof.
  intros Hs Hrun.
  destruct (trackClouds_result_keys self seedTerms maxTerms maxRelatedTerms
              startKey endKey minSim wordBoost forwards sumSimilarity
              algorithm cleaningFunction yT yL Hs Hrun)
    as [range [Hsel [HT _]]].
  assert (Hnd : NoDup (keys yT)).
  { rewrite HT. apply sorted_NoDup.
    apply (selectKeys_sorted _ _ _ _ Hs Hsel). }
  assert (Hfixed : yearTuplesAsDict yT = yT).
  { apply yearTuplesAsDict_fixed; [exact Hnd|].
    intros year vals Hin.
    assert (Hget : sd_get yT year = Some vals).
    { rewrite sd_get_dict_get. apply In_dict_get; assumption. }
    destruct (trackClouds_values self seedTerms maxTerms maxRelatedTerms
                startKey endKey minSim wordBoost forwards sumSimilarity
                algorithm cleaningFunction yT yL year vals Hs Hrun Hget)
      as [m [seeds [boost [reward [_ [E _]]]]]].
    pose proof (_trackCore_shape m seeds maxTerms maxRelatedTerms minSim
                  boost reward cleaningFunction) as Hshape.
    rewrite <- E in Hshape. exact (proj1 Hshape). }
  split; [|exact Hfixed].
  intros year. rewrite Hfixed. apply option_map_fixed. intros vals Hget.
  apply (proj2 (proj2 (proj2 (_tuplesAsDict_items float vals)))).
  assert (Hget' : sd_get yT year = Some vals)
    by (rewrite sd_get_dict_get; exact Hget).
  destruct (trackClouds_values self seedTerms maxTerms maxRelatedTerms
              startKey endKey minSim wordBoost forwards sumSimilarity
              algorithm cleaningFunction yT yL year vals Hs Hrun Hget')
    as [m [seeds [boost [reward [_ [E _]]]]]].
  pose proof (_trackCore_shape m seeds maxTerms maxRelatedTerms minSim
                boost reward cleaningFunction) as Hshape.
  rewrite <- E in Hshape. exact (proj1 Hshape).
Qed.

End TuplesAsDict.

Lemma yearTuplesAsDict_of_tracking_witness :
  exists yT yL,
    Vocabularymonitor.trackClouds Examples.monitor
      (Vocabularymonitor.TermList ["a"]) 10 10 None None 0 1 true false
      "adaptive" None = Ok (yT, yL) /\
    FormatNetwork.yearTuplesAsDict yT = yT.
Proof.
  eexists _, _. split; [vm_compute; reflexivity|].
  eapply proj2.
  eapply (yearTuplesAsDict_of_tracking Examples.monitor
            (Vocabularymonitor.TermList ["a"]) 10 10 None None 0 1 true false
            "adaptive" None _ _ monitor_sorted).
  vm_compute. reflexivity.
Defined.

(** ** The nodes of a network *)

Section NodeFacts.

Import Vocabularymonitor FormatNetwork.

Lemma dict_get_default_set {V : Type} (d : dict V) (k k' : string)
    (v dflt : V) :
  dict_get_default (dict_set d k v) k' dflt
  = if String.eqb k k' then v else dict_get_default d k' dflt.
Proof.
  unfold dict_get_default. rewrite dict_get_set.
  destruct (String.eqb k k'); reflexivity.
Qed.

Lemma Counter_fold (words : list string) (c : dict nat) (w : string) :
  dict_get_default
    (fold_left (fun c w => dict_set c w (S (dict_get_default c w 0))) words c)
    w 0
  = count_occ string_dec words w + dict_get_default c w 0.
Proof.
  revert c. induction words as [|x words IH]; intros c; [reflexivity|].
  cbn [fold_left count_occ]. rewrite IH, dict_get_default_set.
  destruct (string_dec x w) as [->|NE].
  - rewrite String.eqb_refl. lia.
  - destruct (String.eqb_spec x w); [congruence|reflexivity].
Qed.

(** [Counter] counts: its value at a word, 0 when the word is missing, is
    the number of occurrences of the word. *)
Lemma Counter_count (words : list string) (w : string) :
  dict_get_default (Counter words) w 0 = count_occ string_dec words w.
Proof.
  unfold Counter. rewrite Counter_fold. cbn. lia.
Qed.

Lemma Counter_keys (words : list string) (w : string) :
  In w (keys (Counter words)) <-> In w words.
Proof.
  unfold Counter.
  assert (H : forall c,
    In w (keys (fold_left
                  (fun c w => dict_set c w (S (dict_get_default c w 0)))
                  words c))
    <-> In w words \/ In w (keys c)).
  { induction words as [|x words IH]; intros c.
    - cbn. intuition.
    - cbn [fold_left In]. rewrite IH, keys_dict_set. intuition. }
  rewrite H. cbn. intuition.
Qed.

Lemma _buildNode_name (w : string) (counts : dict nat)
    (seedSet finalWords : list string) :
  name (_buildNode w counts seedSet finalWords) = w.
Proof. reflexivity. Qed.

Variable wordCounts : dict nat.
Variables seedSet finalWords : list string.

(** The loop of [_buildNodes]: the nodes follow the words, and the index
    of each word is its position. *)
Lemma _buildNodes_for_spec (uniqueWords : list string) (idx : nat)
    (nodes0 : list node) (nodeIdx : dict nat) :
  NoDup uniqueWords ->
  let r := _buildNodes_for idx uniqueWords wordCounts seedSet finalWords
             nodes0 nodeIdx in
  fst r = nodes0
          ++ map (fun w => _buildNode w wordCounts seedSet finalWords)
               uniqueWords /\
  forall w i,
    dict_get (snd r) w = Some i
    <-> (exists j, nth_error uniqueWords j = Some w /\ i = idx + j)
        \/ (~ In w uniqueWords /\ dict_get nodeIdx w = Some i).
Proof.
  revert idx nodes0 nodeIdx.
  induction uniqueWords as [|u rest IH]; intros idx nodes0 nodeIdx Hnd.
  - cbn. split; [rewrite app_nil_r; reflexivity|].
    intros w i. split.
    + intros H. right. split; [intros []|exact H].
    + intros [[j [Hj _]]|[_ H]]; [destruct j; discriminate|exact H].
  - inversion Hnd as [|? ? Hnin Hnd']; subst.
    cbn [_buildNodes_for].
    specialize (IH (S idx)
                  (nodes0 ++ [_buildNode u wordCounts seedSet finalWords])
                  (dict_set nodeIdx u idx) Hnd').
    cbn zeta in IH |- *. destruct IH as [Hnodes Hidx]. split.
    + rewrite Hnodes, <- app_assoc. reflexivity.
    + intros w i. rewrite Hidx, dict_get_set. split.
      * intros [[j [Hj Hi]]|[Hw Hget]].
        -- left. exists (S j). split; [exact Hj|lia].
        -- destruct (String.eqb_spec u w) as [->|NE].
           ++ injection Hget as <-. left. exists 0.
              split; [reflexivity|lia].
           ++ right. split; [|exact Hget].
              intros [E|Hin]; [congruence|exact (Hw Hin)].
      * intros [[j [Hj Hi]]|[Hw Hget]].
        -- destruct j as [|j].
           ++ cbn in Hj. injection Hj as ->. right.
              split; [exact Hnin|].
              rewrite String.eqb_refl. f_equal. lia.
           ++ left. exists j. split; [exact Hj|lia].
        -- right. split; [intros Hin; apply Hw; right; exact Hin|].
           destruct (String.eqb_spec u w) as [->|NE]; [|exact Hget].
           destruct Hw. left. reflexivity.
Qed.

End NodeFacts.

Section BuildNodes.

Import Vocabularymonitor FormatNetwork.

Variable set_iter : list string -> list string.
Hypothesis set_iter_ok : set_order_ok set_iter.

(** X10.  Whatever the order in which the set of words is iterated,
    [_buildNodes] makes one node for every counted word and every seed, and
    no other; the index it records for a word is the position of the node
    of that word; and every node is the one [_buildNode] makes for its
    word. *)
Theorem _buildNodes_index (wordCounts : dict nat)
    (seedSet finalWords : list string) :
  let r := _buildNodes set_iter wordCounts seedSet finalWords in
  (forall w, In w (map name (fst r)) <-> In w (keys wordCounts) \/ In w seedSet)
  /\
  NoDup (map name (fst r)) /\
  (forall w i,
      dict_get (snd r) w = Some i
      <-> exists n, nth_error (fst r) i = Some n /\ name n = w) /\
  (forall n, In n (fst r) ->
             n = _buildNode (name n) wordCounts seedSet finalWords).
Proof.
  intros r. subst r. unfold _buildNodes.
  destruct (set_iter_ok (keys wordCounts ++ seedSet)) as [Hnd Hin].
  destruct (_buildNodes_for_spec wordCounts seedSet finalWords
              (set_iter (keys wordCounts ++ seedSet)) 0 [] [] Hnd)
    as [Hnodes Hidx].
  cbn zeta in Hnodes, Hidx. cbn [app] in Hnodes. rewrite Hnodes.
  assert (Hnames : map name
                     (map (fun w => _buildNode w wordCounts seedSet finalWords)
                        (set_iter (keys wordCounts ++ seedSet)))
                   = set_iter (keys wordCounts ++ seedSet)).
  { rewrite map_map. cbn [name _buildNode]. apply map_id. }
  split; [|split; [|split]].
  - intros w. rewrite Hnames, Hin, in_app_iff. reflexivity.
  - rewrite Hnames. exact Hnd.
  - intros w i. rewrite Hidx. split.
    + intros [[j [Hj Hi]]|[_ H]]; [|discriminate].
      cbn in Hi. subst j.
      exists (_buildNode w wordCounts seedSet finalWords).
      split; [|reflexivity]. rewrite nth_error_map, Hj. reflexivity.
    + intros [n [Hn Hname]]. left. exists i. split; [|reflexivity].
      rewrite nth_error_map in Hn.
      destruct (nth_error (set_iter (keys wordCounts ++ seedSet)) i)
        as [w'|]; [|discriminate].
      cbn in Hn. injection Hn as <-. cbn in Hname. congruence.
  - intros n Hn. apply in_map_iff in Hn. destruct Hn as [w [<- _]].
    reflexivity.
Qed.

End BuildNodes.

Lemma nodup_set_order : set_order_ok (nodup string_dec).
Proof.
  intros l. split; [apply NoDup_nodup|]. intros x. apply nodup_In.
Qed.

Lemma _buildNodes_index_witness :
  NoDup (map FormatNetwork.name
           (fst (FormatNetwork._buildNodes (nodup string_dec)
                   [("a", 2); ("b", 1)] ["a"; "c"] ["b"]))).
Proof.
  apply (proj1 (proj2 (_buildNodes_index (nodup string_dec) nodup_set_order
                         [("a", 2); ("b", 1)] ["a"; "c"] ["b"]))).
Defined.

(** ** The links of a network *)

Section LinkLoops.

Import Vocabularymonitor FormatNetwork.

Variable nodeIdx : dict nat.

Lemma links_of_triples_app (t1 t2 : list (string * string * float))
    (ll : list link) (out : list string) :
  links_of_triples (t1 ++ t2) nodeIdx ll out
  = match links_of_triples t1 nodeIdx ll out with
    | (out', Ok ll') => links_of_triples t2 nodeIdx ll' out'
    | (out', Raise e) => (out', Raise e)
    end.
Proof.
  revert ll out. induction t1 as [|[[seed word0] d] t1 IH]; intros ll out.
  - reflexivity.
  - cbn [app links_of_triples].
    destruct (dict_mem nodeIdx seed && dict_mem nodeIdx word0); [|apply IH].
    destruct (_buildLink seed word0 d nodeIdx); [apply IH|reflexivity].
Qed.

Lemma _buildLinks_results_triples (seed : string) (results : pairs)
    (ll : list link) (out : list string) :
  _buildLinks_results seed results nodeIdx ll out
  = links_of_triples
      (map (fun p : string * float => (seed, fst p, snd p)) results)
      nodeIdx ll out.
Proof.
  revert ll out. induction results as [|[word0 d] results IH]; intros ll out.
  - reflexivity.
  - cbn [_buildLinks_results map links_of_triples fst snd].
    destruct (dict_mem nodeIdx seed && dict_mem nodeIdx word0); [|apply IH].
    destruct (_buildLink seed word0 d nodeIdx); [apply IH|reflexivity].
Qed.

Lemma _buildLinks_seeds_triples (links0 : dict pairs) (ll : list link)
    (out : list string) :
  _buildLinks_seeds links0 nodeIdx ll out
  = links_of_triples
      (flat_map (fun sp : string * pairs =>
                   map (fun p : string * float => (fst sp, fst p, snd p))
                     (snd sp)) links0)
      nodeIdx ll out.
Proof.
  revert ll out. induction links0 as [|[seed results] links0 IH];
    intros ll out.
  - reflexivity.
  - cbn [_buildLinks_seeds flat_map fst snd].
    rewrite links_of_triples_app, _buildLinks_results_triples.
    destruct (links_of_triples _ nodeIdx ll out) as [out' [ll'|e]];
      [apply IH|reflexivity].
Qed.

Lemma _buildLinks_triples (yLinks : dict (dict pairs)) :
  _buildLinks yLinks nodeIdx
  = links_of_triples (link_triples yLinks) nodeIdx [] [].
Proof.
  unfold _buildLinks, link_triples.
  generalize (@nil link) as ll. generalize (@nil string) as out.
  induction (map snd yLinks) as [|links0 values IH]; intros out ll.
  - reflexivity.
  - cbn [_buildLinks_years flat_map].
    rewrite links_of_triples_app, _buildLinks_seeds_triples.
    destruct (links_of_triples _ nodeIdx ll out) as [out' [ll'|e]];
      [apply IH|reflexivity].
Qed.

(** A link between two words of the index. *)
Lemma _buildLink_indexed (seed word0 : string) (d : float) :
  dict_mem nodeIdx seed && dict_mem nodeIdx word0 = true ->
  exists i j,
    dict_get nodeIdx seed = Some i /\ dict_get nodeIdx word0 = Some j /\
    _buildLink seed word0 d nodeIdx
    = if (d + 1 =? 0)%float then Raise ZeroDivisionError
      else Ok {| source := i; target := j; value := (1 / (d + 1))%float |}.
Proof.
  unfold dict_mem, _buildLink, getitem. intros H.
  destruct (dict_get nodeIdx seed) as [i|]; [|discriminate].
  destruct (dict_get nodeIdx word0) as [j|]; [|discriminate].
  exists i, j. split; [reflexivity|]. split; [reflexivity|].
  cbn [bind]. destruct (d + 1 =? 0)%float; reflexivity.
Qed.

(** What the loop over the triples gives, from any links and lines. *)
Lemma links_of_triples_spec (triples : list (string * string * float))
    (ll : list link) (out : list string) :
  let r := links_of_triples triples nodeIdx ll out in
  (exists lines,
      fst r = out ++ lines /\
      (forall line, In line lines -> line = "Seed or word not in index!") /\
      (forall ll', snd r = Ok ll' ->
         exists new,
           ll' = ll ++ new /\
           List.length new + List.length lines = List.length triples /\
           (forall l, In l new ->
              exists seed word0 d,
                In (seed, word0, d) triples /\
                dict_get nodeIdx seed = Some (source l) /\
                dict_get nodeIdx word0 = Some (target l) /\
                value l = (1 / (d + 1))%float) /\
           (lines = [] <->
            forall seed word0 d,
              In (seed, word0, d) triples ->
              dict_mem nodeIdx seed && dict_mem nodeIdx word0 = true))) /\
  (forall e, snd r = Raise e ->
     e = ZeroDivisionError /\
     exists seed word0 d,
       In (seed, word0, d) triples /\ (d + 1 =? 0)%float = true).
Proof.
  revert ll out. induction triples as [|[[seed word0] d] triples IH];
    intros ll out.
  - cbn. split; [|intros e H; discriminate].
    exists []. rewrite app_nil_r. split; [reflexivity|].
    split; [intros line []|].
    intros ll' H. injection H as <-. exists []. rewrite app_nil_r.
    split; [reflexivity|]. split; [reflexivity|].
    split; [intros l []|]. split; [intros _ ? ? ? []|reflexivity].
  - cbn [links_of_triples].
    destruct (dict_mem nodeIdx seed && dict_mem nodeIdx word0) eqn:Hmem.
    + destruct (_buildLink_indexed seed word0 d Hmem)
        as [i [j [Hi [Hj ->]]]].
      destruct (d + 1 =? 0)%float eqn:Hz.
      * cbn. split.
        -- exists []. rewrite app_nil_r. split; [reflexivity|].
           split; [intros line []|]. intros ll' H. discriminate.
        -- intros e H. injection H as <-. split; [reflexivity|].
           exists seed, word0, d. split; [left; reflexivity|exact Hz].
      * specialize (IH (ll ++ [{| source := i; target := j;
                                  value := (1 / (d + 1))%float |}]) out).
        cbn zeta in IH |- *. destruct IH as [[lines [Hout [Hlines Hok]]] Hraise].
        split.
        -- exists lines. split; [exact Hout|]. split; [exact Hlines|].
           intros ll' Hll'. destruct (Hok ll' Hll')
             as [new [-> [Hlen [Hnew Hempty]]]].
           eexists (_ :: new). rewrite <- app_assoc.
           split; [reflexivity|]. split; [cbn [List.length]; lia|].
           split.
           ++ intros l [<-|Hl].
              ** exists seed, word0, d. cbn.
                 split; [left; reflexivity|]. repeat split; assumption.
              ** destruct (Hnew l Hl) as [s [w [d' [Hin H]]]].
                 exists s, w, d'. split; [right; exact Hin|exact H].
           ++ rewrite Hempty. split.
              ** intros H s w d' [E|Hin]; [|exact (H s w d' Hin)].
                 injection E as <- <- <-. exact Hmem.
              ** intros H s w d' Hin. apply (H s w d'). right. exact Hin.
        -- intros e He. destruct (Hraise e He) as [-> [s [w [d' [Hin Hd]]]]].
           split; [reflexivity|]. exists s, w, d'.
           split; [right; exact Hin|exact Hd].
    + specialize (IH ll (out ++ ["Seed or word not in index!"])).
      cbn zeta in IH |- *. destruct IH as [[lines [Hout [Hlines Hok]]] Hraise].
      split.
      * exists ("Seed or word not in index!" :: lines).
        split; [rewrite Hout, <- app_assoc; reflexivity|].
        split; [intros line [<-|Hl]; [reflexivity|exact (Hlines line Hl)]|].
        intros ll' Hll'. destruct (Hok ll' Hll')
          as [new [-> [Hlen [Hnew _]]]].
        exists new. split; [reflexivity|].
        split; [cbn [List.length]; lia|]. split.
        -- intros l Hl. destruct (Hnew l Hl) as [s [w [d' [Hin H]]]].
           exists s, w, d'. split; [right; exact Hin|exact H].
        -- split; [discriminate|]. intros H.
           specialize (H seed word0 d (or_introl eq_refl)). congruence.
      * intros e He. destruct (Hraise e He) as [-> [s [w [d' [Hin Hd]]]]].
        split; [reflexivity|]. exists s, w, d'.
        split; [right; exact Hin|exact Hd].
Qed.

(** X11.  [_buildLinks] never raises [KeyError]: a pair whose seed or word
    has no index is reported with a printed line and skipped, and the only
    exception is the division by zero of a pair at distance -1.  When it
    returns, every link joins the indexes of the seed and of the word of one
    of the pairs, with the strength [1 / (distance + 1)]; the links and the
    lines printed account for all the pairs; and nothing is printed exactly
    when every seed and every word has an index. *)
Theorem _buildLinks_guarded (yLinks : dict (dict pairs)) :
  let r := _buildLinks yLinks nodeIdx in
  (forall line, In line (fst r) -> line = "Seed or word not in index!") /\
  (forall e, snd r = Raise e ->
     e = ZeroDivisionError /\
     exists seed word0 d,
       In (seed, word0, d) (link_triples yLinks)
       /\ (d + 1 =? 0)%float = true) /\
  (forall ll, snd r = Ok ll ->
     List.length ll + List.length (fst r)
     = List.length (link_triples yLinks) /\
     (forall l, In l ll ->
        exists seed word0 d,
          In (seed, word0, d) (link_triples yLinks) /\
          dict_get nodeIdx seed = Some (source l) /\
          dict_get nodeIdx word0 = Some (target l) /\
          value l = (1 / (d + 1))%float) /\
     (fst r = [] <->
      forall seed word0 d,
        In (seed, word0, d) (link_triples yLinks) ->
        dict_mem nodeIdx seed && dict_mem nodeIdx word0 = true)).
Proof.
  intros r. subst r. rewrite _buildLinks_triples.
  destruct (links_of_triples_spec (link_triples yLinks) [] [])
    as [[lines [Hout [Hlines Hok]]] Hraise].
  cbn zeta in *. cbn [app] in Hout. rewrite Hout.
  split; [exact Hlines|]. split; [exact Hraise|].
  intros ll Hll. destruct (Hok ll Hll) as [new [-> [Hlen [Hnew Hempty]]]].
  cbn [app]. split; [exact Hlen|]. split; [exact Hnew|exact Hempty].
Qed.

End LinkLoops.

(** ** The network of a group of years *)

Section MetaToNetwork.

Import Vocabularymonitor FormatNetwork.

Variable set_iter : list string -> list string.
Hypothesis set_iter_ok : set_order_ok set_iter.

(** The nodes follow the iteration of the set of words, and the index of a
    word is its position there. *)
Lemma _buildNodes_spec (wordCounts : dict nat)
    (seedSet finalWords : list string) :
  let words := set_iter (keys wordCounts ++ seedSet) in
  let r := _buildNodes set_iter wordCounts seedSet finalWords in
  fst r = map (fun w => _buildNode w wordCounts seedSet finalWords) words /\
  forall w i, dict_get (snd r) w = Some i <-> nth_error words i = Some w.
Proof.
  intros words r. subst r. unfold _buildNodes. fold words.
  destruct (set_iter_ok (keys wordCounts ++ seedSet)) as [Hnd _].
  destruct (_buildNodes_for_spec wordCounts seedSet finalWords words 0 [] []
              Hnd) as [Hnodes Hidx].
  cbn zeta in Hnodes, Hidx. split; [exact Hnodes|].
  intros w i. rewrite Hidx. split.
  - intros [[j [Hj Hi]]|[_ H]]; [|discriminate]. cbn in Hi. congruence.
  - intros H. left. exists i. split; [exact H|reflexivity].
Qed.

Lemma _buildNodes_mem (wordCounts : dict nat)
    (seedSet finalWords : list string) (w : string) :
  dict_mem (snd (_buildNodes set_iter wordCounts seedSet finalWords)) w = true
  <-> In w (keys wordCounts) \/ In w seedSet.
Proof.
  destruct (_buildNodes_spec wordCounts seedSet finalWords) as [_ Hidx].
  cbn zeta in Hidx.
  destruct (set_iter_ok (keys wordCounts ++ seedSet)) as [_ Hin].
  rewrite <- in_app_iff, <- Hin. unfold dict_mem. split.
  - destruct (dict_get _ w) as [i|] eqn:E; [|discriminate].
    intros _. apply Hidx in E. exact (nth_error_In _ _ E).
  - intros H. apply In_nth_error in H. destruct H as [i Hi].
    apply Hidx in Hi. rewrite Hi. reflexivity.
Qed.

Lemma flat_map_id_In (seeds : dict (list string)) (w : string) :
  In w (flat_map (fun seed : list string => seed) (map snd seeds))
  <-> exists year seed, In (year, seed) seeds /\ In w seed.
Proof.
  rewrite in_flat_map. split.
  - intros [seed [Hs Hw]]. apply in_map_iff in Hs.
    destruct Hs as [[year seed'] [E Hin]]. cbn in E. subst seed'.
    exists year, seed. split; assumption.
  - intros [year [seed [Hin Hw]]]. exists seed. split; [|exact Hw].
    change seed with (snd (year, seed)). apply in_map, Hin.
Qed.

Lemma result_words_In (results : dict pairs) (w : string) :
  In w (flat_map (fun res : pairs => map fst res) (map snd results))
  <-> exists year res, In (year, res) results /\ In w (map fst res).
Proof.
  rewrite in_flat_map. split.
  - intros [res [Hr Hw]]. apply in_map_iff in Hr.
    destruct Hr as [[year res'] [E Hin]]. cbn in E. subst res'.
    exists year, res. split; assumption.
  - intros [year [res [Hin Hw]]]. exists res. split; [|exact Hw].
    change res with (snd (year, res)). apply in_map, Hin.
Qed.

(** X12.  When [_metaToNetwork] returns, its network has one node for every
    word of the results and every seed of the years, and no other.  The
    count of a node is the number of occurrences of its word in the
    results; its type is ["seed"] when the word is a seed of one of the
    years, else ["word"] when it is in the final vocabulary, else
    ["drop"].  Every link joins the node of its seed to the node of its
    word. *)
Theorem _metaToNetwork_graph (results : dict pairs)
    (seeds : dict (list string)) (finalVocab : pairs)
    (yLinks : dict (dict pairs)) (net : network) :
  snd (_metaToNetwork set_iter results seeds finalVocab yLinks) = Ok net ->
  let is_seed w := exists year seed, In (year, seed) seeds /\ In w seed in
  let in_results w :=
    exists year res, In (year, res) results /\ In w (map fst res) in
  NoDup (map name (nodes net)) /\
  (forall w, In w (map name (nodes net)) <-> in_results w \/ is_seed w) /\
  (forall n, In n (nodes net) ->
     count n
     = count_occ string_dec
         (flat_map (fun res : pairs => map fst res) (map snd results))
         (name n) /\
     (type n = "seed" <-> is_seed (name n)) /\
     (type n = "word" <->
      ~ is_seed (name n) /\ In (name n) (map fst finalVocab)) /\
     (type n = "drop" <->
      ~ is_seed (name n) /\ ~ In (name n) (map fst finalVocab))) /\
  (forall l, In l (links net) ->
     exists ns nt d,
       nth_error (nodes net) (source l) = Some ns /\
       nth_error (nodes net) (target l) = Some nt /\
       In (name ns, name nt, d) (link_triples yLinks) /\
       value l = (1 / (d + 1))%float).
Proof.
  unfold _metaToNetwork.
  set (wordCounts := Counter _). set (seedSet := flat_map _ (map snd seeds)).
  set (finalWords := map fst finalVocab).
  destruct (_buildNodes_spec wordCounts seedSet finalWords) as [Hnodes Hidx].
  cbn zeta in Hnodes, Hidx.
  destruct (set_iter_ok (keys wordCounts ++ seedSet)) as [Hnd Hin].
  destruct (_buildNodes set_iter wordCounts seedSet finalWords)
    as [nodes0 nodeIdx].
  cbn [fst snd] in Hnodes, Hidx.
  rewrite _buildLinks_triples.
  destruct (links_of_triples_spec nodeIdx (link_triples yLinks) [] [])
    as [[lines [_ [_ Hok]]] _].
  cbn zeta in Hok.
  destruct (links_of_triples (link_triples yLinks) nodeIdx [] [])
    as [out [links0|e]]; cbn [snd] in *; [|discriminate].
  intros Hnet. injection Hnet as <-. cbn [nodes links].
  assert (Hnames : map name nodes0 = set_iter (keys wordCounts ++ seedSet)).
  { rewrite Hnodes, map_map. cbn [name _buildNode]. apply map_id. }
  assert (Hseed : forall w,
             contains w seedSet = true
             <-> exists year seed, In (year, seed) seeds /\ In w seed).
  { intros w. rewrite contains_In. apply flat_map_id_In. }
  split; [rewrite Hnames; exact Hnd|]. split; [|split].
  - intros w. rewrite Hnames, Hin, in_app_iff.
    subst wordCounts. rewrite Counter_keys, result_words_In.
    rewrite <- Hseed, contains_In. reflexivity.
  - intros n Hn. rewrite Hnodes in Hn. apply in_map_iff in Hn.
    destruct Hn as [w [<- _]]. cbn [name count type _buildNode].
    split; [apply Counter_count|].
    rewrite <- Hseed. fold finalWords. rewrite <- (contains_In w finalWords).
    destruct (contains w seedSet), (contains w finalWords);
      repeat split; try discriminate; try reflexivity;
      try (intros [H1 H2]; congruence);
      try (intros [H1 H2]; destruct H1; reflexivity);
      try (intros [H1 H2]; destruct H2; reflexivity);
      try (intros H; discriminate H).
  - intros l Hl. destruct (Hok links0 eq_refl) as [new [E [_ [Hnew _]]]].
    cbn [app] in E. subst new.
    destruct (Hnew l Hl) as [seed [word0 [d [Ht [Hs [Hw Hv]]]]]].
    apply Hidx in Hs, Hw.
    exists (_buildNode seed wordCounts seedSet finalWords),
           (_buildNode word0 wordCounts seedSet finalWords), d.
    rewrite Hnodes, !nth_error_map, Hs, Hw. cbn [option_map name _buildNode].
    repeat split; assumption.
Qed.

End MetaToNetwork.

(** ** The networks of the aggregated years *)

Section SelectYears.

Import Vocabularymonitor FormatNetwork.

Context {V : Type}.

Lemma select_years_ok (d : dict V) (years : list string) (acc acc' : dict V) :
  select_years d years acc = Ok acc' ->
  (forall y, In y years -> dict_get d y <> None) /\
  (forall y, dict_get acc' y
             = if contains y years then dict_get d y else dict_get acc y) /\
  (NoDup (keys acc) -> NoDup (keys acc')).
Proof.
  revert acc. induction years as [|y0 years IH]; intros acc H.
  - cbn in H. injection H as <-. split; [intros y []|].
    split; [reflexivity|trivial].
  - cbn [select_years] in H. unfold getitem in H.
    destruct (dict_get d y0) as [v|] eqn:E; cbn [bind] in H; [|discriminate].
    destruct (IH _ H) as [Hin [Hget Hnd]]. split; [|split].
    + intros y [<-|Hy]; [congruence|exact (Hin y Hy)].
    + intros y. rewrite Hget, dict_get_set. unfold contains.
      cbn [existsb]. fold (contains y years).
      destruct (contains y years); [rewrite orb_true_r; reflexivity|].
      rewrite orb_false_r, String.eqb_sym.
      destruct (String.eqb_spec y y0) as [->|NE]; [congruence|reflexivity].
    + intros H0. apply Hnd, dict_set_NoDup, H0.
Qed.

Lemma select_years_raise (d : dict V) (years : list string) (acc : dict V)
    (e : exn) :
  select_years d years acc = Raise e ->
  exists y, In y years /\ dict_get d y = None /\ e = KeyError y.
Proof.
  revert acc. induction years as [|y0 years IH]; intros acc H.
  - discriminate.
  - cbn [select_years] in H. unfold getitem in H.
    destruct (dict_get d y0) as [v|] eqn:E; cbn [bind] in H.
    + destruct (IH _ H) as [y [Hy He]]. exists y.
      split; [right; exact Hy|exact He].
    + injection H as <-. exists y0.
      split; [left; reflexivity|]. split; [exact E|reflexivity].
Qed.

Lemma dict_get_rev (d : dict V) (k : string) :
  NoDup (keys d) -> dict_get (rev d) k = dict_get d k.
Proof.
  intros Hnd.
  assert (Hnd' : NoDup (keys (rev d))).
  { unfold keys. rewrite map_rev. apply NoDup_rev, Hnd. }
  destruct (dict_get d k) as [v|] eqn:E.
  - apply In_dict_get; [exact Hnd'|]. apply in_rev. rewrite rev_involutive.
    apply dict_get_In, E.
  - apply dict_get_None. apply dict_get_None in E.
    unfold keys in *. rewrite map_rev. intros H. apply E, in_rev, H.
Qed.

End SelectYears.

Section YearlyNetwork.

Import Vocabularymonitor FormatNetwork.

Variable set_iter : list string -> list string.

(** The only exception of [_metaToNetwork] is the division by zero. *)
Lemma _metaToNetwork_raises (results : dict pairs)
    (seeds : dict (list string)) (finalVocab : pairs)
    (yLinks : dict (dict pairs)) (e : exn) :
  snd (_metaToNetwork set_iter results seeds finalVocab yLinks) = Raise e ->
  e = ZeroDivisionError.
Proof.
  unfold _metaToNetwork.
  destruct (_buildNodes set_iter _ _ _) as [nodes0 nodeIdx].
  rewrite _buildLinks_triples.
  destruct (links_of_triples_spec nodeIdx (link_triples yLinks) [] [])
    as [_ Hraise].
  cbn zeta in Hraise.
  destruct (links_of_triples (link_triples yLinks) nodeIdx [] [])
    as [out [links0|e']]; cbn [snd] in *; [discriminate|].
  intros H. injection H as <-. exact (proj1 (Hraise e' eq_refl)).
Qed.

Lemma yearlyNetwork_for_spec (all items : dict (list string))
    (aggResults results : dict pairs) (links0 : dict (dict pairs))
    (networks : dict network) (out : list string) :
  incl items all ->
  let seeds := dict_of (fun seedResp : dict pairs => keys seedResp) links0 in
  let r := yearlyNetwork_for set_iter items aggResults results links0 seeds
             networks out in
  (forall e, snd r = Raise e ->
     e = ZeroDivisionError
     \/ exists k, e = KeyError k
                  /\ missing_key all aggResults results links0 k) /\
  (forall networks', snd r = Ok networks' ->
     (NoDup (keys networks) -> NoDup (keys networks')) /\
     (forall k, In k (keys networks')
                <-> In k (keys items) \/ In k (keys networks)) /\
     (forall year_mu years, In (year_mu, years) items ->
        dict_get aggResults year_mu <> None /\
        forall y, In y years ->
                  dict_get results y <> None /\ dict_get links0 y <> None)).
Proof.
  intros Hincl seeds. revert networks out.
  induction items as [|[year_mu years] items IH]; intros networks out.
  - cbn. split; [intros e H; discriminate|].
    intros networks' H. injection H as <-.
    split; [trivial|]. split; [intuition|]. intros ? ? [].
  - assert (Hhere : In (year_mu, years) all)
      by (apply Hincl; left; reflexivity).
    assert (Hrest : incl items all)
      by (intros x Hx; apply Hincl; right; exact Hx).
    specialize (IH Hrest). cbn [yearlyNetwork_for].
    destruct (select_years results years []) as [yResults|e1] eqn:E1;
      cbn [bind].
    2:{ cbn. split; [|intros ? H; discriminate].
        intros e H. injection H as <-. right.
        destruct (select_years_raise _ _ _ _ E1) as [y [Hy [Hnone ->]]].
        exists y. split; [reflexivity|]. left.
        exists year_mu, years. split; [exact Hhere|].
        split; [exact Hy|left; exact Hnone]. }
    destruct (select_years links0 years []) as [yLinks|e2] eqn:E2;
      cbn [bind].
    2:{ cbn. split; [|intros ? H; discriminate].
        intros e H. injection H as <-. right.
        destruct (select_years_raise _ _ _ _ E2) as [y [Hy [Hnone ->]]].
        exists y. split; [reflexivity|]. left.
        exists year_mu, years. split; [exact Hhere|].
        split; [exact Hy|right; exact Hnone]. }
    destruct (select_years seeds years []) as [ySeeds|e3] eqn:E3;
      cbn [bind].
    2:{ cbn. split; [|intros ? H; discriminate].
        intros e H. injection H as <-. right.
        destruct (select_years_raise _ _ _ _ E3) as [y [Hy [Hnone ->]]].
        exists y. split; [reflexivity|]. left.
        exists year_mu, years. split; [exact Hhere|].
        split; [exact Hy|right].
        apply dict_get_None. apply dict_get_None in Hnone.
        intros Hin. apply Hnone. subst seeds.
        apply (proj1 (proj2 (dict_of_spec _ links0))). exact Hin. }
    unfold getitem.
    destruct (dict_get aggResults year_mu) as [finalVocab|] eqn:E4;
      cbn [bind].
    2:{ cbn. split; [|intros ? H; discriminate].
        intros e H. injection H as <-. right. exists year_mu.
        split; [reflexivity|]. right. split; [|exact E4].
        change year_mu with (fst (year_mu, years)). apply in_map, Hhere. }
    pose proof (_metaToNetwork_raises yResults ySeeds finalVocab yLinks)
      as Hmeta.
    destruct (_metaToNetwork set_iter yResults ySeeds finalVocab yLinks)
      as [out' [net|e5]]; cbn [snd] in Hmeta.
    2:{ cbn. split; [|intros ? H; discriminate].
        intros e H. injection H as <-. left. apply Hmeta. reflexivity. }
    specialize (IH (dict_set networks year_mu net) (out ++ out')).
    cbn zeta in IH. destruct IH as [Hraise Hok]. split; [exact Hraise|].
    intros networks' H. destruct (Hok networks' H) as [Hnd [Hkeys Hpresent]].
    split; [|split].
    + intros H0. apply Hnd, dict_set_NoDup, H0.
    + intros k. rewrite Hkeys, keys_dict_set.
      change (keys ((year_mu, years) :: items)) with (year_mu :: keys items).
      cbn [In]. intuition.
    + intros ym ys [E|Hin]; [|exact (Hpresent ym ys Hin)].
      injection E as <- <-. split; [congruence|].
      intros y Hy. split.
      * exact (proj1 (select_years_ok _ _ _ _ E1) y Hy).
      * exact (proj1 (select_years_ok _ _ _ _ E2) y Hy).
Qed.

(** X13.  [yearlyNetwork] raises [KeyError] only on a key that is really
    missing: a year of an aggregated period that the results or the links
    lack, or an aggregated year that the aggregated results lack; its only
    other exception is the division by zero of a link.  When it returns,
    none of these keys is missing and there is one network for every
    aggregated year. *)
Theorem yearlyNetwork_key_errors (aggPeriods : dict (list string))
    (aggResults results : dict pairs) (links0 : dict (dict pairs)) :
  let r := yearlyNetwork set_iter aggPeriods aggResults results links0 in
  (forall e, snd r = Raise e ->
     e = ZeroDivisionError
     \/ exists k, e = KeyError k
                  /\ missing_key aggPeriods aggResults results links0 k) /\
  (forall networks, snd r = Ok networks ->
     NoDup (keys networks) /\
     (forall k, In k (keys networks) <-> In k (keys aggPeriods)) /\
     (forall k, ~ missing_key aggPeriods aggResults results links0 k)).
Proof.
  intros r. subst r. unfold yearlyNetwork.
  destruct (yearlyNetwork_for_spec aggPeriods aggPeriods aggResults results
              links0 [] [] (incl_refl _)) as [Hraise Hok].
  cbn zeta in Hraise, Hok. split; [exact Hraise|].
  intros networks H. destruct (Hok networks H) as [Hnd [Hkeys Hpresent]].
  split; [apply Hnd; constructor|]. split.
  - intros k. rewrite Hkeys. cbn. intuition.
  - intros k [[year_mu [years [Hin [Hy [Hnone|Hnone]]]]]|[Hin Hnone]].
    + exact (proj1 (proj2 (Hpresent year_mu years Hin) k Hy) Hnone).
    + exact (proj2 (proj2 (Hpresent year_mu years Hin) k Hy) Hnone).
    + apply in_map_iff in Hin. destruct Hin as [[ym ys] [E Hin]].
      cbn in E. subst ym.
      exact (proj1 (Hpresent k ys Hin) Hnone).
Qed.

End YearlyNetwork.

Section SilentNetworks.

Import Vocabularymonitor FormatNetwork.

Variable set_iter : list string -> list string.
Hypothesis set_iter_ok : set_order_ok set_iter.

Lemma links_of_triples_silent (nodeIdx : dict nat)
    (triples : list (string * string * float)) (ll : list link)
    (out : list string) :
  (forall seed word0 d,
      In (seed, word0, d) triples ->
      dict_mem nodeIdx seed && dict_mem nodeIdx word0 = true) ->
  fst (links_of_triples triples nodeIdx ll out) = out.
Proof.
  revert ll. induction triples as [|[[seed word0] d] triples IH];
    intros ll H; [reflexivity|].
  cbn [links_of_triples].
  rewrite (H seed word0 d (or_introl eq_refl)).
  destruct (_buildLink seed word0 d nodeIdx); [|reflexivity].
  apply IH. intros s w d' Hin. apply (H s w d'). right. exact Hin.
Qed.

Lemma link_triples_In (yLinks : dict (dict pairs)) (seed w : string)
    (d : float) :
  In (seed, w, d) (link_triples yLinks)
  <-> exists year lk ps,
        In (year, lk) yLinks /\ In (seed, ps) lk /\ In (w, d) ps.
Proof.
  unfold link_triples. rewrite in_flat_map. split.
  - intros [lk [Hlk H]]. apply in_map_iff in Hlk.
    destruct Hlk as [[year lk'] [E Hin]]. cbn in E. subst lk'.
    apply in_flat_map in H. destruct H as [[seed' ps] [Hsp H]].
    apply in_map_iff in H. destruct H as [[w' d'] [E Hp]].
    cbn in E. injection E as -> -> ->.
    exists year, lk, ps. repeat split; assumption.
  - intros [year [lk [ps [Hin [Hsp Hp]]]]]. exists lk. split.
    + change lk with (snd (year, lk)). apply in_map, Hin.
    + apply in_flat_map. exists (seed, ps). split; [exact Hsp|].
      apply in_map_iff. exists (w, d). split; [reflexivity|exact Hp].
Qed.

(** Nothing is printed when every seed of the links is a seed of the years
    and every word of the links is a word of the results. *)
Lemma _metaToNetwork_silent (results : dict pairs)
    (seeds : dict (list string)) (finalVocab : pairs)
    (yLinks : dict (dict pairs)) :
  (forall seed w d,
      In (seed, w, d) (link_triples yLinks) ->
      (exists year sl, In (year, sl) seeds /\ In seed sl) /\
      (exists year res, In (year, res) results /\ In w (map fst res))) ->
  fst (_metaToNetwork set_iter results seeds finalVocab yLinks) = [].
Proof.
  intros H. unfold _metaToNetwork.
  set (wordCounts := Counter _). set (seedSet := flat_map _ (map snd seeds)).
  pose proof (_buildNodes_mem set_iter set_iter_ok wordCounts seedSet
                (map fst finalVocab)) as Hmem.
  destruct (_buildNodes set_iter wordCounts seedSet (map fst finalVocab))
    as [nodes0 nodeIdx].
  cbn [snd] in Hmem. rewrite _buildLinks_triples.
  pose proof (links_of_triples_silent nodeIdx (link_triples yLinks) [] [])
    as Hsilent.
  destruct (links_of_triples (link_triples yLinks) nodeIdx [] [])
    as [out [links0|e]]; cbn [fst] in *; apply Hsilent;
    intros seed w d Hin; destruct (H seed w d Hin) as [Hs Hw];
    apply andb_true_intro; split; apply Hmem.
  - right. apply flat_map_id_In, Hs.
  - left. apply Counter_keys, result_words_In, Hw.
  - right. apply flat_map_id_In, Hs.
  - left. apply Counter_keys, result_words_In, Hw.
Qed.

Lemma yearlyNetwork_for_silent (items : dict (list string))
    (aggResults results : dict pairs) (links0 : dict (dict pairs))
    (networks : dict network) (out : list string) :
  links_within results links0 ->
  fst (yearlyNetwork_for set_iter items aggResults results links0
         (dict_of (fun seedResp : dict pairs => keys seedResp) links0)
         networks out) = out.
Proof.
  intros [Hnd Hwithin]. set (seeds := dict_of _ links0).
  revert networks out.
  induction items as [|[year_mu years] items IH]; intros networks out;
    [reflexivity|].
  cbn [yearlyNetwork_for].
  destruct (select_years results years []) as [yResults|e1] eqn:E1;
    cbn [bind]; [|reflexivity].
  destruct (select_years links0 years []) as [yLinks|e2] eqn:E2;
    cbn [bind]; [|reflexivity].
  destruct (select_years seeds years []) as [ySeeds|e3] eqn:E3;
    cbn [bind]; [|reflexivity].
  destruct (getitem aggResults year_mu) as [finalVocab|e4]; cbn [bind];
    [|reflexivity].
  assert (Hsilent :
    fst (_metaToNetwork set_iter yResults ySeeds finalVocab yLinks) = []).
  { apply _metaToNetwork_silent. intros seed w d Hin.
    apply link_triples_In in Hin.
    destruct Hin as [year [lk [ps [Hy [Hsp Hp]]]]].
    destruct (select_years_ok _ _ _ _ E1) as [_ [Hget1 _]].
    destruct (select_years_ok _ _ _ _ E2) as [_ [Hget2 Hnd2]].
    destruct (select_years_ok _ _ _ _ E3) as [_ [Hget3 _]].
    assert (Hlk : dict_get yLinks year = Some lk).
    { apply In_dict_get; [apply Hnd2; constructor|exact Hy]. }
    rewrite Hget2 in Hlk.
    destruct (contains year years) eqn:Hc; [|discriminate].
    destruct (Hwithin year lk seed ps w d Hlk Hsp Hp) as [terms [Ht Hw]].
    split.
    - exists year, (keys lk). split.
      + apply dict_get_In. rewrite Hget3, Hc. subst seeds.
        rewrite (proj1 (proj2 (proj2 (dict_of_spec _ links0)))).
        rewrite (dict_get_rev links0 year Hnd), Hlk. reflexivity.
      + change seed with (fst (seed, ps)). apply in_map, Hsp.
    - exists year, terms. split; [|exact Hw].
      apply dict_get_In. rewrite Hget1, Hc. exact Ht. }
  destruct (_metaToNetwork set_iter yResults ySeeds finalVocab yLinks)
    as [out' [net|e5]]; cbn [fst] in Hsilent; subst out'.
  - rewrite IH, app_nil_r. reflexivity.
  - cbn. apply app_nil_r.
Qed.

Variable self : VocabularyMonitor.
Variable seedTerms : seedTermsArg.
Variables maxTerms maxRelatedTerms : nat.
Variables startKey endKey : option string.
Variables minSim wordBoost : float.
Variables forwards sumSimilarity : bool.
Variable algorithm : string.
Variable cleaningFunction : option cleaner.

(** The links a tracking returns lead to words of its terms. *)
Lemma trackClouds_links_within
    (yT : SortedDict pairs) (yL : SortedDict (dict pairs)) :
  StronglySorted str_lt (getAvailableYears self) ->
  trackClouds self seedTerms maxTerms maxRelatedTerms startKey endKey minSim
    wordBoost forwards sumSimilarity algorithm cleaningFunction
  = Ok (yT, yL) ->
  links_within yT yL.
Proof.
  intros Hs Hrun.
  destruct (trackClouds_result_keys self seedTerms maxTerms maxRelatedTerms
              startKey endKey minSim wordBoost forwards sumSimilarity
              algorithm cleaningFunction yT yL Hs Hrun)
    as [range [Hsel [HT HL]]].
  split.
  - rewrite HL. apply sorted_NoDup.
    apply (selectKeys_sorted _ _ _ _ Hs Hsel).
  - intros year lk seed ps w d Hlk Hsp Hp.
    assert (Hin : In year (keys yT)).
    { rewrite HT, <- HL. apply (sd_get_Some_In yL year lk).
      rewrite sd_get_dict_get. exact Hlk. }
    destruct (sd_get_In yT year Hin) as [terms Hterms].
    exists terms. split; [rewrite <- sd_get_dict_get; exact Hterms|].
    destruct (trackClouds_values self seedTerms maxTerms maxRelatedTerms
                startKey endKey minSim wordBoost forwards sumSimilarity
                algorithm cleaningFunction yT yL year terms Hs Hrun Hterms)
      as [m [seeds [boost [reward [_ [E _]]]]]].
    rewrite sd_get_dict_get, Hlk in E.
    pose proof (_trackCore_shape m seeds maxTerms maxRelatedTerms minSim
                  boost reward cleaningFunction) as Hshape.
    rewrite <- E in Hshape. cbn [fst snd] in Hshape.
    destruct Hshape as [_ [_ [_ [_ [_ Hlinks]]]]].
    exact (proj1 (Hlinks seed ps Hsp (w, d) Hp)).
Qed.

(** X14.  The networks of the results and links of one tracking call are
    built without a single printed line: whatever the aggregated periods,
    every seed and every word of every link has a node, so that no pair is
    skipped as not in the index. *)
Theorem yearlyNetwork_of_tracking
    (yT : SortedDict pairs) (yL : SortedDict (dict pairs))
    (aggPeriods : dict (list string)) (aggResults : dict pairs) :
  StronglySorted str_lt (getAvailableYears self) ->
  trackClouds self seedTerms maxTerms maxRelatedTerms startKey endKey minSim
    wordBoost forwards sumSimilarity algorithm cleaningFunction
  = Ok (yT, yL) ->
  fst (yearlyNetwork set_iter aggPeriods aggResults yT yL) = [].
Proof.
  intros Hs Hrun. unfold yearlyNetwork.
  apply yearlyNetwork_for_silent.
  exact (trackClouds_links_within yT yL Hs Hrun).
Qed.

End SilentNetworks.

Section PathFacts.

Import PosixPath.

Lemma rfind_from_app (c : ascii) (s t : string) (i last : Z) :
  rfind_from c (s ++ t)%string i last
  = rfind_from c t (i + Z.of_nat (String.length s))
      (rfind_from c s i last).
Proof.
  revert i last. induction s as [|a s IH]; intros i last.
  - cbn. f_equal. lia.
  - cbn [append rfind_from String.length]. rewrite IH. f_equal. lia.
Qed.

Lemma rfind_from_absent (c : ascii) (s : string) (i last : Z) :
  occurs c s = false -> rfind_from c s i last = last.
Proof.
  revert i last. induction s as [|a s IH]; intros i last H; [reflexivity|].
  cbn [occurs] in H. apply orb_false_iff in H. destruct H as [Ha Hs].
  cbn [rfind_from]. rewrite Ha. apply IH, Hs.
Qed.

Lemma occurs_app (c : ascii) (s t : string) :
  occurs c (s ++ t)%string = occurs c s || occurs c t.
Proof.
  induction s as [|a s IH]; [reflexivity|].
  cbn [append occurs]. rewrite IH. apply orb_assoc.
Qed.

(** The last occurrence is the one nothing follows. *)
Lemma rfind_last (c : ascii) (s t : string) :
  occurs c t = false ->
  rfind c (s ++ String c t)%string = Z.of_nat (String.length s).
Proof.
  intros H. unfold rfind. rewrite rfind_from_app. cbn [rfind_from].
  rewrite Ascii.eqb_refl. rewrite (rfind_from_absent c t _ _ H). lia.
Qed.

Lemma length_app (s t : string) :
  String.length (s ++ t)%string = (String.length s + String.length t)%nat.
Proof. induction s as [|a s IH]; cbn; [reflexivity|]. now rewrite IH. Qed.

Lemma substring_all (s : string) : substring 0 (String.length s) s = s.
Proof. induction s as [|a s IH]; cbn; [reflexivity|]. now rewrite IH. Qed.

Lemma substring_skip (s t : string) (n : nat) :
  substring (String.length s) n (s ++ t)%string = substring 0 n t.
Proof. induction s as [|a s IH]; cbn; [reflexivity|]. exact IH. Qed.

Lemma substring_prefix (s t : string) :
  substring 0 (String.length s) (s ++ t)%string = s.
Proof.
  induction s as [|a s IH]; cbn.
  - destruct t; reflexivity.
  - now rewrite IH.
Qed.

Lemma slice_from_app (s t : string) :
  slice_from (s ++ t)%string (String.length s) = t.
Proof.
  unfold slice_from. rewrite substring_skip, length_app.
  replace (String.length s + String.length t - String.length s)%nat
    with (String.length t) by lia.
  apply substring_all.
Qed.

Lemma slice_to_app (s t : string) :
  slice_to (s ++ t)%string (String.length s) = s.
Proof. apply substring_prefix. Qed.

Lemma get_app_length (s t : string) (a : ascii) :
  String.get (String.length s) (s ++ String a t)%string = Some a.
Proof. induction s as [|b s IH]; cbn; [reflexivity|exact IH]. Qed.

Lemma app_String_assoc (s t : string) (a : ascii) :
  (s ++ String a t)%string = ((s ++ String a EmptyString) ++ t)%string.
Proof. induction s as [|b s IH]; cbn; [reflexivity|]. now rewrite IH. Qed.

(** The loop of [splitext] over a name finds a character that is no dot
    exactly when the name has one. *)
Lemma splitext_while_name (pre name t : string) :
  splitext_while (pre ++ name ++ t)%string (String.length pre)
    (String.length name)
  = some_letter name.
Proof.
  revert pre. induction name as [|a name IH]; intros pre; [reflexivity|].
  cbn [String.length splitext_while some_letter append].
  rewrite get_app_length.
  destruct (Ascii.eqb a ".") eqn:E; cbn [negb orb]; [|reflexivity].
  rewrite app_String_assoc.
  replace (S (String.length pre))
    with (String.length (pre ++ String a EmptyString)%string)
    by (rewrite length_app; cbn; lia).
  apply IH.
Qed.

Lemma basename_app (dir b : string) :
  occurs "/" b = false ->
  basename (dir ++ String "/" b)%string = b.
Proof.
  intros H. unfold basename. rewrite (rfind_last _ dir b H).
  replace (Z.to_nat (Z.of_nat (String.length dir) + 1))
    with (String.length (dir ++ String "/" EmptyString)%string)
    by (rewrite length_app; cbn; lia).
  rewrite app_String_assoc. apply slice_from_app.
Qed.

Lemma splitext_app (name ext : string) :
  occurs "/" name = false -> occurs "/" ext = false ->
  occurs "." ext = false -> some_letter name = true ->
  splitext (name ++ String "." ext)%string = (name, String "." ext).
Proof.
  intros Hn He Hd Hl. unfold splitext.
  assert (Hsep : rfind "/" (name ++ String "." ext)%string = (-1)%Z).
  { apply rfind_from_absent. rewrite occurs_app, Hn. cbn [occurs].
    rewrite He. reflexivity. }
  rewrite Hsep, (rfind_last _ name ext Hd).
  replace (-1 <? Z.of_nat (String.length name))%Z with true
    by (symmetry; apply Z.ltb_lt; lia).
  replace (Z.to_nat (-1 + 1)) with (String.length EmptyString)
    by reflexivity.
  replace (Z.to_nat (Z.of_nat (String.length name) - (-1 + 1)))
    with (String.length name) by lia.
  change (name ++ String "." ext)%string
    with (EmptyString ++ name ++ String "." ext)%string at 1.
  rewrite splitext_while_name, Hl. cbn [andb].
  rewrite Nat2Z.id, slice_to_app, slice_from_app. reflexivity.
Qed.

End PathFacts.

Section LoaderFacts.

Import Vocabularymonitor Loader.

Variable glob : string -> list string.
Variable load_word2vec_format : string -> bool -> result W2VModel.
Variable load : string -> option string -> result W2VModel.
Variable CachedW2VModelEvaluator : W2VModel -> result W2VModel.

Let load_for :=
  _loadAllModels_for load_word2vec_format load CachedW2VModelEvaluator.

(** One round of the loop of [_loadAllModels] that is followed by
    others. *)
Lemma _loadAllModels_for_cons (f : string) (files : list string)
    (binary useCache useMmap w2vFormat : bool)
    (models models' : SortedDict W2VModel) (out : list string) :
  snd (load_for (f :: files) binary useCache useMmap w2vFormat models out)
  = Loaded models' ->
  exists m kept,
    loaded_from load_word2vec_format load binary useMmap w2vFormat f = Ok m
    /\ kept_as CachedW2VModelEvaluator useCache m = Ok kept
    /\ load_for (f :: files) binary useCache useMmap w2vFormat models out
       = load_for files binary useCache useMmap w2vFormat
           (sd_set (sd_set models (sModelName_of f) m) (sModelName_of f)
              kept)
           (out ++ loading_lines useCache f).
Proof.
  subst load_for. cbn [_loadAllModels_for]. unfold loaded_from, kept_as.
  destruct (w2vFormat && useMmap); [discriminate|]. cbv zeta.
  set (l := if w2vFormat then load_word2vec_format f binary
            else load f (if useMmap then Some "r" else None)).
  replace ((if w2vFormat
            then fun name => load_word2vec_format name binary
            else fun name => load name (if useMmap then Some "r" else None))
             f) with l by (subst l; destruct w2vFormat; reflexivity).
  destruct l as [m|e]; [|discriminate].
  destruct useCache; cbn [loading_lines].
  - rewrite sd_get_set_same.
    destruct (CachedW2VModelEvaluator m) as [kept|e] eqn:Ec;
      [|discriminate].
    intros _. exists m, kept. rewrite <- !app_assoc.
    split; [reflexivity|]. split; [exact Ec|reflexivity].
  - intros _. exists m, m. split; [reflexivity|]. split; [reflexivity|].
    f_equal. clear. induction models as [|[k v] d IH]; cbn [sd_set].
    + rewrite str_compare_refl. reflexivity.
    + destruct (String_as_OT.compare (sModelName_of f) k) eqn:E;
        cbn [sd_set]; rewrite ?str_compare_refl, ?E, <- ?IH; reflexivity.
Qed.

(** What the loop of [_loadAllModels] leaves when it runs to its end. *)
Lemma _loadAllModels_for_spec (files : list string)
    (binary useCache useMmap w2vFormat : bool)
    (models models' : SortedDict W2VModel) (out : list string) :
  StronglySorted str_lt (keys models) ->
  snd (load_for files binary useCache useMmap w2vFormat models out)
  = Loaded models' ->
  StronglySorted str_lt (keys models') /\
  (forall k, In k (keys models')
             <-> In k (keys models)
                 \/ exists f, In f files /\ sModelName_of f = k) /\
  fst (load_for files binary useCache useMmap w2vFormat models out)
  = out ++ flat_map (loading_lines useCache) files /\
  (forall k, (forall f, In f files -> sModelName_of f <> k) ->
             sd_get models' k = sd_get models k) /\
  (forall pre f post,
      files = pre ++ f :: post ->
      (forall g, In g post -> sModelName_of g <> sModelName_of f) ->
      exists m,
        loaded_from load_word2vec_format load binary useMmap w2vFormat f
        = Ok m /\
        exists kept,
          kept_as CachedW2VModelEvaluator useCache m = Ok kept /\
          sd_get models' (sModelName_of f) = Some kept).
Proof.
  revert models out.
  induction files as [|f files IH]; intros models out Hs Hrun.
  - subst load_for. cbn in Hrun. injection Hrun as <-. cbn.
    rewrite app_nil_r.
    split; [exact Hs|]. split; [|split; [reflexivity|split]].
    + intros k. split; [now left|]. intros [H|[f [[] _]]]. exact H.
    + reflexivity.
    + intros [|? ?] f post E; discriminate.
  - destruct (_loadAllModels_for_cons _ _ _ _ _ _ _ _ _ Hrun)
      as [m [kept [Hm [Hkept E]]]].
    rewrite E in Hrun |- *.
    assert (Hs1 : StronglySorted str_lt
                    (keys (sd_set (sd_set models (sModelName_of f) m)
                             (sModelName_of f) kept)))
      by apply sd_set_sorted, sd_set_sorted, Hs.
    destruct (IH _ _ Hs1 Hrun) as [Hs' [Hk [Ho [Hsame Hlast]]]].
    split; [exact Hs'|]. split; [|split; [|split]].
    + intros k. rewrite Hk, !keys_sd_set. cbn [In]. split.
      * intros [[->|[->|H]]|[g [Hg Eg]]]; eauto.
      * intros [H|[g [[<-|Hg] Eg]]]; eauto.
    + rewrite Ho. cbn [flat_map]. rewrite <- app_assoc. reflexivity.
    + intros k Hno. rewrite Hsame.
      * assert (sModelName_of f <> k) by (apply Hno; left; reflexivity).
        rewrite !sd_get_set_other by congruence. reflexivity.
      * intros g Hg. apply Hno. right. exact Hg.
    + intros pre g post Eg Hpost. destruct pre as [|f0 pre].
      * cbn in Eg. injection Eg as <- <-.
        exists m. split; [exact Hm|]. exists kept.
        split; [exact Hkept|]. rewrite (Hsame _ Hpost).
        apply sd_get_set_same.
      * cbn in Eg. injection Eg as <- ->.
        apply (Hlast pre g post eq_refl Hpost).
Qed.

(** The assertion can only fail on the first file. *)
Lemma _loadAllModels_for_assertion (files : list string)
    (binary useCache useMmap w2vFormat : bool)
    (models : SortedDict W2VModel) (out : list string) (msg : string) :
  snd (load_for files binary useCache useMmap w2vFormat models out)
  = AssertionError msg ->
  w2vFormat = true /\ useMmap = true /\ files <> [].
Proof.
  subst load_for. revert models out.
  induction files as [|f files IH]; intros models out Hrun;
    [discriminate|].
  cbn [_loadAllModels_for] in Hrun.
  destruct (w2vFormat && useMmap) eqn:E.
  - apply andb_prop in E. destruct E. repeat split; [assumption..|].
    discriminate.
  - cbv zeta in Hrun.
    destruct ((if w2vFormat
               then fun name => load_word2vec_format name binary
               else fun name => load name (if useMmap then Some "r" else None))
                f) as [m|e]; [|discriminate].
    destruct useCache.
    + rewrite sd_get_set_same in Hrun.
      destruct (CachedW2VModelEvaluator m) as [kept|e]; [|discriminate].
      destruct (IH _ _ Hrun) as [-> [-> _]]. discriminate.
    + destruct (IH _ _ Hrun) as [-> [-> _]]. discriminate.
Qed.

(** X15.  A monitor that [__init__] has built has its years in strictly
    ascending order, whatever the order in which [glob] lists the files: the
    years are the names of the files, each once.  Under the name of a file
    it keeps the model loaded from the last file of that name, loaded as
    binary whatever [binary] is, and wrapped in the evaluator when the cache
    is used.  For every file the line with its name was printed, followed by
    the line of the cache when that is used. *)
Theorem __init___years (globPattern : string)
    (binary useCache useMmap w2vFormat : bool) (self : VocabularyMonitor) :
  snd (__init__ glob load_word2vec_format load CachedW2VModelEvaluator
         globPattern binary useCache useMmap w2vFormat) = Loaded self ->
  StronglySorted str_lt (getAvailableYears self) /\
  (forall k, In k (getAvailableYears self)
             <-> exists f, In f (glob globPattern) /\ sModelName_of f = k) /\
  (forall pre f post,
      glob globPattern = pre ++ f :: post ->
      (forall g, In g post -> sModelName_of g <> sModelName_of f) ->
      exists m kept,
        loaded_from load_word2vec_format load true useMmap w2vFormat f
        = Ok m /\
        kept_as CachedW2VModelEvaluator useCache m = Ok kept /\
        sd_get (_models self) (sModelName_of f) = Some kept) /\
  fst (__init__ glob load_word2vec_format load CachedW2VModelEvaluator
         globPattern binary useCache useMmap w2vFormat)
  = flat_map (loading_lines useCache) (glob globPattern).
Proof.
  unfold __init__, _loadAllModels. intros Hrun.
  pose proof (fun models' =>
                _loadAllModels_for_spec (glob globPattern) true useCache
                  useMmap w2vFormat [] models' [] (SSorted_nil _)) as Hspec.
  subst load_for. cbv beta in Hspec.
  destruct (_loadAllModels_for load_word2vec_format load
              CachedW2VModelEvaluator (glob globPattern) true useCache
              useMmap w2vFormat [] []) as [out [models| |]];
    cbn [snd fst] in Hrun |- *; try discriminate.
  injection Hrun as <-.
  destruct (Hspec models eq_refl) as [Hs [Hk [Ho [_ Hlast]]]].
  unfold getAvailableYears. cbn [_models].
  split; [exact Hs|]. split; [|split; [|exact Ho]].
  - intros k. rewrite Hk. cbn [keys map In]. intuition.
  - intros pre f post E Hpost.
    destruct (Hlast pre f post E Hpost) as [m [Hm [kept [Hkept Hget]]]].
    exists m, kept. auto.
Qed.

(** X16.  [__init__] fails its assertion exactly when the w2v format is
    asked for together with mmap and the pattern matches a file; it fails
    before anything is loaded or printed.  A pattern that matches nothing
    gives an empty monitor whatever the arguments. *)
Theorem __init___assertion (globPattern : string)
    (binary useCache useMmap w2vFormat : bool) :
  let r := __init__ glob load_word2vec_format load CachedW2VModelEvaluator
             globPattern binary useCache useMmap w2vFormat in
  (w2vFormat = true /\ useMmap = true /\ glob globPattern <> []
   <-> exists msg, snd r = AssertionError msg) /\
  (forall msg, snd r = AssertionError msg ->
     r = ([], AssertionError "Mmap cannot be used with w2v format")) /\
  (glob globPattern = [] -> r = ([], Loaded {| _models := [] |})).
Proof.
  cbv zeta. unfold __init__, _loadAllModels.
  pose proof (_loadAllModels_for_assertion (glob globPattern) true useCache
                useMmap w2vFormat [] []) as Hassert.
  subst load_for. cbv beta in Hassert.
  split; [split|split].
  - intros [-> [-> Hne]]. destruct (glob globPattern); [congruence|].
    cbn. eexists. reflexivity.
  - intros [msg Hrun].
    destruct (_loadAllModels_for load_word2vec_format load
                CachedW2VModelEvaluator (glob globPattern) true useCache
                useMmap w2vFormat [] []) as [out [models|msg'|e]];
      cbn [snd] in Hrun; try discriminate.
    apply (Hassert msg'). reflexivity.
  - intros msg Hrun.
    destruct (_loadAllModels_for load_word2vec_format load
                CachedW2VModelEvaluator (glob globPattern) true useCache
                useMmap w2vFormat [] []) as [out [models|msg'|e]] eqn:E;
      cbn [snd] in Hrun; try discriminate.
    destruct (Hassert msg' eq_refl) as [-> [-> Hne]].
    destruct (glob globPattern); [congruence|].
    cbn in E. injection E as <- <-. reflexivity.
  - intros ->. reflexivity.
Qed.

End LoaderFacts.

(** X17.  A file named after its years gives the model those years as its
    key: in any directory, the name of [name.ext] is [name], when the name
    has no separator and is not made of dots only, and the extension has
    neither a separator nor a dot. *)
Theorem sModelName_of_file (dir name ext : string) :
  occurs "/" name = false -> occurs "/" ext = false ->
  occurs "." ext = false -> some_letter name = true ->
  Loader.sModelName_of (dir ++ "/" ++ name ++ "." ++ ext)%string = name.
Proof.
  intros Hn He Hd Hl. unfold Loader.sModelName_of.
  change (dir ++ "/" ++ name ++ "." ++ ext)%string
    with (dir ++ String "/" (name ++ String "." ext))%string.
  rewrite basename_app.
  - rewrite (splitext_app name ext Hn He Hd Hl). reflexivity.
  - rewrite occurs_app, Hn. cbn [occurs]. rewrite He. reflexivity.
Qed.

Lemma sModelName_of_file_witness :
  Loader.sModelName_of "models/1952_1961.w2v" = "1952_1961".
Proof.
  apply (sModelName_of_file "models" "1952_1961" "w2v"); reflexivity.
Defined.

Lemma __init___years_witness :
  exists self,
    snd (Loader.__init__
           (fun _ => ["models/1951_1960.w2v"; "models/1950_1959.w2v"])
           (fun _ _ => Ok Examples.model_ab) (fun _ _ => Ok Examples.model_ba)
           (fun m => Ok m) "models/*.w2v" false true false true)
    = Loader.Loaded self /\
    StronglySorted str_lt (Vocabularymonitor.getAvailableYears self).
Proof.
  eexists. split; [vm_compute; reflexivity|].
  eapply proj1.
  eapply (__init___years
            (fun _ => ["models/1951_1960.w2v"; "models/1950_1959.w2v"])
            (fun _ _ => Ok Examples.model_ab)
            (fun _ _ => Ok Examples.model_ba)
            (fun m => Ok m) "models/*.w2v" false true false true).
  vm_compute. reflexivity.
Defined.

Lemma _metaToNetwork_graph_witness :
  exists net,
    snd (FormatNetwork._metaToNetwork (nodup string_dec)
           [("1950_1959", [("a", 1%float); ("b", 0.9%float)])]
           [("1950_1959", ["a"])]
           [("a", 1%float)]
           [("1950_1959", [("a", [("a", 0%float); ("b", 0.1%float)])])])
    = Ok net /\
    NoDup (map FormatNetwork.name (FormatNetwork.nodes net)).
Proof.
  eexists. split; [vm_compute; reflexivity|].
  eapply proj1.
  eapply (_metaToNetwork_graph (nodup string_dec) nodup_set_order
            [("1950_1959", [("a", 1%float); ("b", 0.9%float)])]
            [("1950_1959", ["a"])]
            [("a", 1%float)]
            [("1950_1959", [("a", [("a", 0%float); ("b", 0.1%float)])])]).
  vm_compute. reflexivity.
Defined.

Lemma yearlyNetwork_of_tracking_witness :
  exists yT yL,
    Vocabularymonitor.trackClouds Examples.monitor
      (Vocabularymonitor.TermList ["a"]) 10 10 None None 0 1 true false
      "adaptive" None = Ok (yT, yL) /\
    fst (FormatNetwork.yearlyNetwork (nodup string_dec)
           [("1955", ["1950_1959"; "1951_1960"])] [("1955", [("a", 1%float)])]
           yT yL) = [].
Proof.
  eexists _, _. split; [vm_compute; reflexivity|].
  eapply (yearlyNetwork_of_tracking (nodup string_dec) nodup_set_order
            Examples.monitor (Vocabularymonitor.TermList ["a"]) 10 10 None
            None 0 1 true false "adaptive" None _ _ _ _ monitor_sorted).
  vm_compute. reflexivity.
Defined.

Section CacheFacts.

Import Vocabularymonitor LruCache.

Variable evaluators : list CachedW2VModelEvaluator.
Hypothesis evaluators_distinct : distinct_objects evaluators.

Lemma key_eqb_eq (a b : key) : key_eqb a b = true <-> a = b.
Proof.
  destruct a as [[i s] n], b as [[j t] m]. unfold key_eqb. cbn [fst snd].
  rewrite !andb_true_iff, !Nat.eqb_eq, String.eqb_eq. split.
  - intros [[-> ->] ->]. reflexivity.
  - intros E. injection E as -> -> ->. auto.
Qed.

Lemma lookup_In (c : cache) (k : key) (v : pairs) :
  lookup c k = Some v -> In (k, v) c.
Proof.
  induction c as [|[k' v'] c IH]; cbn [lookup]; [discriminate|].
  destruct (key_eqb k' k) eqn:E.
  - apply key_eqb_eq in E. subst k'. intros [= ->]. left. reflexivity.
  - intros H. right. apply IH, H.
Qed.

Lemma remove_In (c : cache) (k : key) (x : key * pairs) :
  In x (remove c k) -> In x c.
Proof.
  induction c as [|[k' v'] c IH]; cbn [remove]; [tauto|].
  destruct (key_eqb k' k); cbn [In]; intuition.
Qed.

Lemma remove_length (c : cache) (k : key) (v : pairs) :
  lookup c k = Some v -> (S (List.length (remove c k)) <= List.length c)%nat.
Proof.
  assert (Hle : forall c', (List.length (remove c' k) <= List.length c')%nat).
  { induction c' as [|[k' v'] c' IH]; cbn [remove]; [cbn; lia|].
    destruct (key_eqb k' k); cbn [List.length]; lia. }
  induction c as [|[k' v'] c IH]; cbn [lookup remove]; [discriminate|].
  destruct (key_eqb k' k).
  - intros _. cbn [List.length]. specialize (Hle c). lia.
  - intros H. cbn [List.length]. specialize (IH H). lia.
Qed.

(** A key is kept at most once. *)
Lemma remove_absent (c : cache) (k : key) : lookup (remove c k) k = None.
Proof.
  induction c as [|[k' v'] c IH]; cbn [remove]; [reflexivity|].
  destruct (key_eqb k' k) eqn:E; [exact IH|].
  cbn [lookup]. rewrite E. exact IH.
Qed.

Lemma In_firstn_cache (n : nat) (c : cache) (x : key * pairs) :
  In x (firstn n c) -> In x c.
Proof.
  revert c. induction n as [|n IH]; intros [|y c]; cbn; try tauto.
  intros [->|H]; [now left|right; apply IH, H].
Qed.

(** One call: the answer of the model, and a cache that is still right
    and within its size. *)
Lemma most_similar_cached_step (self : CachedW2VModelEvaluator)
    (term : string) (topn : nat) (c : cache) :
  In self evaluators -> cache_ok evaluators c ->
  (List.length c <= maxsize)%nat ->
  snd (most_similar_cached self term topn c)
  = most_similar (_model self) term topn /\
  cache_ok evaluators (fst (most_similar_cached self term topn c)) /\
  (List.length (fst (most_similar_cached self term topn c)) <= maxsize)%nat /\
  (forall e, most_similar (_model self) term topn = Raise e ->
     fst (most_similar_cached self term topn c) = c).
Proof.
  intros Hin Hok Hlen. unfold most_similar_cached.
  destruct (lookup c (ident self, term, topn)) as [v|] eqn:El.
  - pose proof (lookup_In _ _ _ El) as Hc.
    destruct (Hok _ _ Hc) as [other [Ho [Hid Hv]]]. cbn [fst snd] in Hid, Hv.
    assert (other = self) by (apply evaluators_distinct; assumption).
    subst other. cbn [fst snd]. rewrite Hv.
    split; [reflexivity|]. split; [|split].
    + intros k' v' [E|H].
      * injection E as <- <-. exists self. cbn [fst snd]. auto.
      * apply (Hok k' v'). apply (remove_In _ _ _ H).
    + cbn [List.length]. pose proof (remove_length _ _ _ El). lia.
    + intros e. discriminate.
  - destruct (most_similar (_model self) term topn) as [v|e] eqn:Em;
      cbn [fst snd].
    + split; [reflexivity|]. split; [|split].
      * intros k' v' H. apply In_firstn_cache in H. destruct H as [E|H].
        -- injection E as <- <-. exists self. cbn [fst snd]. auto.
        -- apply (Hok k' v' H).
      * apply firstn_le_length.
      * intros e. discriminate.
    + split; [reflexivity|]. split; [exact Hok|]. split; [exact Hlen|].
      reflexivity.
Qed.

(** X18.  The cache does not change what an evaluator answers: whatever
    calls are made, in whatever order and on whichever evaluators, each is
    answered as the wrapped model answers it, exceptions included; and the
    one cache all the evaluators share never holds more than [maxsize]
    answers, all of them answers of their models. *)
Theorem most_similar_cached_transparent
    (cs : list (CachedW2VModelEvaluator * string * nat)) (c : cache) :
  Forall (fun call => In (fst (fst call)) evaluators) cs ->
  cache_ok evaluators c -> (List.length c <= maxsize)%nat ->
  snd (calls cs c)
  = map (fun call =>
           most_similar (_model (fst (fst call))) (snd (fst call))
             (snd call)) cs /\
  cache_ok evaluators (fst (calls cs c)) /\
  (List.length (fst (calls cs c)) <= maxsize)%nat.
Proof.
  intros Hcs. revert c.
  induction Hcs as [|[[self term] topn] cs Hin _ IH]; intros c Hok Hlen.
  - cbn. auto.
  - cbn [calls]. cbn [fst snd] in Hin.
    destruct (most_similar_cached_step self term topn c Hin Hok Hlen)
      as [Hr [Hok1 [Hlen1 _]]].
    destruct (most_similar_cached self term topn c) as [c1 r].
    cbn [fst snd] in Hr, Hok1, Hlen1.
    destruct (IH c1 Hok1 Hlen1) as [Hrs [Hok2 Hlen2]].
    destruct (calls cs c1) as [c2 rs]. cbn [fst snd map] in *.
    rewrite Hr, Hrs. auto.
Qed.

End CacheFacts.

Lemma most_similar_cached_transparent_witness :
  snd (LruCache.calls
         [({| LruCache.ident := 0; LruCache._model := Examples.model_ab |},
           "a", 10);
          ({| LruCache.ident := 1; LruCache._model := Examples.model_ba |},
           "a", 10);
          ({| LruCache.ident := 0; LruCache._model := Examples.model_ab |},
           "a", 10);
          ({| LruCache.ident := 0; LruCache._model := Examples.model_ab |},
           "z", 10)] [])
  = [Ok [("b", 0.9%float)]; Ok [("c", 0.8%float)]; Ok [("b", 0.9%float)];
     Raise (KeyError "z")].
Proof.
  refine (proj1 (most_similar_cached_transparent
            [{| LruCache.ident := 0; LruCache._model := Examples.model_ab |};
             {| LruCache.ident := 1; LruCache._model := Examples.model_ba |}]
            _ _ [] _ _ _)).
  - intros a b [<-|[<-|[]]] [<-|[<-|[]]]; cbn; intros E;
      try reflexivity; discriminate.
  - repeat (apply Forall_cons || apply Forall_nil); cbn; auto.
  - intros k v [].
  - unfold LruCache.maxsize. cbn. lia.
Defined.

Section WordLocation.

Import FormatNetwork.


End WordLocation.

Section RangeErrors.

Import Format.







Local Open Scope Z_scope.







End RangeErrors.
